(** * deno-watch: a polling file watcher (mod.ts)

    A shallow embedding of [mod.ts] and the properties of its detection
    engine: the filter, the two tree walkers ([collect], blocking, and
    [walk], asynchronous), the snapshot diff that [walk] performs in place,
    symlink resolution, and the polling loop of [run] and [Watcher.start].

    Conventions of the embedding.
    - A JavaScript object used as a map from paths to timestamps is a
      [gmap string N] of its own properties.  The objects are created by
      [{}], so a lookup [o[p]] of a name that is not an own property finds
      what [Object.prototype] provides under that name ([prototype_member]):
      used as a condition ([truthy]) it is true for an own property with a
      non-zero value and for an inherited one.  An assignment [o[p] = v]
      ([assign]) writes an own property, except under the name [__proto__].
    - [string | null] fields that the code only tests for truthiness
      ([f.name], [f.path], [linkPath]) are strings, the empty string
      standing for every falsy value.
    - Exceptions are values of [error]; a function that may throw returns
      a sum [error + A].
    - Recursion that the source does not bound (symlink chains, directory
      depth) takes a depth argument and answers [None] / [OutOfFuel] when it
      is exhausted. *)

From stdpp Require Import base option list gmap strings numbers fin_maps.
From Stdlib Require Import ZArith Ascii String Lia.

Set Warnings "-register-all".

Local Open Scope string_scope.
Local Open Scope list_scope.

(** ** The file system interface imported from the runtime *)

(** [ErrorKind.NotFound] is the only kind the walkers look at. *)
Inductive error : Type :=
  | NotFound                      (* DenoError with kind NotFound *)
  | DenoError (kind : string)     (* DenoError of any other kind *)
  | JsError (message : string).   (* any other thrown value *)

Definition is_NotFound (e : error) : bool :=
  match e with NotFound => true | _ => false end.

Inductive Kind : Type := File | Directory | Symlink.

(** Modelled from the spec: [FileInfo] is declared by the runtime (module
    "deno"), not by this repository.  Section 6 of the specification lists
    what the walkers read: the kind tests, the modification and creation
    times, and, for directory entries, name and path.  The two times are
    seconds since the epoch as unsigned numbers; 0 stands for a time the
    platform does not provide. *)
Record FileInfo : Type := mkFileInfo {
  name : string;
  path : string;
  kind : Kind;
  modified : N;
  created : N
}.

Definition isFile (f : FileInfo) : bool :=
  match kind f with File => true | _ => false end.
Definition isDirectory (f : FileInfo) : bool :=
  match kind f with Directory => true | _ => false end.
Definition isSymlink (f : FileInfo) : bool :=
  match kind f with Symlink => true | _ => false end.

Definition with_path (f : FileInfo) (p : string) : FileInfo :=
  {| name := name f; path := p; kind := kind f;
     modified := modified f; created := created f |}.

(** The operations of the runtime the walkers call.  The blocking and the
    awaitable variants ([lstat] / [lstatSync], ...) read the same file
    system, so one field serves both. *)
Record FS : Type := mkFS {
  lstat : string -> error + FileInfo;
  readlink : string -> error + string;
  readDir : string -> error + list FileInfo
}.

(** ** JavaScript truthiness *)

(** [a || b] on strings. *)
Definition str_or (a b : string) : string :=
  if String.eqb a "" then b else a.

(** [a || b] on numbers. *)
Definition num_or (a b : N) : N :=
  if N.eqb a 0 then b else a.

(** The names every object created by [{}] inherits from
    [Object.prototype]: eleven functions and the accessor [__proto__]. *)
Definition prototype_member (p : string) : bool :=
  existsb (String.eqb p)
    ["constructor"; "hasOwnProperty"; "isPrototypeOf"; "propertyIsEnumerable";
     "toLocaleString"; "toString"; "valueOf"; "__proto__";
     "__defineGetter__"; "__defineSetter__"; "__lookupGetter__"; "__lookupSetter__"].

(** [o[p]] used as a condition.  An own property decides by its value; a
    name that is not an own property yields the inherited function (or,
    for [__proto__], the prototype object), which is truthy, and
    [undefined] for any other name. *)
Definition truthy (o : gmap string N) (p : string) : bool :=
  match o !! p with
  | Some v => negb (N.eqb v 0)
  | None => prototype_member p
  end.

(** [o[p] = v] for a time [v].  An own property is updated; otherwise one
    is created, except under the name [__proto__]: no own property comes
    of it, since the inherited setter ignores a number.  (An absent time,
    [null], would make that setter reset the prototype; the embedding, where
    0 stands for every falsy time, leaves the object as it is.) *)
Definition assign (o : gmap string N) (p : string) (v : N) : gmap string N :=
  match o !! p with
  | Some _ => <[p := v]> o
  | None => if String.eqb p "__proto__" then o else <[p := v]> o
  end.

(** [Object.keys(o)]. *)
Definition keys (o : gmap string N) : list string := (map_to_list o).*1.

(** ** Options *)

(** A regular expression is used only through [RegExp.prototype.test]. *)
Record DetectorOptions : Type := mkOptions {
  followSymlink : bool;
  ignoreDotFiles : bool;
  test : string -> bool;
  ignore : string -> bool
}.

(** [defaultOptions]: [/.*/] matches every string; [/$^/] matches the empty
    string only. *)
Definition defaultOptions : DetectorOptions :=
  {| followSymlink := false;
     ignoreDotFiles := true;
     test := fun _ => true;
     ignore := fun s => String.eqb s "" |}.

Definition defaultInterval : Z := 1000.

(** ** makeFilter *)

(** [s.split(sep)] for a one-character separator. *)
Fixpoint split (sep : ascii) (s : string) : list string :=
  match s with
  | EmptyString => [EmptyString]
  | String c s' =>
      if Ascii.eqb c sep then EmptyString :: split sep s'
      else match split sep s' with
           | h :: t => String c h :: t
           | [] => [String c EmptyString]
           end
  end.

(** [splitted[splitted.length - 1]] of [path.split("/")]. *)
Definition last_segment (p : string) : string :=
  List.last (split "/" p) EmptyString.

(** The regular expression [/^\.[^.]+/] applied with [test]. *)
Definition dot_regex (s : string) : bool :=
  match s with
  | String c (String d _) => Ascii.eqb c "." && negb (Ascii.eqb d ".")
  | _ => false
  end.

(** The name the dot-file rule looks at: [f.name || splitted[last]]. *)
Definition entry_name (f : FileInfo) (p : string) : string :=
  str_or (name f) (last_segment p).

Definition makeFilter (o : DetectorOptions) (f : FileInfo) (p : string) : bool :=
  if ignoreDotFiles o && dot_regex (entry_name f p) then false
  else if isFile f then
    if negb (test o p) then false
    else if ignore o p then false
    else true
  else true.

(** ** Symlink resolution *)

(** [statTraverse]: [depth] bounds the number of nested calls; [None] means
    the chain was still a symlink when the bound was reached. *)
Fixpoint statTraverse (fs : FS) (depth : nat) (p : string)
  : option (error + FileInfo) :=
  match depth with
  | O => None
  | S depth' =>
      match lstat fs p with
      | inl e => Some (inl e)
      | inr info =>
          if isSymlink info then
            match readlink fs p with
            | inl e => Some (inl e)
            | inr targetPath => statTraverse fs depth' targetPath
            end
          else Some (inr (with_path info (str_or (path info) p)))
      end
  end.

(** [statTraverseSync]: the same text over the blocking calls. *)
Fixpoint statTraverseSync (fs : FS) (depth : nat) (p : string)
  : option (error + FileInfo) :=
  match depth with
  | O => None
  | S depth' =>
      match lstat fs p with
      | inl e => Some (inl e)
      | inr info =>
          if isSymlink info then
            match readlink fs p with
            | inl e => Some (inl e)
            | inr targetPath => statTraverseSync fs depth' targetPath
            end
          else Some (inr (with_path info (str_or (path info) p)))
      end
  end.

(** ** Changes *)

Module Changes.
Record t : Type := mk {
  added : list string;
  modified : list string;
  deleted : list string;
  startTime : Z;
  endTime : Z;
  fileCount : nat
}.

(** [new Changes()] followed by [changes.startTime = Date.now()]. *)
Definition fresh (now : Z) : t :=
  {| added := []; modified := []; deleted := [];
     startTime := now; endTime := 0; fileCount := 0 |}.

Definition length (c : t) : nat :=
  (List.length (added c) + List.length (modified c) + List.length (deleted c))%nat.

Definition all (c : t) : list string :=
  added c ++ modified c ++ deleted c.

Definition time (c : t) : Z := endTime c - startTime c.

Definition push_added (p : string) (c : t) : t :=
  {| added := added c ++ [p]; modified := modified c; deleted := deleted c;
     startTime := startTime c; endTime := endTime c; fileCount := fileCount c |}.

Definition push_modified (p : string) (c : t) : t :=
  {| added := added c; modified := modified c ++ [p]; deleted := deleted c;
     startTime := startTime c; endTime := endTime c; fileCount := fileCount c |}.

(** The tail of [detectChanges]: the deleted paths, the file count and the
    end time. *)
Definition finish (gone : list string) (count : nat) (now : Z) (c : t) : t :=
  {| added := added c; modified := modified c; deleted := deleted c ++ gone;
     startTime := startTime c; endTime := now; fileCount := count |}.
End Changes.

(** ** Targets and the try block of the walkers *)

(** An element of [targets]: a path, or an entry of a directory listing. *)
Inductive target : Type :=
  | TPath (p : string)
  | TInfo (f : FileInfo).

(** What the try block leaves in [path], [info] and [linkPath]. *)
Record located : Type := mkLocated {
  l_path : string;
  l_info : FileInfo;
  l_linkPath : string
}.

(** The try block of [collect].  [None]: a nested [statTraverseSync] did
    not return within [depth] calls. *)
Definition collect_locate (fs : FS) (depth : nat) (followSymlink : bool)
    (f : target) : option (error + located) :=
  match f with
  | TPath p =>
      if followSymlink then
        match statTraverseSync fs depth p with
        | None => None
        | Some (inl e) => Some (inl e)
        | Some (inr info) => Some (inr (mkLocated p info ""))
        end
      else
        match lstat fs p with
        | inl e => Some (inl e)
        | inr info => Some (inr (mkLocated p info ""))
        end
  | TInfo f =>
      if isSymlink f && followSymlink then
        match readlink fs (path f) with
        | inl e => Some (inl e)
        | inr p =>
            match statTraverseSync fs depth p with
            | None => None
            | Some (inl e) => Some (inl e)
            | Some (inr info) => Some (inr (mkLocated p info (path f)))
            end
        end
      else Some (inr (mkLocated (path f) f ""))
  end.

(** The try block of [walk]. *)
Definition walk_locate (fs : FS) (depth : nat) (followSymlink : bool)
    (f : target) : option (error + located) :=
  match f with
  | TPath p =>
      if followSymlink then
        match statTraverse fs depth p with
        | None => None
        | Some (inl e) => Some (inl e)
        | Some (inr info) => Some (inr (mkLocated p info ""))
        end
      else
        match lstat fs p with
        | inl e => Some (inl e)
        | inr info => Some (inr (mkLocated p info ""))
        end
  | TInfo f =>
      if isSymlink f && followSymlink then
        match statTraverse fs depth (path f) with
        | None => None
        | Some (inl e) => Some (inl e)
        | Some (inr info) => Some (inr (mkLocated (path info) info (path f)))
        end
      else Some (inr (mkLocated (path f) f ""))
  end.

(** ** collect: the blocking walker *)

Inductive completion : Type :=
  | Normal
  | Throw (e : error)
  | OutOfFuel.

(** [collect(all, targets, followSymlink, filter)].  [all] is mutated in
    place, so it is threaded through and returned also when the call throws.
    [fuel] bounds the nesting of directories and of symlink hops. *)
Fixpoint collect (fs : FS) (fuel : nat) (all : gmap string N)
    (targets : list target) (followSymlink : bool)
    (filter : FileInfo -> string -> bool) {struct fuel}
  : gmap string N * completion :=
  match fuel with
  | O => (all, OutOfFuel)
  | S fuel' =>
      (fix loop (targets : list target) (all : gmap string N) {struct targets}
         : gmap string N * completion :=
         match targets with
         | [] => (all, Normal)
         | f :: rest =>
             match collect_locate fs fuel' followSymlink f with
             | None => (all, OutOfFuel)
             | Some (inl e) =>
                 if is_NotFound e then loop rest all else (all, Throw e)
             | Some (inr l) =>
                 if String.eqb (l_path l) "" then
                   (all, Throw (JsError "path not found"))
                 else if negb (filter (l_info l) (str_or (l_linkPath l) (l_path l)))
                 then loop rest all
                 else if isDirectory (l_info l) then
                   match readDir fs (l_path l) with
                   | inl e => (all, Throw e)
                   | inr files =>
                       match collect fs fuel' all (List.map TInfo files)
                               followSymlink filter with
                       | (all', Normal) => loop rest all'
                       | r => r
                       end
                   end
                 else if isFile (l_info l) then
                   loop rest
                     (assign all (l_path l)
                        (num_or (modified (l_info l)) (created (l_info l))))
                 else loop rest all
             end
         end) targets all
  end.

(** ** walk: the asynchronous walker *)

(** The objects every call of [walk] in one cycle shares and mutates. *)
Record store : Type := mkStore {
  prev : gmap string N;
  curr : gmap string N;
  changes : Changes.t
}.

(** The branch of [walk] for a regular file. *)
Definition record_file (p : string) (info : FileInfo) (h : store) : store :=
  if truthy (curr h) p then h
  else
    let c := num_or (modified info) (created info) in
    let changes' :=
      if negb (truthy (prev h) p) then Changes.push_added p (changes h)
      else if match prev h !! p with Some v => N.ltb v c | None => false end
      then Changes.push_modified p (changes h)
      else changes h in
    {| prev := delete p (prev h); curr := assign (curr h) p c; changes := changes' |}.

(** What one iteration of the [for] loop of [walk] does. *)
Inductive effect : Type :=
  | Next (h : store)                (* [continue], or the end of the body *)
  | Fork (files : list target)      (* [promises.push(walk(..., files, ...))] *)
  | Raise (e : error)               (* the iteration throws *)
  | Hang.                           (* the awaited [statTraverse] never settles *)

Definition walk_body (fs : FS) (depth : nat) (followSymlink : bool)
    (filter : FileInfo -> string -> bool) (f : target) (h : store) : effect :=
  match walk_locate fs depth followSymlink f with
  | None => Hang
  | Some (inl e) => if is_NotFound e then Next h else Raise e
  | Some (inr l) =>
      if String.eqb (l_path l) "" then Raise (JsError "path not found")
      else if negb (filter (l_info l) (str_or (l_linkPath l) (l_path l))) then Next h
      else if isDirectory (l_info l) then
        match readDir fs (l_path l) with
        | inl e => Raise e
        | inr files => Fork (List.map TInfo files)
        end
      else if isFile (l_info l) then Next (record_file (l_path l) (l_info l) h)
      else Next h
  end.

(** One activation of [walk]: where it stands, and the promises it has
    pushed (the activations it started). *)
Inductive status : Type :=
  | Loop (targets : list target)    (* in the loop, these targets left *)
  | Joining                         (* at [await Promise.all(promises)] *)
  | Threw (e : error)
  | Stuck.

Inductive task : Type :=
  | Task (st : status) (promises : list task).

(** One step of one activation: the next iteration of its loop, or leaving
    the loop.  An iteration is one step because an activation runs alone
    between two awaits, the awaits of an iteration ([lstat], [statTraverse],
    [readDir]) only read the file system, and the one place that writes the
    shared objects, the branch for a regular file, contains no await.  The
    activation a [Fork] starts is scheduled like any other; in the source it
    first runs up to its own first await. *)
Definition task_step (fs : FS) (depth : nat) (followSymlink : bool)
    (filter : FileInfo -> string -> bool) (t : task) (h : store) : task * store :=
  match t with
  | Task (Loop []) ps => (Task Joining ps, h)
  | Task (Loop (f :: rest)) ps =>
      match walk_body fs depth followSymlink filter f h with
      | Next h' => (Task (Loop rest) ps, h')
      | Fork files => (Task (Loop rest) (ps ++ [Task (Loop files) []]), h)
      | Raise e => (Task (Threw e) ps, h)
      | Hang => (Task Stuck ps, h)
      end
  | _ => (t, h)
  end.

(** The activations of one cycle interleave at their awaits.  A step names
    the activation that runs by its position in the tree of promises, and
    carries the file system as it is when the step runs. *)
Fixpoint step_at (fs : FS) (depth : nat) (followSymlink : bool)
    (filter : FileInfo -> string -> bool) (pos : list nat) (t : task) (h : store)
  : task * store :=
  match pos with
  | [] => task_step fs depth followSymlink filter t h
  | i :: pos' =>
      match t with
      | Task st ps =>
          match ps !! i with
          | Some c =>
              let '(c', h') := step_at fs depth followSymlink filter pos' c h in
              (Task st (<[i := c']> ps), h')
          | None => (t, h)
          end
      end
  end.

Definition schedule : Type := list (FS * list nat).

Fixpoint run_walk (depth : nat) (followSymlink : bool)
    (filter : FileInfo -> string -> bool) (sch : schedule) (t : task) (h : store)
  : task * store :=
  match sch with
  | [] => (t, h)
  | (fs, pos) :: sch' =>
      let '(t', h') := step_at fs depth followSymlink filter pos t h in
      run_walk depth followSymlink filter sch' t' h'
  end.

(** The state of the promise an activation returned. *)
Inductive pstate : Type := Pending | Fulfilled | Rejected.

Definition is_rejected (p : pstate) : bool :=
  match p with Rejected => true | _ => false end.
Definition is_fulfilled (p : pstate) : bool :=
  match p with Fulfilled => true | _ => false end.

(** [Promise.all]. *)
Definition promise_all (l : list pstate) : pstate :=
  if existsb is_rejected l then Rejected
  else if forallb is_fulfilled l then Fulfilled
  else Pending.

Fixpoint promise (t : task) : pstate :=
  match t with
  | Task st ps =>
      match st with
      | Loop _ => Pending
      | Stuck => Pending
      | Threw _ => Rejected
      | Joining => promise_all (List.map promise ps)
      end
  end.

(** ** Detector *)

Record Detector : Type := mkDetector {
  files : gmap string N;
  targets : list string;
  options : DetectorOptions
}.

(** [new Detector(targets, options)]. *)
Definition newDetector (targets : list string) (o : DetectorOptions) : Detector :=
  {| files := ∅; targets := targets; options := o |}.

Definition set_files (d : Detector) (m : gmap string N) : Detector :=
  {| files := m; targets := targets d; options := options d |}.

(** [init()]: the detector afterwards, and how the call completed. *)
Definition init (fs : FS) (fuel : nat) (d : Detector) : Detector * completion :=
  let '(all, c) :=
    collect fs fuel (files d) (List.map TPath (targets d))
      (followSymlink (options d)) (makeFilter (options d)) in
  (set_files d all, c).

(** The store and the root activation [detectChanges] starts [walk] with:
    [prev] is [this.files] itself. *)
Definition walk_start (d : Detector) (now : Z) : task * store :=
  (Task (Loop (List.map TPath (targets d))) [],
   {| prev := files d; curr := ∅; changes := Changes.fresh now |}).

Inductive settled : Type :=
  | Resolved (c : Changes.t) (d : Detector)
  | Failed (d : Detector)
  | Unsettled.

(** [detectChanges()] under a schedule of its activations.  [startNow] and
    [endNow] are the two readings of [Date.now()].  The call resolves when
    the promise of the root activation is fulfilled, and then replaces
    [this.files]; it fails when that promise is rejected, and [this.files]
    stays the object [walk] has been deleting from.  [Unsettled]: the
    schedule ends before the promise settles. *)
Definition detectChanges (depth : nat) (sch : schedule) (startNow endNow : Z)
    (d : Detector) : settled :=
  let '(t0, h0) := walk_start d startNow in
  let '(t, h) :=
    run_walk depth (followSymlink (options d)) (makeFilter (options d)) sch t0 h0 in
  match promise t with
  | Fulfilled =>
      Resolved (Changes.finish (keys (prev h)) (size (curr h)) endNow (changes h))
               (set_files d (curr h))
  | Rejected => Failed (set_files d (prev h))
  | Pending => Unsettled
  end.

(** ** The polling loop: [run] driven by [Watcher.start] *)

(** The generator [run], the loop that [start] wraps around it and the
    cancellation handle, as a machine that moves from one suspension point
    to the next.  A scan is seen from outside: it is started, and later it
    resolves with a report or fails.  The readings of [Date.now()] come with
    the events. *)

(** Where the generator [run] is suspended. *)
Inductive phase : Type :=
  | AtTimer        (* at [await new Promise(resolve => setTimeout(resolve, waitTime))] *)
  | AtScan         (* at [await detector.detectChanges()] *)
  | AtCallback     (* at [yield changes], while [callback(changes)] runs *)
  | Returned       (* the [while] loop ended: the promise [loop] is fulfilled *)
  | Crashed.       (* a scan or the callback threw: the promise [loop] is rejected *)

(** The runtime's side of the timer set by [setTimeout]. *)
Inductive timer : Type :=
  | NoTimer
  | TimerPending
  | TimerFired     (* [resolve] was called, the generator has not resumed yet *)
  | TimerCleared.

(** The promise returned by the cancellation handle. *)
Inductive handle : Type :=
  | NotCalled
  | HandlePending    (* at [await loop] *)
  | HandleResolved
  | HandleRejected.

(** The variables of [run] and of [state], and what an observer records:
    the timer as the runtime holds it, the delay and clock reading of the
    last [setTimeout], the scans started and completed, the reports handed
    to the callback, and the promise of the handle. *)
Record watcher : Type := mkWatcher {
  interval : Z;                      (* [options.interval] *)
  abort : bool;                      (* [state.abort] *)
  timeout : option nat;              (* [state.timeout]: a timer id, or null *)
  the_timer : timer;
  where_ : phase;
  lastStartTime : Z;
  waitTime : Z;                      (* the delay of the last [setTimeout] *)
  armedAt : Z;                       (* the reading of [Date.now()] for it *)
  cycles : nat;                      (* calls of [detectChanges] so far *)
  scanned : list Changes.t;          (* their results, oldest first *)
  delivered : list Changes.t;        (* the reports given to the callback *)
  ended : handle
}.

Inductive event : Type :=
  | TimerFires                           (* the runtime calls [resolve] *)
  | Resumes (now : Z)                    (* the generator resumes after the timer *)
  | ScanDone (c : Changes.t) (now : Z)   (* [detectChanges] resolves with [c] *)
  | ScanFails
  | CallbackDone (now : Z)               (* the promise of the callback resolves *)
  | CallbackFails
  | Cancel.                              (* the cancellation handle is invoked *)

(** Settling of [await loop] in the handle, once [loop] settles. *)
Definition settle_handle (ok : bool) (h : handle) : handle :=
  match h with
  | HandlePending => if ok then HandleResolved else HandleRejected
  | _ => h
  end.

(** The head of the [while] loop, reached at the reading [now] of the
    clock: leave when [state.abort] is set, otherwise arm the timer. *)
Definition loop_head (now : Z) (w : watcher) : watcher :=
  if abort w then
    {| interval := interval w; abort := abort w; timeout := timeout w;
       the_timer := the_timer w; where_ := Returned;
       lastStartTime := lastStartTime w; waitTime := waitTime w;
       armedAt := armedAt w; cycles := cycles w; scanned := scanned w;
       delivered := delivered w; ended := settle_handle true (ended w) |}
  else
    {| interval := interval w; abort := abort w; timeout := Some (S (cycles w));
       the_timer := TimerPending; where_ := AtTimer;
       lastStartTime := lastStartTime w;
       waitTime := Z.max 0 (interval w - (now - lastStartTime w));
       armedAt := now; cycles := cycles w; scanned := scanned w;
       delivered := delivered w; ended := ended w |}.

(** [Watcher.start]: [run] is entered, [detector.init()] returns
    [startTime], and the loop is reached at the reading [now]. *)
Definition start (interval : Z) (startTime now : Z) : watcher :=
  loop_head now
    {| interval := interval; abort := false; timeout := None;
       the_timer := NoTimer; where_ := AtTimer; lastStartTime := startTime;
       waitTime := 0; armedAt := now; cycles := 0; scanned := [];
       delivered := []; ended := NotCalled |}.

(** The function returned by [start]. *)
Definition cancel (w : watcher) : watcher :=
  match timeout w with
  | Some _ =>
      (* clearTimeout(state.timeout): the promise of the handle resolves *)
      {| interval := interval w; abort := true; timeout := timeout w;
         the_timer := match the_timer w with
                      | TimerPending => TimerCleared
                      | t => t
                      end;
         where_ := where_ w; lastStartTime := lastStartTime w;
         waitTime := waitTime w; armedAt := armedAt w; cycles := cycles w;
         scanned := scanned w; delivered := delivered w;
         ended := HandleResolved |}
  | None =>
      (* await loop *)
      {| interval := interval w; abort := true; timeout := timeout w;
         the_timer := the_timer w; where_ := where_ w;
         lastStartTime := lastStartTime w; waitTime := waitTime w;
         armedAt := armedAt w; cycles := cycles w; scanned := scanned w;
         delivered := delivered w;
         ended := match where_ w with
                  | Returned => HandleResolved
                  | Crashed => HandleRejected
                  | _ => HandlePending
                  end |}
  end.

Definition crash (w : watcher) : watcher :=
  {| interval := interval w; abort := abort w; timeout := timeout w;
     the_timer := the_timer w; where_ := Crashed;
     lastStartTime := lastStartTime w; waitTime := waitTime w;
     armedAt := armedAt w; cycles := cycles w; scanned := scanned w;
     delivered := delivered w; ended := settle_handle false (ended w) |}.

(** One event.  An event that cannot happen where the watcher stands
    leaves it as it is. *)
Definition run_step (e : event) (w : watcher) : watcher :=
  match e, where_ w, the_timer w with
  | TimerFires, AtTimer, TimerPending =>
      {| interval := interval w; abort := abort w; timeout := timeout w;
         the_timer := TimerFired; where_ := AtTimer;
         lastStartTime := lastStartTime w; waitTime := waitTime w;
         armedAt := armedAt w; cycles := cycles w; scanned := scanned w;
         delivered := delivered w; ended := ended w |}
  | Resumes now, AtTimer, TimerFired =>
      (* state.timeout = null; lastStartTime = Date.now();
         detector.detectChanges() is called *)
      {| interval := interval w; abort := abort w; timeout := None;
         the_timer := NoTimer; where_ := AtScan;
         lastStartTime := now; waitTime := waitTime w;
         armedAt := armedAt w; cycles := S (cycles w); scanned := scanned w;
         delivered := delivered w; ended := ended w |}
  | ScanDone c now, AtScan, _ =>
      (* lastStartTime = changes.startTime; if (changes.length) yield changes *)
      let w' :=
        {| interval := interval w; abort := abort w; timeout := timeout w;
           the_timer := the_timer w; where_ := AtCallback;
           lastStartTime := Changes.startTime c; waitTime := waitTime w;
           armedAt := armedAt w; cycles := cycles w;
           scanned := scanned w ++ [c];
           delivered := if Nat.eqb (Changes.length c) 0 then delivered w
                        else delivered w ++ [c];
           ended := ended w |} in
      if Nat.eqb (Changes.length c) 0 then loop_head now w' else w'
  | ScanFails, AtScan, _ => crash w
  | CallbackDone now, AtCallback, _ => loop_head now w
  | CallbackFails, AtCallback, _ => crash w
  | Cancel, _, _ => cancel w
  | _, _, _ => w
  end.

Fixpoint run_events (evs : list event) (w : watcher) : watcher :=
  match evs with
  | [] => w
  | e :: evs' => run_events evs' (run_step e w)
  end.

(** * Notions the properties are stated with *)

(** A name "starts with a dot, followed by at least one non-dot character". *)
Definition dot_name (s : string) : Prop :=
  exists c rest, s = String "." (String c rest) /\ c <> "."%char.

(** Joining the pieces of [split] with the separator gives the string back. *)
Fixpoint join (sep : ascii) (l : list string) : string :=
  match l with
  | [] => EmptyString
  | [s] => s
  | s :: l' => s ++ String sep (join sep l')
  end.

Fixpoint has_char (c : ascii) (s : string) : bool :=
  match s with
  | EmptyString => false
  | String d s' => Ascii.eqb c d || has_char c s'
  end.

(** [ends fs k p r]: the chain of symlinks that starts at [p] stops after
    [k] hops with [r]: an entry that is not a symlink, or the error of the
    [lstat] or [readlink] that failed. *)
Inductive ends (fs : FS) : nat -> string -> error + FileInfo -> Prop :=
  | ends_lstat_error p e :
      lstat fs p = inl e -> ends fs 0 p (inl e)
  | ends_terminal p info :
      lstat fs p = inr info -> isSymlink info = false ->
      ends fs 0 p (inr (with_path info (str_or (path info) p)))
  | ends_readlink_error p info e :
      lstat fs p = inr info -> isSymlink info = true ->
      readlink fs p = inl e -> ends fs 0 p (inl e)
  | ends_hop p info q k r :
      lstat fs p = inr info -> isSymlink info = true ->
      readlink fs p = inr q -> ends fs k q r -> ends fs (S k) p r.

(** ** What holds of the store during a cycle *)

(** [walk_inv P h]: the store [h] of a cycle that started from the snapshot
    [P].  The previous snapshot has lost exactly the paths recorded so far;
    the lists only name recorded paths; a path listed as modified was
    tracked with an earlier time; no path is listed twice across the two
    lists; a recorded path that was not tracked is listed as added; no
    recorded path is named like a member of [Object.prototype]. *)
Record walk_inv (P : gmap string N) (h : store) : Prop := mkWalkInv {
  inv_prev : forall p,
    prev h !! p = match curr h !! p with Some _ => None | None => P !! p end;
  inv_added : forall p,
    p ∈ Changes.added (changes h) -> is_Some (curr h !! p);
  inv_modified : forall p,
    p ∈ Changes.modified (changes h) ->
    exists v c, P !! p = Some v /\ curr h !! p = Some c /\ (0 < v < c)%N;
  inv_disjoint : forall p,
    p ∈ Changes.added (changes h) -> p ∉ Changes.modified (changes h);
  inv_deleted : Changes.deleted (changes h) = [];
  inv_new : forall p,
    is_Some (curr h !! p) -> truthy P p = false -> p ∈ Changes.added (changes h);
  inv_own : forall p,
    is_Some (curr h !! p) -> prototype_member p = false
}.

(** ** Shapes of the tree of activations *)

Definition threw (st : status) : bool :=
  match st with Threw _ => true | _ => false end.
Definition joining (st : status) : bool :=
  match st with Joining => true | _ => false end.
Definition resting (st : status) : bool :=
  match st with Joining => true | Threw _ => true | _ => false end.

(** The activation at a position of the tree of promises. *)
Fixpoint subtask (pos : list nat) (t : task) : option task :=
  match pos with
  | [] => Some t
  | i :: pos' =>
      match t with
      | Task _ ps =>
          match ps !! i with
          | Some c => subtask pos' c
          | None => None
          end
      end
  end.

(** Some activation has thrown. *)
Fixpoint has_thrown (t : task) : bool :=
  match t with
  | Task st ps => threw st || existsb has_thrown ps
  end.

(** Every activation has left its loop without throwing. *)
Fixpoint all_joining (t : task) : bool :=
  match t with
  | Task st ps => joining st && forallb all_joining ps
  end.

(** No activation is in its loop or stuck: nothing is left to run. *)
Fixpoint at_rest (t : task) : bool :=
  match t with
  | Task st ps => resting st && forallb at_rest ps
  end.

(** ** The polling loop, seen from outside *)

(** The start of the cycle the cadence is counted from: the start time of
    the last completed scan, or of [init]. *)
Definition last_cycle_start (startTime : Z) (w : watcher) : Z :=
  List.last (List.map Changes.startTime (scanned w)) startTime.

Definition nonempty (c : Changes.t) : bool := negb (Nat.eqb (Changes.length c) 0).

Definition scan_ends (e : event) : bool :=
  match e with ScanDone _ _ => true | ScanFails => true | _ => false end.

(** [watcher_inv startTime w]: what holds of a watcher started with
    [init]'s [startTime], whatever happened since. *)
Record watcher_inv (startTime : Z) (w : watcher) : Prop := mkWatcherInv {
  winv_delivered : delivered w = List.filter nonempty (scanned w);
  winv_clock :
    match where_ w with
    | AtScan | Crashed => True
    | _ => lastStartTime w = last_cycle_start startTime w
    end;
  winv_wait : where_ w = AtTimer ->
    waitTime w = Z.max 0 (interval w - (armedAt w - lastStartTime w));
  winv_shape :
    match where_ w with
    | AtTimer => is_Some (timeout w) /\ the_timer w <> NoTimer /\
                 (the_timer w = TimerPending -> abort w = false)
    | _ => timeout w = None /\ the_timer w = NoTimer
    end
}.

(** The timer was cleared: the generator stays suspended for ever. *)
Definition orphaned (w : watcher) : Prop :=
  where_ w = AtTimer /\ the_timer w = TimerCleared /\ is_Some (timeout w).

(** Cancelled with no timer set: no timer will be set again. *)
Definition winding_down (w : watcher) : Prop :=
  abort w = true /\ timeout w = None /\ the_timer w = NoTimer.

(** ** Entries that carry a time *)

(** The time [walk] and [collect] record for an entry. *)
Definition time_of (i : FileInfo) : N := num_or (modified i) (created i).

Definition timed (i : FileInfo) : bool := negb (N.eqb (time_of i) 0).

Definition timed_target (t : target) : bool :=
  match t with TPath _ => true | TInfo i => timed i end.

Definition timed_status (st : status) : bool :=
  match st with Loop ts => forallb timed_target ts | _ => true end.

Fixpoint timed_task (t : task) : bool :=
  match t with
  | Task st ps => timed_status st && forallb timed_task ps
  end.

(** Every entry the file system hands out carries a time. *)
Definition timed_fs (fs : FS) : Prop :=
  (forall p i, lstat fs p = inr i -> timed i = true) /\
  (forall p l, readDir fs p = inr l -> forallb timed l = true).

(** What holds in addition of the store when only timed entries are met
    and the previous snapshot [P] holds no falsy time. *)
Record timed_inv (P : gmap string N) (h : store) : Prop := mkTimedInv {
  tinv_curr : forall p c, curr h !! p = Some c -> c <> 0%N;
  tinv_added : forall p, p ∈ Changes.added (changes h) -> P !! p = None;
  tinv_modified : forall p v c,
    P !! p = Some v -> curr h !! p = Some c -> (v < c)%N ->
    p ∈ Changes.modified (changes h)
}.

(** ** The traversal without symlink-following *)

(** The try block of both walkers when links are not followed. *)
Definition locate (fs : FS) (t : target) : error + located :=
  match t with
  | TPath p =>
      match lstat fs p with
      | inl e => inl e
      | inr i => inr (mkLocated p i "")
      end
  | TInfo f => inr (mkLocated (path f) f "")
  end.

(** [reaches fs filter t q]: the traversal of target [t] arrives at the
    regular file [q]. *)
Inductive reaches (fs : FS) (filter : FileInfo -> string -> bool)
  : target -> string -> Prop :=
  | reaches_file t l :
      locate fs t = inr l -> l_path l <> "" ->
      filter (l_info l) (l_path l) = true -> isFile (l_info l) = true ->
      reaches fs filter t (l_path l)
  | reaches_dir t l entries f q :
      locate fs t = inr l -> l_path l <> "" ->
      filter (l_info l) (l_path l) = true -> isDirectory (l_info l) = true ->
      readDir fs (l_path l) = inr entries -> f ∈ entries ->
      reaches fs filter (TInfo f) q ->
      reaches fs filter t q.

(** A file system at rest: what it reports for a path, through [lstat] or
    through a listing, carries the one time [stamp] gives the path, and
    that time is not falsy. *)
Definition steady (fs : FS) (stamp : string -> N) : Prop :=
  (forall p i, lstat fs p = inr i -> time_of i = stamp p /\ stamp p <> 0%N) /\
  (forall dir l i, readDir fs dir = inr l -> i ∈ l ->
     time_of i = stamp (path i) /\ stamp (path i) <> 0%N).

Definition known (stamp : string -> N) (t : target) : Prop :=
  match t with
  | TPath _ => True
  | TInfo f => time_of f = stamp (path f) /\ stamp (path f) <> 0%N
  end.

(** The targets the activations of a tree have still to visit. *)
Fixpoint pending (t : task) : list target :=
  match t with
  | Task st ps =>
      match st with Loop ts => ts | _ => [] end ++ flat_map pending ps
  end.

Definition failed_status (st : status) : bool :=
  match st with Threw _ => true | Stuck => true | _ => false end.

(** Some activation threw or is stuck. *)
Fixpoint spoiled (t : task) : bool :=
  match t with
  | Task st ps => failed_status st || existsb spoiled ps
  end.

(** [cover fs filter stamp roots M sp h]: the state of a cycle over a
    steady file system, where [M] holds of the targets still to visit and
    [sp] tells whether an activation failed.  What is recorded was reached
    from the roots and carries its stamp; what is still to visit leads only
    to files reached from the roots; and, unless an activation failed, every
    file reached from the roots is recorded or still ahead, unless it is
    named like a member of [Object.prototype]: such a file is never
    recorded. *)
Record cover (fs : FS) (filter : FileInfo -> string -> bool) (stamp : string -> N)
    (roots : list target) (M : target -> Prop) (sp : bool) (h : store) : Prop :=
  mkCover {
  cover_known : forall x, M x -> known stamp x;
  cover_ahead : forall x q, M x -> reaches fs filter x q ->
    exists r, r ∈ roots /\ reaches fs filter r q;
  cover_sound : forall q c, curr h !! q = Some c ->
    c = stamp q /\ exists r, r ∈ roots /\ reaches fs filter r q;
  cover_complete : sp = true \/
    forall r q, r ∈ roots -> reaches fs filter r q -> prototype_member q = false ->
      is_Some (curr h !! q) \/ exists x, M x /\ reaches fs filter x q;
  cover_own : forall q, is_Some (curr h !! q) -> prototype_member q = false
}.

(** A schedule all of whose steps see the same file system. *)
Definition steady_schedule (fs : FS) (steps : list (list nat)) : schedule :=
  List.map (fun pos => (fs, pos)) steps.

(** * File systems and inputs of the examples *)

Inductive node : Type :=
  | NFile (mtime ctime : N)
  | NDir (names : list string)
  | NLink (to : string)
  | NDenied.

Definition disk : Type := list (string * node).

Fixpoint find_node (d : disk) (p : string) : option node :=
  match d with
  | [] => None
  | (q, n) :: d' => if String.eqb q p then Some n else find_node d' p
  end.

Definition node_info (nm p : string) (n : node) : error + FileInfo :=
  match n with
  | NFile m c => inr (mkFileInfo nm p File m c)
  | NDir _ => inr (mkFileInfo nm p Directory 1 1)
  | NLink _ => inr (mkFileInfo nm p Symlink 1 1)
  | NDenied => inl (DenoError "PermissionDenied")
  end.

(** The runtime's view of a disk: [lstat] answers without name and path,
    a listing entry carries both. *)
Definition fs_of (d : disk) : FS :=
  {| lstat := fun p =>
       match find_node d p with
       | Some n => node_info "" "" n
       | None => inl NotFound
       end;
     readlink := fun p =>
       match find_node d p with
       | Some (NLink q) => inr q
       | Some _ => inl (DenoError "InvalidInput")
       | None => inl NotFound
       end;
     readDir := fun p =>
       match find_node d p with
       | Some (NDir names) =>
           inr (omap (fun nm =>
                  let q := (p ++ "/" ++ nm)%string in
                  match find_node d q with
                  | Some n =>
                      match node_info nm q n with
                      | inr i => Some i
                      | inl _ => Some (mkFileInfo nm q File 1 1)
                      end
                  | None => None
                  end) names)
       | Some _ => inl (DenoError "Other")
       | None => inl NotFound
       end |}.

(** A symlink that points at itself. *)
Definition ring_disk : disk := [("ring", NLink "ring")].

(** A tracked file next to a path whose [lstat] is refused. *)
Definition denied_disk : disk := [("a", NFile 1 1); ("b", NDenied)].

Definition denied_detector : Detector :=
  {| files := {[ "a" := 1%N ]}; targets := ["a"; "b"]; options := defaultOptions |}.

Definition denied_schedule : schedule :=
  [(fs_of denied_disk, []); (fs_of denied_disk, [])].

(** A file for which the platform provides neither time. *)
Definition untimed_disk : disk := [("a", NFile 0 0)].

Definition untimed_schedule : schedule :=
  [(fs_of untimed_disk, []); (fs_of untimed_disk, [])].

(** A watched directory [d] holding a link to a link to a file. *)
Definition chain_disk : disk :=
  [("d", NDir ["l1"]); ("d/l1", NLink "x/l2");
   ("x/l2", NLink "x/f"); ("x/f", NFile 7 7)].

Definition chain_options : DetectorOptions :=
  {| followSymlink := true; ignoreDotFiles := true;
     test := fun _ => true; ignore := fun s => String.eqb s "" |}.

(** The root lists [d] and leaves its loop; the nested walk visits the
    entry and leaves its loop. *)
Definition chain_schedule : schedule :=
  [(fs_of chain_disk, []); (fs_of chain_disk, []);
   (fs_of chain_disk, [0]); (fs_of chain_disk, [0])].

(** The detector after [init] on [untimed_disk]. *)
Definition untimed_detector : Detector :=
  {| files := {[ "a" := 0%N ]}; targets := ["a"]; options := defaultOptions |}.

(** The detector after [init] on [chain_disk]: the key is the target of
    the first link. *)
Definition chain_detector : Detector :=
  {| files := {[ "x/l2" := 7%N ]}; targets := ["d"]; options := chain_options |}.

Definition chain_entry : FileInfo := mkFileInfo "l1" "d/l1" Symlink 1 1.

Definition empty_store : store :=
  {| prev := ∅; curr := ∅; changes := Changes.fresh 0 |}.

Definition one_added : Changes.t :=
  {| Changes.added := ["a"]; Changes.modified := []; Changes.deleted := [];
     Changes.startTime := 990; Changes.endTime := 995; Changes.fileCount := 1 |}.

(** The report of a scan that found no change. *)
Definition no_change : Changes.t :=
  {| Changes.added := []; Changes.modified := []; Changes.deleted := [];
     Changes.startTime := 2001; Changes.endTime := 2299; Changes.fileCount := 1 |}.

(** A tracked file [a] next to a new file [c] and a path whose [lstat] is
    refused: the cycle records [c], then fails on [b]. *)
Definition fresh_then_denied_disk : disk :=
  [("a", NFile 1 1); ("b", NDenied); ("c", NFile 2 2)].

Definition fresh_then_denied_detector : Detector :=
  {| files := {[ "a" := 1%N ]}; targets := ["c"; "b"]; options := defaultOptions |}.

Definition fresh_then_denied_schedule : schedule :=
  [(fs_of fresh_then_denied_disk, []); (fs_of fresh_then_denied_disk, [])].

(** A directory with one regular file. *)
Definition plain_disk : disk := [("d", NDir ["f"]); ("d/f", NFile 3 3)].

Definition plain_stamp (p : string) : N := if String.eqb p "d/f" then 3%N else 1%N.

Definition plain_steps : list (list nat) := [[]; []; [0]; [0]].

(** The detector after [init] on [plain_disk]. *)
Definition plain_detector : Detector :=
  {| files := {[ "d/f" := 3%N ]}; targets := ["d"]; options := defaultOptions |}.

Definition plain_report : Changes.t :=
  {| Changes.added := []; Changes.modified := []; Changes.deleted := [];
     Changes.startTime := 0; Changes.endTime := 1; Changes.fileCount := 1 |}.

(** The scenario of the repository's test [Watch]: an empty directory, then
    a file in it, then the file touched, then the file removed. *)
Definition test_empty : disk := [("tmp", NDir [])].
Definition test_created : disk := [("tmp", NDir ["f"]); ("tmp/f", NFile 10 10)].
Definition test_touched : disk := [("tmp", NDir ["f"]); ("tmp/f", NFile 20 10)].

Definition test_steps (dk : disk) : schedule :=
  steady_schedule (fs_of dk) [[]; []; [0]; [0]].

Definition report_of (s : settled) : option (list string * list string * list string) :=
  match s with
  | Resolved c _ => Some (Changes.added c, Changes.modified c, Changes.deleted c)
  | _ => None
  end.

Definition detector_of (d : Detector) (s : settled) : Detector :=
  match s with
  | Resolved _ d' => d'
  | Failed d' => d'
  | Unsettled => d
  end.

(** * Further notions *)

(** Every target the activations of a tree have still to visit satisfies
    [Q]. *)
Definition guarded_status (Q : target -> bool) (st : status) : bool :=
  match st with Loop ts => forallb Q ts | _ => true end.

Fixpoint guarded (Q : target -> bool) (t : task) : bool :=
  match t with
  | Task st ps => guarded_status Q st && forallb (guarded Q) ps
  end.

Definition any_target (t : target) : bool := true.

(** The name an entry carries, if any, is the last segment of its path:
    [lstat] reports no name (or that of the path asked for), a listing
    reports each entry under its name and its path. *)
Definition well_named (i : FileInfo) (p : string) : Prop :=
  name i = "" \/ name i = last_segment p.

Definition named_fs (fs : FS) : Prop :=
  (forall p i, lstat fs p = inr i -> well_named i p) /\
  (forall dir l i, readDir fs dir = inr l -> i ∈ l -> well_named i (path i)).

Definition named_target (t : target) : bool :=
  match t with
  | TPath _ => true
  | TInfo f => String.eqb (name f) "" || String.eqb (name f) (last_segment (path f))
  end.

Definition is_cancel (e : event) : bool :=
  match e with Cancel => true | _ => false end.

Definition is_failure (e : event) : bool :=
  match e with ScanFails => true | CallbackFails => true | _ => false end.

Definition callback_ends (e : event) : bool :=
  match e with CallbackDone _ => true | CallbackFails => true | _ => false end.

(** The scans that can still start, and the reports that can still be
    delivered, once [state.abort] is set. *)
Definition scans_left (w : watcher) : nat :=
  match where_ w, the_timer w with
  | AtTimer, TimerFired => 1
  | _, _ => 0
  end.

Definition reports_left (w : watcher) : nat :=
  match where_ w, the_timer w with
  | AtTimer, TimerFired => 1
  | AtScan, _ => 1
  | _, _ => 0
  end.

(** How the scans started relate to the scans completed. *)
Definition scans_in_step (w : watcher) : Prop :=
  match where_ w with
  | AtScan => cycles w = S (List.length (scanned w))
  | Crashed => cycles w = List.length (scanned w) \/
               cycles w = S (List.length (scanned w))
  | _ => cycles w = List.length (scanned w)
  end.

(** Every file of a disk carries a time. *)
Definition timed_node (n : node) : bool :=
  match n with
  | NFile m c => negb (N.eqb (num_or m c) 0)
  | _ => true
  end.

Definition timed_disk (dk : disk) : bool := forallb (fun e => timed_node e.2) dk.

(** The detector after the cycle that sees [test_created], the cycle that
    sees [test_touched] from there, and the cycle that sees the file
    replaced by another. *)
Definition created_detector : Detector :=
  {| files := {[ "tmp/f" := 10%N ]}; targets := ["tmp"]; options := defaultOptions |}.

Definition touched_detector : Detector :=
  {| files := {[ "tmp/f" := 20%N ]}; targets := ["tmp"]; options := defaultOptions |}.

Definition touched_report : Changes.t :=
  {| Changes.added := []; Changes.modified := ["tmp/f"]; Changes.deleted := [];
     Changes.startTime := 4; Changes.endTime := 5; Changes.fileCount := 1 |}.

Definition test_swapped : disk := [("tmp", NDir ["g"]); ("tmp/g", NFile 30 30)].

Definition swapped_detector : Detector :=
  {| files := {[ "tmp/g" := 30%N ]}; targets := ["tmp"]; options := defaultOptions |}.

Definition swapped_report : Changes.t :=
  {| Changes.added := ["tmp/g"]; Changes.modified := []; Changes.deleted := ["tmp/f"];
     Changes.startTime := 4; Changes.endTime := 5; Changes.fileCount := 1 |}.

(** The first cycle of a detector on [plain_disk] that was not initialised. *)
Definition plain_first_report : Changes.t :=
  {| Changes.added := ["d/f"]; Changes.modified := []; Changes.deleted := [];
     Changes.startTime := 0; Changes.endTime := 1; Changes.fileCount := 1 |}.

(** A directory that is gone when it is listed. *)
Definition vanished_info : FileInfo := mkFileInfo "" "" Directory 1 1.

Definition vanished_fs : FS :=
  {| lstat := fun p => if String.eqb p "d" then inr vanished_info else inl NotFound;
     readlink := fun _ => inl NotFound;
     readDir := fun _ => inl NotFound |}.

Definition vanished_located : located := mkLocated "d" vanished_info "".

Definition chain_located : located :=
  mkLocated "x/f" (mkFileInfo "" "x/f" File 7 7) "d/l1".

(** One round of the loop: the timer fires, the scan reports one added
    file, the callback is running. *)
Definition one_round : list event :=
  [TimerFires; Resumes 1000; ScanDone one_added 1010].

(** The time a disk gives a path. *)
Definition disk_stamp (dk : disk) (p : string) : N :=
  match find_node dk p with
  | Some (NFile m c) => num_or m c
  | _ => 1%N
  end.

(** A directory with two subdirectories, and two orders in which the
    activations of [walk] can run over it: subdirectory [a] first, or
    subdirectory [b] first with the root leaving its loop last. *)
Definition fork_disk : disk :=
  [("r", NDir ["a"; "b"]); ("r/a", NDir ["x"]); ("r/a/x", NFile 5 5);
   ("r/b", NDir ["y"]); ("r/b/y", NFile 6 6)].

Definition fork_steps1 : list (list nat) :=
  [[]; []; [0]; [0]; [0]; [0; 0]; [0; 0]; [0; 1]; [0; 1]]%nat.

Definition fork_steps2 : list (list nat) :=
  [[]; [0]; [0]; [0; 1]; [0; 1]; [0; 0]; [0]; [0; 0]; []]%nat.

Definition fork_detector : Detector :=
  {| files := {[ "r/a/x" := 5%N; "r/b/y" := 6%N ]}; targets := ["r"];
     options := defaultOptions |}.

Definition fork_report1 : Changes.t :=
  {| Changes.added := ["r/a/x"; "r/b/y"]; Changes.modified := []; Changes.deleted := [];
     Changes.startTime := 0; Changes.endTime := 1; Changes.fileCount := 2 |}.

Definition fork_report2 : Changes.t :=
  {| Changes.added := ["r/b/y"; "r/a/x"]; Changes.modified := []; Changes.deleted := [];
     Changes.startTime := 2; Changes.endTime := 3; Changes.fileCount := 2 |}.

(** A listing entry that carries no path. *)
Definition pathless_entry : FileInfo := mkFileInfo "x" "" File 1 1.

(** A file named like a member of [Object.prototype]. *)
Definition constructor_disk : disk := [("constructor", NFile 5 5)].

Definition constructor_detector : Detector :=
  {| files := {[ "constructor" := 5%N ]}; targets := ["constructor"];
     options := defaultOptions |}.

Definition constructor_schedule : schedule :=
  [(fs_of constructor_disk, []); (fs_of constructor_disk, [])].

Definition constructor_report : Changes.t :=
  {| Changes.added := []; Changes.modified := []; Changes.deleted := ["constructor"];
     Changes.startTime := 0; Changes.endTime := 1; Changes.fileCount := 0 |}.
(** * Properties *)

(** ** The filter *)

Lemma dot_regex_spec (s : string) : dot_regex s = true <-> dot_name s.
Proof.
  unfold dot_regex, dot_name. split.
  - destruct s as [|c [|d rest]]; try discriminate.
    intros H. apply andb_prop in H as [Hc Hd].
    apply Ascii.eqb_eq in Hc. subst c.
    exists d, rest. split; [reflexivity|].
    intros ->. rewrite Ascii.eqb_refl in Hd. discriminate.
  - intros (c & rest & -> & Hne).
    rewrite Ascii.eqb_refl. simpl.
    destruct (Ascii.eqb_spec c "."); [contradiction | reflexivity].
Qed.

Lemma split_nonempty (sep : ascii) (s : string) : split sep s <> [].
Proof.
  destruct s as [|c s]; simpl; [discriminate|].
  destruct (Ascii.eqb c sep); [discriminate|].
  destruct (split sep s); discriminate.
Qed.

Lemma join_cons (sep : ascii) (s h : string) (t : list string) :
  join sep (s :: h :: t) = (s ++ String sep (join sep (h :: t)))%string.
Proof. reflexivity. Qed.

Lemma join_split (sep : ascii) (s : string) : join sep (split sep s) = s.
Proof.
  induction s as [|c s IH]; [reflexivity|].
  cbn [split]. pose proof (split_nonempty sep s) as Hs.
  destruct (Ascii.eqb_spec c sep) as [->|Hne];
    destruct (split sep s) as [|h t] eqn:E; try contradiction.
  - rewrite join_cons, IH. reflexivity.
  - destruct t as [|h' t'].
    + simpl in IH. simpl. f_equal. exact IH.
    + rewrite join_cons. rewrite join_cons in IH.
      change (String c h ++ ?x)%string with (String c (h ++ x)).
      f_equal. exact IH.
Qed.

Lemma split_no_sep (sep : ascii) (s : string) :
  Forall (fun x => has_char sep x = false) (split sep s).
Proof.
  induction s as [|c s IH]; simpl.
  - constructor; [reflexivity | constructor].
  - destruct (Ascii.eqb_spec c sep) as [->|Hne].
    + constructor; [reflexivity | exact IH].
    + destruct (split sep s) as [|h t]; [repeat constructor|].
      * simpl. destruct (Ascii.eqb_spec sep c); [congruence | reflexivity].
      * inversion IH; subst. constructor; [|assumption].
        simpl. destruct (Ascii.eqb_spec sep c); [congruence | assumption].
Qed.

Lemma join_last (sep : ascii) (l : list string) :
  l <> [] ->
  join sep l = List.last l EmptyString \/
  exists pre, join sep l = (pre ++ String sep (List.last l EmptyString))%string.
Proof.
  induction l as [|s l IH]; [congruence|]. intros _.
  destruct l as [|s' l'].
  - left. reflexivity.
  - right. destruct IH as [IH|[pre IH]]; [discriminate| |].
    + exists s. rewrite join_cons, IH. reflexivity.
    + exists (s ++ String sep pre)%string. rewrite join_cons, IH.
      change (List.last (s :: s' :: l') EmptyString) with (List.last (s' :: l') EmptyString).
      generalize (List.last (s' :: l') EmptyString). intros z.
      clear. induction s as [|a s IHs]; [reflexivity|].
      change (String a s ++ ?x)%string with (String a (s ++ x)).
      rewrite IHs. reflexivity.
Qed.

(** X15.  [last_segment p], the piece of the path that the dot-file rule
    looks at for an entry without a name, contains no slash, and is [p]
    itself or what follows the last slash of [p]. *)
Lemma last_segment_spec (p : string) :
  has_char "/" (last_segment p) = false /\
  (p = last_segment p \/ exists pre, p = (pre ++ String "/" (last_segment p))%string).
Proof.
  unfold last_segment. split.
  - pose proof (split_no_sep "/" p) as H.
    pose proof (split_nonempty "/" p) as Hne.
    induction (split "/" p) as [|s l IH]; [contradiction|].
    inversion H; subst. destruct l as [|s' l']; [assumption|].
    apply IH; [assumption | discriminate].
  - pose proof (join_last "/" (split "/" p) (split_nonempty _ _)) as H.
    rewrite join_split in H. exact H.
Qed.

(** C4.  [makeFilter] rejects an entry exactly when the dot-file rule is
    enabled and the entry's name (or, when the entry carries no name, the
    last segment of the given path) starts with a dot followed by a non-dot
    character, whatever the kind of the entry; or when the entry is a
    regular file whose path fails the include pattern or matches the exclude
    pattern.  An entry that is not a regular file, a directory in
    particular, is therefore never rejected by the patterns. *)
Theorem makeFilter_rejects (o : DetectorOptions) (f : FileInfo) (p : string) :
  makeFilter o f p = false <->
    (ignoreDotFiles o = true /\
     dot_name (if String.eqb (name f) "" then last_segment p else name f))
    \/ (kind f = File /\ (test o p = false \/ ignore o p = true)).
Proof.
  unfold makeFilter, entry_name, str_or, isFile.
  rewrite <- dot_regex_spec.
  destruct (ignoreDotFiles o); simpl.
  - destruct (dot_regex _); [tauto|].
    destruct (kind f); destruct (test o p); destruct (ignore o p); simpl;
      split; intros H; try discriminate; try tauto;
      destruct H as [[_ H]|[H1 H2]]; try discriminate; destruct H2; discriminate.
  - destruct (kind f); destruct (test o p); destruct (ignore o p); simpl;
      split; intros H; try discriminate; try tauto;
      destruct H as [[H _]|[H1 H2]]; try discriminate; destruct H2; discriminate.
Qed.

(** Directories bypass the patterns: two option sets that differ only in
    their patterns treat every directory alike. *)
Lemma makeFilter_directory (o : DetectorOptions) (t' i' : string -> bool)
    (f : FileInfo) (p : string) :
  kind f = Directory ->
  makeFilter o f p =
  makeFilter (mkOptions (followSymlink o) (ignoreDotFiles o) t' i') f p.
Proof.
  intros Hk. unfold makeFilter, isFile. rewrite Hk. reflexivity.
Qed.

(** ** Symlink resolution *)

Lemma statTraverseSync_eq (fs : FS) (n : nat) (p : string) :
  statTraverseSync fs n p = statTraverse fs n p.
Proof.
  revert p. induction n as [|n IH]; intros p; [reflexivity|].
  simpl. destruct (lstat fs p) as [e|info]; [reflexivity|].
  destruct (isSymlink info); [|reflexivity].
  destruct (readlink fs p); [reflexivity | apply IH].
Qed.

Lemma statTraverse_ends (fs : FS) (n : nat) (p : string) (r : error + FileInfo) :
  statTraverse fs n p = Some r -> exists k, k < n /\ ends fs k p r.
Proof.
  revert p. induction n as [|n IH]; intros p; [discriminate|].
  simpl. destruct (lstat fs p) as [e|info] eqn:El.
  - intros [= <-]. exists 0. split; [lia | by constructor].
  - destruct (isSymlink info) eqn:Es.
    + destruct (readlink fs p) as [e|q] eqn:Er.
      * intros [= <-]. exists 0. split; [lia | by eapply ends_readlink_error].
      * intros H. apply IH in H as (k & Hk & He).
        exists (S k). split; [lia | by eapply ends_hop].
    + intros [= <-]. exists 0. split; [lia | by constructor].
Qed.

Lemma ends_statTraverse (fs : FS) (k : nat) (p : string) (r : error + FileInfo) :
  ends fs k p r -> forall n, k < n -> statTraverse fs n p = Some r.
Proof.
  induction 1 as [p e El|p info El Es|p info e El Es Er|p info q k r El Es Er _ IH];
    intros n Hn; (destruct n as [|n]; [lia|]); simpl; rewrite El; try rewrite Es;
    try rewrite Er; try reflexivity.
  apply IH. lia.
Qed.

(** C6 (as amended).  Resolution returns exactly when the chain of links
    that starts at the path stops after finitely many hops: in an entry that
    is not a symlink, which is the result with its path defaulted to the
    terminal path, or in a failing [lstat] or [readlink], whose error is the
    result.  Nothing bounds the hops and no cycle is recognised; the blocking
    routine behaves like the awaitable one. *)
Theorem statTraverse_returns (fs : FS) (n : nat) (p : string) (r : error + FileInfo) :
  (statTraverse fs n p = Some r <-> exists k, k < n /\ ends fs k p r) /\
  statTraverseSync fs n p = statTraverse fs n p.
Proof.
  split; [split|].
  - apply statTraverse_ends.
  - intros (k & Hk & He). by eapply ends_statTraverse.
  - apply statTraverseSync_eq.
Qed.

(** C6 (counterexample).  On a symlink that points at itself neither
    routine returns at any depth: no result and no error is produced. *)
Lemma statTraverse_ring_never_returns :
  ~ exists n r, statTraverse (fs_of ring_disk) n "ring" = Some r \/
                statTraverseSync (fs_of ring_disk) n "ring" = Some r.
Proof.
  intros (n & r & H).
  assert (Hn : statTraverse (fs_of ring_disk) n "ring" = None).
  { clear. induction n as [|n IH]; [reflexivity | exact IH]. }
  destruct H as [H|H]; [|rewrite (statTraverseSync_eq (fs_of ring_disk) n "ring") in H];
    rewrite Hn in H; discriminate.
Qed.

(** ** Symlink entries when links are not followed *)

Lemma collect_nil (fs : FS) (fuel : nat) (all : gmap string N) (fo : bool)
    (filter : FileInfo -> string -> bool) :
  collect fs (S fuel) all [] fo filter = (all, Normal).
Proof. reflexivity. Qed.

(** The loop of [collect], one iteration unfolded. *)
Lemma collect_cons (fs : FS) (fuel : nat) (all : gmap string N) (f : target)
    (rest : list target) (fo : bool) (filter : FileInfo -> string -> bool) :
  collect fs (S fuel) all (f :: rest) fo filter =
  match collect_locate fs fuel fo f with
  | None => (all, OutOfFuel)
  | Some (inl e) =>
      if is_NotFound e then collect fs (S fuel) all rest fo filter
      else (all, Throw e)
  | Some (inr l) =>
      if String.eqb (l_path l) "" then (all, Throw (JsError "path not found"))
      else if negb (filter (l_info l) (str_or (l_linkPath l) (l_path l)))
      then collect fs (S fuel) all rest fo filter
      else if isDirectory (l_info l) then
        match readDir fs (l_path l) with
        | inl e => (all, Throw e)
        | inr files =>
            match collect fs fuel all (List.map TInfo files) fo filter with
            | (all', Normal) => collect fs (S fuel) all' rest fo filter
            | r => r
            end
        end
      else if isFile (l_info l) then
        collect fs (S fuel)
          (assign all (l_path l) (num_or (modified (l_info l)) (created (l_info l))))
          rest fo filter
      else collect fs (S fuel) all rest fo filter
  end.
Proof. reflexivity. Qed.

(** C10.  With symlink-following off, a listing entry that is a symlink
    (and carries its path, as listing entries do) contributes nothing to
    either pass.  In [walk] the iteration for it ends without touching the
    previous snapshot, the new snapshot or the change lists, starts no
    nested walk and throws nothing; in [collect] the call with the entry is
    the call without it. *)
Theorem symlink_entry_ignored (fs : FS) (depth fuel : nat)
    (filter : FileInfo -> string -> bool) (f : FileInfo) (rest : list target)
    (ps : list task) (h : store) (all : gmap string N) :
  isSymlink f = true -> path f <> "" ->
  walk_body fs depth false filter (TInfo f) h = Next h /\
  task_step fs depth false filter (Task (Loop (TInfo f :: rest)) ps) h =
    (Task (Loop rest) ps, h) /\
  collect fs (S fuel) all (TInfo f :: rest) false filter =
    collect fs (S fuel) all rest false filter.
Proof.
  intros Hs Hp.
  assert (Hk : isDirectory f = false /\ isFile f = false).
  { unfold isSymlink, isDirectory, isFile in *. destruct (kind f); done. }
  destruct Hk as [Hd Hf].
  assert (Hb : walk_body fs depth false filter (TInfo f) h = Next h).
  { unfold walk_body, walk_locate. rewrite andb_false_r. cbn [l_path l_info l_linkPath].
    destruct (String.eqb_spec (path f) ""); [contradiction|].
    rewrite Hd, Hf. by destruct (negb _). }
  split; [exact Hb|]. split.
  - cbn [task_step]. by rewrite Hb.
  - rewrite collect_cons. unfold collect_locate. rewrite andb_false_r.
    cbn [l_path l_info l_linkPath].
    destruct (String.eqb_spec (path f) ""); [contradiction|].
    rewrite Hd, Hf. by destruct (negb _).
Qed.

(** ** The diff that [walk] performs in place *)

Lemma truthy_Some (o : gmap string N) (p : string) :
  truthy o p = true <->
  (exists v, o !! p = Some v /\ (0 < v)%N) \/
  (o !! p = None /\ prototype_member p = true).
Proof.
  unfold truthy. destruct (o !! p) as [v|].
  - destruct (N.eqb_spec v 0); simpl; split.
    + discriminate.
    + intros [(w & [= <-] & Hw)|[[=] _]]. lia.
    + intros _. left. exists v. split; [reflexivity | lia].
    + reflexivity.
  - split; [by right | intros [(v & Hv & _)|[_ H]]; [discriminate | done]].
Qed.

Lemma truthy_false (o : gmap string N) (p : string) :
  truthy o p = false <->
  (o !! p = None /\ prototype_member p = false) \/ o !! p = Some 0%N.
Proof.
  unfold truthy. destruct (o !! p) as [v|].
  - destruct (N.eqb_spec v 0); simpl; split; intros H; try discriminate; subst; auto.
    destruct H as [[H _]|[= H]]; [discriminate | contradiction].
  - split; [by left | by intros [[_ H]|H]].
Qed.

(** An own property decides. *)
Lemma truthy_own (o : gmap string N) (p : string) (v : N) :
  o !! p = Some v -> truthy o p = negb (N.eqb v 0).
Proof. unfold truthy. by intros ->. Qed.

(** A name that is not inherited is truthy only as an own property. *)
Lemma truthy_plain (o : gmap string N) (p : string) :
  prototype_member p = false ->
  truthy o p = false <-> o !! p = None \/ o !! p = Some 0%N.
Proof.
  intros Hp. rewrite truthy_false. split.
  - intros [[H _]|H]; [by left | by right].
  - intros [H|H]; [by left | by right].
Qed.

Lemma proto_is_member : prototype_member "__proto__" = true.
Proof. reflexivity. Qed.

(** Where the condition [o[p]] is false, the assignment writes. *)
Lemma assign_falsy (o : gmap string N) (p : string) (v : N) :
  truthy o p = false -> assign o p v = <[p := v]> o.
Proof.
  unfold truthy, assign. destruct (o !! p); [done|]. intros Hp.
  destruct (String.eqb_spec p "__proto__") as [->|]; [discriminate | done].
Qed.

Lemma assign_lookup_ne (o : gmap string N) (p q : string) (v : N) :
  p <> q -> assign o p v !! q = o !! q.
Proof.
  intros Hne. unfold assign.
  destruct (o !! p); [by rewrite lookup_insert_ne|].
  destruct (String.eqb p "__proto__"); [done | by rewrite lookup_insert_ne].
Qed.

Lemma assign_lookup_eq (o : gmap string N) (p : string) (v : N) :
  assign o p v !! p = if String.eqb p "__proto__" && negb (bool_decide (is_Some (o !! p)))
                      then None else Some v.
Proof.
  unfold assign. destruct (o !! p) as [w|] eqn:E.
  - rewrite lookup_insert_eq.
    rewrite bool_decide_eq_true_2 by (by eexists). by rewrite andb_false_r.
  - rewrite bool_decide_eq_false_2 by (by intros [? ?]). rewrite andb_true_r.
    destruct (String.eqb p "__proto__"); [done | by rewrite lookup_insert_eq].
Qed.

(** An assignment never removes a key. *)
Lemma assign_keeps (o : gmap string N) (p q : string) (v : N) :
  is_Some (o !! q) -> is_Some (assign o p v !! q).
Proof.
  intros Hq. destruct (decide (p = q)) as [<-|Hne].
  - destruct Hq as [w Hw]. unfold assign. rewrite Hw, lookup_insert_eq. by eexists.
  - by rewrite assign_lookup_ne.
Qed.

(** A key that an assignment brings is the assigned one, with its value. *)
Lemma assign_new (o : gmap string N) (p q : string) (v c : N) :
  assign o p v !! q = Some c -> o !! q = Some c \/ (q = p /\ c = v /\
    (p <> "__proto__" \/ is_Some (o !! p))).
Proof.
  destruct (decide (p = q)) as [<-|Hne]; [|rewrite assign_lookup_ne by done; by left].
  unfold assign. destruct (o !! p) as [w|] eqn:E.
  - rewrite lookup_insert_eq. intros [= <-]. right. repeat split. right. by eexists.
  - destruct (String.eqb_spec p "__proto__") as [->|Hp]; [by rewrite E|].
    rewrite lookup_insert_eq. intros [= <-]. right. repeat split. by left.
Qed.

Lemma elem_of_keys (o : gmap string N) (p : string) :
  p ∈ keys o <-> is_Some (o !! p).
Proof.
  unfold keys. rewrite list_elem_of_fmap. split.
  - intros ([q v] & -> & H). apply elem_of_map_to_list in H. by exists v.
  - intros [v H]. exists (p, v). split; [reflexivity|]. by apply elem_of_map_to_list.
Qed.

Lemma walk_inv_start (P : gmap string N) (now : Z) :
  walk_inv P {| prev := P; curr := ∅; changes := Changes.fresh now |}.
Proof.
  split; simpl.
  - intros p. by rewrite lookup_empty.
  - intros p H. by apply elem_of_nil in H.
  - intros p H. by apply elem_of_nil in H.
  - intros p H. by apply elem_of_nil in H.
  - reflexivity.
  - intros p [v H]. by rewrite lookup_empty in H.
  - intros p [v H]. by rewrite lookup_empty in H.
Qed.

(** Recording a file keeps the invariant. *)
Lemma record_file_inv (P : gmap string N) (p0 : string) (info : FileInfo) (h : store) :
  walk_inv P h -> walk_inv P (record_file p0 info h).
Proof.
  intros [Hprev Hadd Hmod Hdis Hdel Hnew Hown]. unfold record_file.
  destruct (truthy (curr h) p0) eqn:Hc; [by split|].
  rewrite (assign_falsy _ _ _ Hc).
  set (c := num_or (modified info) (created info)).
  assert (Hown' : forall p, is_Some (<[p0 := c]> (curr h) !! p) -> prototype_member p = false).
  { intros p Hs. destruct (decide (p0 = p)) as [<-|Hne].
    - apply truthy_false in Hc as [[_ Hc]|Hc]; [done|]. apply Hown. by eexists.
    - rewrite lookup_insert_ne in Hs by done. by apply Hown. }
  assert (Hnomod : p0 ∉ Changes.modified (changes h)).
  { intros H. apply Hmod in H as (v & c' & _ & Hc' & Hlt).
    apply truthy_false in Hc as [[Hc _]|Hc]; rewrite Hc' in Hc; [discriminate|].
    injection Hc as ->. lia. }
  (* the store when the lists stay as they are *)
  assert (Hsame : (is_Some (curr h !! p0) \/ truthy P p0 = true) ->
            walk_inv P {| prev := delete p0 (prev h); curr := <[p0 := c]> (curr h);
                          changes := changes h |}).
  { intros Hold. split; simpl.
    - intros p. destruct (decide (p0 = p)) as [<-|Hne].
      + by rewrite lookup_delete_eq, lookup_insert_eq.
      + rewrite lookup_delete_ne, lookup_insert_ne by done. apply Hprev.
    - intros p H. destruct (decide (p0 = p)) as [<-|Hne].
      + rewrite lookup_insert_eq. by eexists.
      + rewrite lookup_insert_ne by done. by apply Hadd.
    - intros p H. destruct (decide (p0 = p)) as [<-|Hne]; [contradiction|].
      rewrite lookup_insert_ne by done. by apply Hmod.
    - exact Hdis.
    - exact Hdel.
    - intros p Hs Ht. destruct (decide (p0 = p)) as [<-|Hne].
      + destruct Hold as [Hold|Hold]; [by apply Hnew | congruence].
      + rewrite lookup_insert_ne in Hs by done. by apply Hnew.
    - exact Hown'. }
  destruct (truthy (prev h) p0) eqn:Hp; cbn [negb].
  - (* tracked before, or a name that every object inherits *)
    apply truthy_Some in Hp as [(v & Hv & Hpos)|[Hv Hmem]].
    2:{ rewrite Hv. apply Hsame. left.
        apply truthy_false in Hc as [[_ Hc]|Hc]; [congruence | by eexists]. }
    pose proof (Hprev p0) as Hp0. rewrite Hv in Hp0.
    destruct (curr h !! p0) as [?|] eqn:Hc0; [discriminate|]. symmetry in Hp0.
    assert (Hnoadd : p0 ∉ Changes.added (changes h)).
    { intros H. apply Hadd in H as [? H]. congruence. }
    assert (HP : truthy P p0 = true).
    { rewrite (truthy_own _ _ _ Hp0). by destruct (N.eqb_spec v 0); [lia|]. }
    rewrite Hv. destruct (N.ltb_spec v c) as [Hlt|Hge]; [|apply Hsame; by right].
    split; simpl.
    + intros p. destruct (decide (p0 = p)) as [<-|Hne].
      * by rewrite lookup_delete_eq, lookup_insert_eq.
      * rewrite lookup_delete_ne, lookup_insert_ne by done. apply Hprev.
    + intros p H. destruct (decide (p0 = p)) as [<-|Hne].
      * rewrite lookup_insert_eq. by eexists.
      * rewrite lookup_insert_ne by done. by apply Hadd.
    + intros p H. apply elem_of_app in H as [H|H].
      * destruct (decide (p0 = p)) as [<-|Hne]; [contradiction|].
        rewrite lookup_insert_ne by done. by apply Hmod.
      * apply list_elem_of_singleton in H as ->.
        exists v, c. rewrite lookup_insert_eq. repeat split; [done | lia | done].
    + intros p Ha Hm. apply elem_of_app in Hm as [Hm|Hm].
      * by apply (Hdis p).
      * apply list_elem_of_singleton in Hm as ->. contradiction.
    + exact Hdel.
    + intros p Hs Ht. destruct (decide (p0 = p)) as [<-|Hne]; [congruence|].
      rewrite lookup_insert_ne in Hs by done. by apply Hnew.
    + exact Hown'.
  - (* not tracked, or tracked with a falsy time *)
    split; simpl.
    + intros p. destruct (decide (p0 = p)) as [<-|Hne].
      * by rewrite lookup_delete_eq, lookup_insert_eq.
      * rewrite lookup_delete_ne, lookup_insert_ne by done. apply Hprev.
    + intros p H. destruct (decide (p0 = p)) as [<-|Hne].
      * rewrite lookup_insert_eq. by eexists.
      * rewrite lookup_insert_ne by done. apply Hadd.
        apply elem_of_app in H as [H|H]; [done|].
        apply list_elem_of_singleton in H. congruence.
    + intros p H. destruct (decide (p0 = p)) as [<-|Hne]; [contradiction|].
      rewrite lookup_insert_ne by done. by apply Hmod.
    + intros p Ha Hm. apply elem_of_app in Ha as [Ha|Ha].
      * by apply (Hdis p).
      * apply list_elem_of_singleton in Ha as ->. contradiction.
    + exact Hdel.
    + intros p Hs Ht. apply elem_of_app. destruct (decide (p0 = p)) as [<-|Hne].
      * right. by apply list_elem_of_singleton.
      * left. rewrite lookup_insert_ne in Hs by done. by apply Hnew.
    + exact Hown'.
Qed.

Lemma walk_body_inv (P : gmap string N) (fs : FS) (depth : nat) (fo : bool)
    (filter : FileInfo -> string -> bool) (f : target) (h h' : store) :
  walk_body fs depth fo filter f h = Next h' -> walk_inv P h -> walk_inv P h'.
Proof.
  unfold walk_body. intros H Hinv.
  destruct (walk_locate fs depth fo f) as [[e|l]|]; [| |discriminate].
  - destruct (is_NotFound e); [|discriminate]. by injection H as <-.
  - destruct (String.eqb (l_path l) ""); [discriminate|].
    destruct (negb _); [by injection H as <-|].
    destruct (isDirectory (l_info l)).
    + destruct (readDir fs (l_path l)); discriminate.
    + destruct (isFile (l_info l)); injection H as <-; [|done].
      by apply record_file_inv.
Qed.

Lemma task_step_inv (P : gmap string N) (fs : FS) (depth : nat) (fo : bool)
    (filter : FileInfo -> string -> bool) (t : task) (h : store) :
  walk_inv P h -> walk_inv P (task_step fs depth fo filter t h).2.
Proof.
  intros Hinv. destruct t as [[[|f rest]| | |] ps]; simpl; try done.
  destruct (walk_body fs depth fo filter f h) as [h'| | |] eqn:E; simpl; try done.
  by eapply walk_body_inv.
Qed.

Lemma step_at_inv (P : gmap string N) (fs : FS) (depth : nat) (fo : bool)
    (filter : FileInfo -> string -> bool) (pos : list nat) (t : task) (h : store) :
  walk_inv P h -> walk_inv P (step_at fs depth fo filter pos t h).2.
Proof.
  revert t. induction pos as [|i pos IH]; intros t Hinv.
  - by apply task_step_inv.
  - destruct t as [st ps]. cbn [step_at].
    destruct (ps !! i) as [c|]; [|done].
    specialize (IH c Hinv).
    by destruct (step_at fs depth fo filter pos c h).
Qed.

(** Whatever the interleaving, the invariant holds after every step. *)
Lemma run_walk_inv (P : gmap string N) (depth : nat) (fo : bool)
    (filter : FileInfo -> string -> bool) (sch : schedule) (t : task) (h : store) :
  walk_inv P h -> walk_inv P (run_walk depth fo filter sch t h).2.
Proof.
  revert t h. induction sch as [|[fs pos] sch IH]; intros t h Hinv; [done|].
  cbn [run_walk].
  pose proof (step_at_inv P fs depth fo filter pos t h Hinv) as Hs.
  destruct (step_at fs depth fo filter pos t h) as [t' h'].
  by apply IH.
Qed.

(** ** The promises of a cycle *)

Lemma task_rect' (Q : task -> Prop) :
  (forall st ps, Forall Q ps -> Q (Task st ps)) -> forall t, Q t.
Proof.
  intros H. fix IH 1. intros [st ps]. apply H.
  induction ps as [|c ps IHps]; constructor; [apply IH | exact IHps].
Qed.

Lemma promise_all_fulfilled (l : list pstate) :
  promise_all l = Fulfilled <-> forallb is_fulfilled l = true.
Proof.
  unfold promise_all. split.
  - destruct (existsb is_rejected l); [discriminate|].
    by destruct (forallb is_fulfilled l).
  - intros H. rewrite H.
    assert (He : existsb is_rejected l = false).
    { induction l as [|x l IH]; [done|]. simpl in *.
      apply andb_prop in H as [Hx Hl]. rewrite (IH Hl). by destruct x. }
    by rewrite He.
Qed.

(** The promise of an activation is fulfilled exactly when it and all the
    activations below it have left their loops without throwing. *)
Lemma promise_fulfilled (t : task) :
  promise t = Fulfilled <-> all_joining t = true.
Proof.
  induction t as [st ps IH] using task_rect'.
  cbn [promise all_joining]. destruct st; simpl; try (split; discriminate).
  rewrite promise_all_fulfilled.
  induction ps as [|c ps IHps]; [done|].
  inversion IH as [|? ? Hc Hps]; subst. simpl.
  rewrite !andb_true_iff, (IHps Hps).
  destruct Hc as [Hc1 Hc2]. split; intros [H1 H2]; split; try done.
  - apply Hc1. by destruct (promise c).
  - by rewrite (Hc2 H1).
Qed.

Lemma all_joining_not_thrown (t : task) :
  all_joining t = true -> has_thrown t = false.
Proof.
  induction t as [st ps IH] using task_rect'.
  cbn [all_joining has_thrown]. intros H. apply andb_prop in H as [Hst Hps].
  destruct st; try discriminate. simpl.
  induction ps as [|c ps IHps]; [done|].
  inversion IH as [|? ? Hc Hps']; subst. simpl in *.
  apply andb_prop in Hps as [H1 H2].
  by rewrite (Hc H1), (IHps Hps' H2).
Qed.

(** Once nothing is left to run, every promise is settled: fulfilled, or
    rejected when some activation below it threw. *)
Lemma promise_at_rest (t : task) :
  at_rest t = true ->
  promise t = (if has_thrown t then Rejected else Fulfilled).
Proof.
  induction t as [st ps IH] using task_rect'.
  cbn [at_rest has_thrown promise]. intros H. apply andb_prop in H as [Hst Hps].
  destruct st; try discriminate; [|reflexivity]. simpl.
  unfold promise_all.
  induction ps as [|c ps IHps]; [done|].
  inversion IH as [|? ? Hc Hps']; subst. simpl in *.
  apply andb_prop in Hps as [H1 H2].
  rewrite (Hc H1). specialize (IHps Hps' H2).
  destruct (has_thrown c); simpl; [done|].
  destruct (existsb is_rejected (List.map promise ps)).
  - by destruct (existsb has_thrown ps).
  - destruct (forallb is_fulfilled (List.map promise ps));
      by destruct (existsb has_thrown ps).
Qed.

Lemma existsb_insert_thrown (ps : list task) (i : nat) (c c' : task) :
  ps !! i = Some c -> (has_thrown c = true -> has_thrown c' = true) ->
  existsb has_thrown ps = true -> existsb has_thrown (<[i := c']> ps) = true.
Proof.
  revert i. induction ps as [|x ps IH]; intros i Hi Hc; [done|].
  destruct i as [|i]; simpl in *.
  - injection Hi as ->. rewrite !orb_true_iff. intros [H|H]; auto.
  - rewrite !orb_true_iff. intros [H|H]; eauto.
Qed.

Lemma task_step_thrown (fs : FS) (depth : nat) (fo : bool)
    (filter : FileInfo -> string -> bool) (t : task) (h : store) :
  has_thrown t = true -> has_thrown (task_step fs depth fo filter t h).1 = true.
Proof.
  destruct t as [[[|f rest]| | |] ps]; simpl; try done.
  destruct (walk_body fs depth fo filter f h); simpl; try done.
  rewrite existsb_app, !orb_true_iff. auto.
Qed.

(** An activation that threw stays in the tree as such. *)
Lemma step_at_thrown (fs : FS) (depth : nat) (fo : bool)
    (filter : FileInfo -> string -> bool) (pos : list nat) (t : task) (h : store) :
  has_thrown t = true -> has_thrown (step_at fs depth fo filter pos t h).1 = true.
Proof.
  revert t. induction pos as [|i pos IH]; intros t.
  - apply task_step_thrown.
  - destruct t as [st ps]. cbn [step_at].
    destruct (ps !! i) as [c|] eqn:Hi; [|done].
    specialize (IH c).
    destruct (step_at fs depth fo filter pos c h) as [c' h']. simpl in *.
    rewrite !orb_true_iff. intros [H|H]; [by left|right].
    by eapply existsb_insert_thrown.
Qed.

Lemma run_walk_thrown (depth : nat) (fo : bool)
    (filter : FileInfo -> string -> bool) (sch : schedule) (t : task) (h : store) :
  has_thrown t = true -> has_thrown (run_walk depth fo filter sch t h).1 = true.
Proof.
  revert t h. induction sch as [|[fs pos] sch IH]; intros t h Ht; [done|].
  cbn [run_walk].
  pose proof (step_at_thrown fs depth fo filter pos t h Ht) as Hs.
  destruct (step_at fs depth fo filter pos t h) as [t' h'].
  by apply IH.
Qed.

Lemma run_walk_app (depth : nat) (fo : bool)
    (filter : FileInfo -> string -> bool) (s1 s2 : schedule) (t : task) (h : store) :
  run_walk depth fo filter (s1 ++ s2) t h =
  run_walk depth fo filter s2 (run_walk depth fo filter s1 t h).1
                              (run_walk depth fo filter s1 t h).2.
Proof.
  revert t h. induction s1 as [|[fs pos] s1 IH]; intros t h; [done|].
  simpl. destruct (step_at fs depth fo filter pos t h) as [t' h']. apply IH.
Qed.

(** ** The change report *)

(** C2.  In the report of a cycle no path is in two of the three lists. *)
Theorem report_lists_disjoint (depth : nat) (sch : schedule) (t0 t1 : Z)
    (d d' : Detector) (c : Changes.t) :
  detectChanges depth sch t0 t1 d = Resolved c d' ->
  forall p,
    ~ (p ∈ Changes.added c /\ p ∈ Changes.modified c) /\
    ~ (p ∈ Changes.added c /\ p ∈ Changes.deleted c) /\
    ~ (p ∈ Changes.modified c /\ p ∈ Changes.deleted c).
Proof.
  unfold detectChanges, walk_start. intros H p.
  pose proof (run_walk_inv (files d) depth (followSymlink (options d))
                (makeFilter (options d)) sch
                (Task (Loop (List.map TPath (targets d))) [])
                _ (walk_inv_start (files d) t0)) as Hinv.
  destruct (run_walk _ _ _ _ _ _) as [t h]. simpl in Hinv.
  destruct (promise t); try discriminate. injection H as <- <-.
  destruct Hinv as [Hprev Hadd Hmod Hdis Hdel _ Hown]. simpl. rewrite Hdel. simpl.
  repeat split.
  - intros [Ha Hm]. by apply (Hdis p).
  - intros [Ha Hk]. apply elem_of_keys in Hk as [v Hv].
    apply Hadd in Ha as [w Hw]. specialize (Hprev p).
    rewrite Hw, Hv in Hprev. discriminate.
  - intros [Hm Hk]. apply elem_of_keys in Hk as [v Hv].
    apply Hmod in Hm as (? & w & _ & Hw & _). specialize (Hprev p).
    rewrite Hw, Hv in Hprev. discriminate.
Qed.

(** ** The snapshot during and after a cycle *)

(** C5 (as amended).  [walk] deletes every path it records from the
    detector's own snapshot object: at any moment of a cycle the snapshot
    holds the previous snapshot without the paths recorded so far.  That is
    what the detector is left with when [detectChanges] fails, so the
    snapshot is then unchanged exactly when no path of the previous snapshot
    was recorded; a cycle that completes replaces the snapshot by the new
    one. *)
Theorem snapshot_consumed_in_place (depth : nat) (sch : schedule) (t0 t1 : Z)
    (d : Detector) :
  let r := run_walk depth (followSymlink (options d)) (makeFilter (options d))
             sch (walk_start d t0).1 (walk_start d t0).2 in
  (forall p, prev r.2 !! p =
             match curr r.2 !! p with Some _ => None | None => files d !! p end) /\
  (forall d', detectChanges depth sch t0 t1 d = Failed d' -> files d' = prev r.2) /\
  (forall d', detectChanges depth sch t0 t1 d = Failed d' ->
     (files d' = files d <->
      forall p, is_Some (files d !! p) -> curr r.2 !! p = None)) /\
  (forall c d', detectChanges depth sch t0 t1 d = Resolved c d' -> files d' = curr r.2).
Proof.
  intros r. subst r. unfold detectChanges, walk_start. cbn [fst snd].
  pose proof (run_walk_inv (files d) depth (followSymlink (options d))
                (makeFilter (options d)) sch
                (Task (Loop (List.map TPath (targets d))) [])
                _ (walk_inv_start (files d) t0)) as Hinv.
  destruct (run_walk _ _ _ _ _ _) as [t h]. simpl in *.
  pose proof (inv_prev _ _ Hinv) as Hprev.
  split; [exact Hprev|].
  split; [|split]; intros; destruct (promise t); try discriminate; simplify_eq;
    try done.
  simpl. split.
  - intros Heq p [v Hv]. specialize (Hprev p). rewrite Heq, Hv in Hprev.
    by destruct (curr h !! p).
  - intros Hno. apply map_eq. intros p. rewrite Hprev.
    destruct (curr h !! p) as [c|] eqn:Hc; [|done].
    destruct (files d !! p) as [v|] eqn:Hv; [|done].
    rewrite Hno in Hc by (by eexists). discriminate.
Qed.

(** A cycle that fails after recording only a path the previous snapshot
    does not hold leaves the snapshot as it was. *)
Example failed_cycle_keeps_snapshot :
  detectChanges 0 fresh_then_denied_schedule 0 1 fresh_then_denied_detector
    = Failed fresh_then_denied_detector.
Proof. by vm_compute. Qed.

(** C5 (counterexample).  The tracked file is recorded, then the [lstat]
    of the second target is refused: the call fails and the detector's
    snapshot has lost the tracked file. *)
Lemma failed_cycle_changes_snapshot :
  detectChanges 0 denied_schedule 0 1 denied_detector
    = Failed (set_files denied_detector ∅) /\
  files (set_files denied_detector ∅) <> files denied_detector.
Proof.
  split; [by vm_compute|].
  intros H. apply (f_equal (fun m : gmap string N => m !! "a")) in H.
  vm_compute in H. discriminate.
Qed.

(** ** Errors of the stat calls *)

Lemma existsb_insert_new_thrown (ps : list task) (i : nat) (c' : task) :
  i < List.length ps -> has_thrown c' = true ->
  existsb has_thrown (<[i := c']> ps) = true.
Proof.
  revert i. induction ps as [|x ps IH]; intros i Hi Hc; simpl in Hi; [lia|].
  destruct i as [|i]; simpl.
  - by rewrite Hc.
  - rewrite IH; [by rewrite orb_true_r | lia | done].
Qed.

(** A stat error other than not-found, at whatever position of the tree,
    leaves a thrown activation in the tree. *)
Lemma step_at_throws (fs : FS) (depth : nat) (fo : bool)
    (filter : FileInfo -> string -> bool) (pos : list nat) (t : task) (h : store)
    (f : target) (rest : list target) (ps : list task) (e : error) :
  subtask pos t = Some (Task (Loop (f :: rest)) ps) ->
  walk_locate fs depth fo f = Some (inl e) -> e <> NotFound ->
  has_thrown (step_at fs depth fo filter pos t h).1 = true.
Proof.
  intros Hsub Hl Hne. revert t Hsub. induction pos as [|i pos IH]; intros t Hsub.
  - injection Hsub as ->. cbn [step_at task_step]. unfold walk_body. rewrite Hl.
    by destruct e.
  - destruct t as [st qs]. cbn [subtask step_at] in *.
    destruct (qs !! i) as [c|] eqn:Hi; [|discriminate].
    specialize (IH c Hsub).
    destruct (step_at fs depth fo filter pos c h) as [c' h']. simpl in *.
    rewrite existsb_insert_new_thrown; [by rewrite orb_true_r| |done].
    by eapply lookup_lt_Some.
Qed.

Lemma detectChanges_thrown (depth : nat) (s1 s2 : schedule) (t0 t1 : Z) (d : Detector) :
  let run s := run_walk depth (followSymlink (options d)) (makeFilter (options d))
                 s (walk_start d t0).1 (walk_start d t0).2 in
  has_thrown (run s1).1 = true ->
  (forall c d', detectChanges depth (s1 ++ s2) t0 t1 d <> Resolved c d') /\
  (at_rest (run (s1 ++ s2)).1 = true ->
   detectChanges depth (s1 ++ s2) t0 t1 d = Failed (set_files d (prev (run (s1 ++ s2)).2))).
Proof.
  intros run Ht. subst run. cbv beta in *.
  pose proof (run_walk_thrown depth (followSymlink (options d)) (makeFilter (options d))
                s2 _ (run_walk depth (followSymlink (options d))
                        (makeFilter (options d)) s1
                        (walk_start d t0).1 (walk_start d t0).2).2 Ht) as Ht2.
  rewrite <- run_walk_app in Ht2.
  unfold detectChanges. unfold walk_start in *. cbn [fst snd] in *.
  destruct (run_walk _ _ _ (s1 ++ s2) _ _) as [t h]. simpl in *.
  split.
  - intros c d' H. destruct (promise t) eqn:Hp; try discriminate.
    apply promise_fulfilled, all_joining_not_thrown in Hp. congruence.
  - intros Hr. rewrite (promise_at_rest t Hr), Ht2. reflexivity.
Qed.

(** C7.  A target or entry whose stat fails with not-found is skipped: the
    activation goes on with the next target, nothing is recorded and
    nothing is thrown.  Any other error of the stat is thrown by the
    activation.  In the blocking pass a throw ends the enclosing calls and
    [init]; in the asynchronous pass a cycle in which an activation threw
    never yields a report, and fails once nothing is left to run. *)
Theorem stat_errors (fs : FS) (depth fuel : nat) (fo : bool)
    (filter : FileInfo -> string -> bool) (f : target) (rest : list target) :
  (* walk *)
  (walk_locate fs depth fo f = Some (inl NotFound) ->
   forall ps h, task_step fs depth fo filter (Task (Loop (f :: rest)) ps) h
                = (Task (Loop rest) ps, h)) /\
  (forall e, walk_locate fs depth fo f = Some (inl e) -> e <> NotFound ->
   forall ps h, task_step fs depth fo filter (Task (Loop (f :: rest)) ps) h
                = (Task (Threw e) ps, h)) /\
  (forall e, walk_locate fs depth fo f = Some (inl e) -> e <> NotFound ->
   forall pos t ps h, subtask pos t = Some (Task (Loop (f :: rest)) ps) ->
     has_thrown (step_at fs depth fo filter pos t h).1 = true) /\
  (forall d s1 s2 t0 t1,
     has_thrown (run_walk depth (followSymlink (options d)) (makeFilter (options d))
                   s1 (walk_start d t0).1 (walk_start d t0).2).1 = true ->
     (forall c d', detectChanges depth (s1 ++ s2) t0 t1 d <> Resolved c d') /\
     (at_rest (run_walk depth (followSymlink (options d)) (makeFilter (options d))
                 (s1 ++ s2) (walk_start d t0).1 (walk_start d t0).2).1 = true ->
      exists d', detectChanges depth (s1 ++ s2) t0 t1 d = Failed d')) /\
  (* collect *)
  (collect_locate fs fuel fo f = Some (inl NotFound) ->
   forall all, collect fs (S fuel) all (f :: rest) fo filter
               = collect fs (S fuel) all rest fo filter) /\
  (forall e, collect_locate fs fuel fo f = Some (inl e) -> e <> NotFound ->
   forall all, collect fs (S fuel) all (f :: rest) fo filter = (all, Throw e)) /\
  (forall l files all all' e,
     collect_locate fs fuel fo f = Some (inr l) -> l_path l <> "" ->
     filter (l_info l) (str_or (l_linkPath l) (l_path l)) = true ->
     isDirectory (l_info l) = true -> readDir fs (l_path l) = inr files ->
     collect fs fuel all (List.map TInfo files) fo filter = (all', Throw e) ->
     collect fs (S fuel) all (f :: rest) fo filter = (all', Throw e)) /\
  (forall d all' e,
     collect fs fuel (files d) (List.map TPath (targets d))
       (followSymlink (options d)) (makeFilter (options d)) = (all', Throw e) ->
     init fs fuel d = (set_files d all', Throw e)).
Proof.
  repeat split.
  - intros H ps h. cbn [task_step]. unfold walk_body. by rewrite H.
  - intros e H Hne ps h. cbn [task_step]. unfold walk_body. rewrite H.
    by destruct e.
  - intros e H Hne pos t ps h Hsub. by eapply step_at_throws.
  - eapply detectChanges_thrown. eassumption.
  - intros Hr. eexists. by apply detectChanges_thrown.
  - intros H all. rewrite collect_cons, H. reflexivity.
  - intros e H Hne all. rewrite collect_cons, H. by destruct e.
  - intros l files all all' e H Hp Hf Hd Hr Hc.
    rewrite collect_cons, H.
    destruct (String.eqb_spec (l_path l) ""); [contradiction|].
    by rewrite Hf, Hd, Hr, Hc.
  - intros d all' e H. unfold init. by rewrite H.
Qed.

(** ** The polling loop *)

Lemma loop_head_interval (now : Z) (w : watcher) :
  interval (loop_head now w) = interval w.
Proof. unfold loop_head. by destruct (abort w). Qed.

Lemma run_step_interval (e : event) (w : watcher) :
  interval (run_step e w) = interval w.
Proof.
  unfold run_step, cancel, crash.
  destruct e, (where_ w), (the_timer w); simpl; try done;
    rewrite ?loop_head_interval; try done;
    try (destruct (timeout w); done);
    destruct (Changes.length c =? 0)%nat; by rewrite ?loop_head_interval.
Qed.

Lemma run_events_interval (evs : list event) (w : watcher) :
  interval (run_events evs w) = interval w.
Proof.
  revert w. induction evs as [|e evs IH]; intros w; [done|].
  simpl. by rewrite IH, run_step_interval.
Qed.

Lemma last_cycle_start_snoc (st : Z) (w : watcher) (c : Changes.t) (l : list Changes.t) :
  scanned w = l ++ [c] -> last_cycle_start st w = Changes.startTime c.
Proof.
  unfold last_cycle_start. intros ->. rewrite List.map_app. simpl.
  by rewrite List.last_last.
Qed.

Lemma loop_head_inv (st now : Z) (w : watcher) :
  timeout w = None -> the_timer w = NoTimer ->
  delivered w = List.filter nonempty (scanned w) ->
  lastStartTime w = last_cycle_start st w ->
  watcher_inv st (loop_head now w).
Proof.
  intros Hto Htm Hd Hl. unfold loop_head.
  destruct (abort w) eqn:Ha; split; simpl; done.
Qed.

Lemma start_inv (i st now : Z) : watcher_inv st (start i st now).
Proof. unfold start. by apply loop_head_inv. Qed.

Lemma cancel_inv (st : Z) (w : watcher) :
  watcher_inv st w -> watcher_inv st (cancel w).
Proof.
  intros [Hd Hc Hw Hs]. unfold cancel.
  destruct (timeout w) as [id|] eqn:Hto; split; simpl; try done.
  - destruct (where_ w); try (destruct Hs; congruence).
    destruct Hs as (_ & Hn & _). split; [by eexists|].
    split; [by destruct (the_timer w)|]. by destruct (the_timer w).
  - destruct (where_ w); try done. destruct Hs as ([? ?] & _). congruence.
Qed.

Lemma crash_inv (st : Z) (w : watcher) :
  where_ w <> AtTimer -> watcher_inv st w -> watcher_inv st (crash w).
Proof.
  intros Hp [Hd Hc Hw Hs]. split; simpl; try done.
  by destruct (where_ w).
Qed.

Lemma scan_done_inv (st now : Z) (c : Changes.t) (w : watcher) :
  where_ w = AtScan -> watcher_inv st w ->
  watcher_inv st (run_step (ScanDone c now) w).
Proof.
  intros Hp [Hd Hc Hw Hs]. unfold run_step. rewrite Hp in *.
  destruct Hs as [Hto Htm].
  assert (Hf : List.filter nonempty (scanned w ++ [c]) =
                 if Nat.eqb (Changes.length c) 0 then delivered w
                 else delivered w ++ [c]).
  { rewrite List.filter_app, Hd. simpl. unfold nonempty at 2.
    destruct (Nat.eqb (Changes.length c) 0); simpl; by rewrite ?app_nil_r. }
  destruct (Nat.eqb (Changes.length c) 0) eqn:Hz.
  - apply loop_head_inv; simpl; try done.
    symmetry. by eapply last_cycle_start_snoc.
  - split; simpl; try done.
    symmetry. by eapply last_cycle_start_snoc.
Qed.

Lemma run_step_inv (st : Z) (e : event) (w : watcher) :
  watcher_inv st w -> watcher_inv st (run_step e w).
Proof.
  intros Hinv. destruct e.
  - (* TimerFires *)
    unfold run_step. destruct (where_ w) eqn:Hp; try done.
    destruct (the_timer w) eqn:Ht; try done.
    destruct Hinv as [Hd Hc Hw Hs]. rewrite Hp in *.
    split; simpl; try done. by destruct Hs as (? & _).
  - (* Resumes *)
    unfold run_step. destruct (where_ w) eqn:Hp; try done.
    destruct (the_timer w) eqn:Ht; try done.
    destruct Hinv as [Hd Hc Hw Hs]. by split.
  - (* ScanDone *)
    destruct (where_ w) eqn:Hp; try (unfold run_step; by rewrite Hp).
    by apply scan_done_inv.
  - (* ScanFails *)
    unfold run_step. destruct (where_ w) eqn:Hp; try done.
    apply crash_inv; [congruence | done].
  - (* CallbackDone *)
    unfold run_step. destruct (where_ w) eqn:Hp; try done.
    destruct Hinv as [Hd Hc Hw Hs]. rewrite Hp in *. destruct Hs.
    by apply loop_head_inv.
  - (* CallbackFails *)
    unfold run_step. destruct (where_ w) eqn:Hp; try done.
    apply crash_inv; [congruence | done].
  - (* Cancel *)
    replace (run_step Cancel w) with (cancel w).
    + by apply cancel_inv.
    + unfold run_step. by destruct (where_ w), (the_timer w).
Qed.

Lemma run_events_inv (st : Z) (evs : list event) (w : watcher) :
  watcher_inv st w -> watcher_inv st (run_events evs w).
Proof.
  revert w. induction evs as [|e evs IH]; intros w Hw; [done|].
  simpl. by apply IH, run_step_inv.
Qed.

Lemma orphaned_step (e : event) (w : watcher) :
  orphaned w -> orphaned (run_step e w) /\ cycles (run_step e w) = cycles w.
Proof.
  intros (Hp & Ht & [id Hto]). unfold run_step, orphaned.
  rewrite Hp, Ht. destruct e; try done.
  unfold cancel. rewrite Hto, Ht. simpl. by rewrite Hp.
Qed.

Lemma orphaned_run (evs : list event) (w : watcher) :
  orphaned w -> cycles (run_events evs w) = cycles w.
Proof.
  revert w. induction evs as [|e evs IH]; intros w Hw; [done|].
  simpl. destruct (orphaned_step e w Hw) as [Ho Hc]. by rewrite IH.
Qed.

Lemma loop_head_winding_down (now : Z) (w : watcher) :
  winding_down w ->
  winding_down (loop_head now w) /\ cycles (loop_head now w) = cycles w /\
  where_ (loop_head now w) = Returned /\
  ended (loop_head now w) = settle_handle true (ended w).
Proof.
  intros (Ha & Hto & Ht). unfold loop_head, winding_down. by rewrite Ha.
Qed.

Lemma loop_head_winding_down' (now : Z) (w : watcher) :
  winding_down w ->
  winding_down (loop_head now w) /\ cycles (loop_head now w) = cycles w.
Proof.
  intros Hw. destruct (loop_head_winding_down now w Hw) as (H1 & H2 & _). done.
Qed.

Lemma winding_down_step (e : event) (w : watcher) :
  winding_down w ->
  winding_down (run_step e w) /\ cycles (run_step e w) = cycles w.
Proof.
  intros Hw. pose proof Hw as (Ha & Hto & Ht). unfold run_step.
  destruct e; destruct (where_ w) eqn:Hp; rewrite ?Ht; try done;
    try (by apply loop_head_winding_down');
    try (unfold cancel; by rewrite Hto).
  destruct (Nat.eqb (Changes.length c) 0); [|done].
  match goal with |- context [loop_head now ?x] =>
    destruct (loop_head_winding_down' now x) as [H1 H2]
  end; [done|].
  split; [done|]. by rewrite H2.
Qed.

Lemma winding_down_run (evs : list event) (w : watcher) :
  winding_down w -> cycles (run_events evs w) = cycles w.
Proof.
  revert w. induction evs as [|e evs IH]; intros w Hw; [done|].
  simpl. destruct (winding_down_step e w Hw) as [Ho Hc]. by rewrite IH.
Qed.

(** While the scan is in flight the promise of the handle stays pending. *)
Lemma pending_while_scanning (evs : list event) (w : watcher) :
  winding_down w -> where_ w = AtScan -> ended w = HandlePending ->
  forallb (fun e => negb (scan_ends e)) evs = true ->
  ended (run_events evs w) = HandlePending /\ where_ (run_events evs w) = AtScan.
Proof.
  revert w. induction evs as [|e evs IH]; intros w Hw Hp He Hevs; [done|].
  simpl in Hevs. apply andb_prop in Hevs as [Hne Hevs]. simpl.
  pose proof Hw as (Ha & Hto & Ht).
  assert (Hsame : run_step e w = w \/ run_step e w = cancel w).
  { unfold run_step. rewrite Hp, Ht. destruct e; try discriminate; auto. }
  assert (Hc : cancel w = w).
  { unfold cancel. rewrite Hto, Hp. destruct w; simpl in *. by subst. }
  destruct Hsame as [-> | ->]; rewrite ?Hc; by apply IH.
Qed.

(** C8.  Invoking the cancellation handle of a started watcher.  While the
    wait timer is pending: the timer is cleared, the promise of the handle
    resolves at once, and whatever happens next no scan is started.  While
    a scan is in flight: the promise of the handle is pending and stays so
    until the scan ends; it resolves when the scan has ended and its report,
    if any, has been processed; and no further scan is started. *)
Theorem cancellation (i st now0 : Z) (evs0 : list event) :
  let w := run_events evs0 (start i st now0) in
  (the_timer w = TimerPending ->
     the_timer (run_step Cancel w) = TimerCleared /\
     ended (run_step Cancel w) = HandleResolved /\
     forall evs, cycles (run_events evs (run_step Cancel w)) = cycles w) /\
  (where_ w = AtScan ->
     ended (run_step Cancel w) = HandlePending /\
     (forall evs, forallb (fun e => negb (scan_ends e)) evs = true ->
        ended (run_events evs (run_step Cancel w)) = HandlePending) /\
     (forall c now now',
        ended (run_events [ScanDone c now; CallbackDone now'] (run_step Cancel w))
        = HandleResolved) /\
     forall evs, cycles (run_events evs (run_step Cancel w)) = cycles w).
Proof.
  intros w.
  pose proof (run_events_inv st evs0 _ (start_inv i st now0)) as Hinv.
  fold w in Hinv. destruct Hinv as [Hd Hc Hw Hs].
  assert (Hcancel : run_step Cancel w = cancel w).
  { unfold run_step. by destruct (where_ w), (the_timer w). }
  rewrite Hcancel. split.
  - intros Ht.
    assert (Hp : where_ w = AtTimer).
    { destruct (where_ w); try done; destruct Hs; congruence. }
    rewrite Hp in Hs. destruct Hs as ([id Hto] & _).
    assert (Ho : orphaned (cancel w)).
    { unfold orphaned, cancel. rewrite Hto, Ht. simpl. eauto. }
    unfold cancel at 1 2. rewrite Hto, Ht. simpl.
    repeat split. intros evs. rewrite (orphaned_run evs _ Ho).
    unfold cancel. by rewrite Hto.
  - intros Hp. rewrite Hp in Hs. destruct Hs as [Hto Ht].
    assert (Hwd : winding_down (cancel w)).
    { unfold winding_down, cancel. by rewrite Hto. }
    assert (Hwh : where_ (cancel w) = AtScan).
    { unfold cancel. by rewrite Hto. }
    assert (He : ended (cancel w) = HandlePending).
    { unfold cancel. by rewrite Hto, Hp. }
    assert (Hcy : cycles (cancel w) = cycles w).
    { unfold cancel. by rewrite Hto. }
    split; [exact He|]. split; [|split].
    + intros evs Hevs. by apply pending_while_scanning.
    + intros c now now'. cbn [run_events]. unfold run_step at 2.
      rewrite Hwh. destruct (Nat.eqb (Changes.length c) 0).
      * match goal with |- context [loop_head now ?x] =>
          destruct (loop_head_winding_down now x) as (_ & _ & Hr & Hh)
        end; [done|].
        unfold run_step. rewrite Hr, Hh. simpl. by rewrite He.
      * unfold run_step. simpl.
        match goal with |- context [loop_head now' ?x] =>
          destruct (loop_head_winding_down now' x) as (_ & _ & _ & Hh)
        end; [done|].
        rewrite Hh. simpl. by rewrite He.
    + intros evs. by rewrite (winding_down_run evs _ Hwd).
Qed.

(** C9.  A report is given to the callback exactly when its change count
    is not zero, and every scan, empty or not, resets the clock of the
    cadence.  In terms of what has happened: of the reports of the scans
    completed so far, exactly those with a non-zero change count have been
    given to the callback, in order, and whenever the loop waits, the delay
    of its timer is [max(0, interval - (now - start))] for the start time of
    the last completed scan (of [init] before the first).  In terms of what
    happens next: when a scan of a watcher that was not cancelled resolves
    with a report [c] at the clock reading [now], the report joins the
    completed scans; if its change count is zero, nothing is given to the
    callback and the timer is armed at once with the delay
    [max(0, interval - (now - c.startTime))]; otherwise [c] is given to the
    callback, and the timer is armed with [max(0, interval - (now' -
    c.startTime))] at the reading [now'] at which the callback is done.
    And the wait ends in the next scan: when the timer fires and the loop
    resumes, one more scan is started. *)
Theorem polling_cadence (i st now0 : Z) (evs : list event) :
  let w := run_events evs (start i st now0) in
  delivered w = List.filter (fun c => negb (Nat.eqb (Changes.length c) 0)) (scanned w) /\
  (where_ w = AtTimer ->
   waitTime w = Z.max 0 (i - (armedAt w - last_cycle_start st w))) /\
  (where_ w = AtScan -> abort w = false -> forall c now,
   let w' := run_step (ScanDone c now) w in
   scanned w' = scanned w ++ [c] /\ cycles w' = cycles w /\
   if Nat.eqb (Changes.length c) 0 then
     delivered w' = delivered w /\
     where_ w' = AtTimer /\ the_timer w' = TimerPending /\ armedAt w' = now /\
     waitTime w' = Z.max 0 (i - (now - Changes.startTime c))
   else
     delivered w' = delivered w ++ [c] /\ where_ w' = AtCallback /\
     forall now',
       let w'' := run_step (CallbackDone now') w' in
       delivered w'' = delivered w' /\ scanned w'' = scanned w' /\
       where_ w'' = AtTimer /\ the_timer w'' = TimerPending /\ armedAt w'' = now' /\
       waitTime w'' = Z.max 0 (i - (now' - Changes.startTime c))) /\
  (where_ w = AtTimer -> the_timer w = TimerPending -> forall now,
   let w1 := run_events [TimerFires; Resumes now] w in
   where_ w1 = AtScan /\ cycles w1 = S (cycles w) /\ abort w1 = abort w /\
   scanned w1 = scanned w /\ delivered w1 = delivered w).
Proof.
  intros w.
  pose proof (run_events_inv st evs _ (start_inv i st now0)) as Hinv.
  fold w in Hinv. destruct Hinv as [Hd Hc Hw Hs].
  assert (Hi : interval w = i).
  { unfold w. rewrite run_events_interval. unfold start. by rewrite loop_head_interval. }
  split; [exact Hd|]. split; [|split].
  - intros Hp. rewrite Hp in Hc. by rewrite (Hw Hp), Hc, Hi.
  - intros Hp Ha c now. cbv zeta. unfold run_step. rewrite Hp.
    destruct (Nat.eqb (Changes.length c) 0) eqn:Hlen.
    + unfold loop_head. cbn [abort]. rewrite Ha. cbn. rewrite Hi. by repeat split.
    + cbn. repeat split. all: unfold loop_head; cbn; rewrite Ha; cbn; rewrite ?Hi; done.
  - intros Hp Ht now. cbv zeta. cbn [run_events]. unfold run_step.
    rewrite Hp, Ht. cbn. by repeat split.
Qed.

(** ** The diff when every entry carries a time *)

Lemma statTraverse_timed (fs : FS) (depth : nat) (p : string) (i : FileInfo) :
  timed_fs fs -> statTraverse fs depth p = Some (inr i) -> timed i = true.
Proof.
  intros [Hl _]. revert p. induction depth as [|n IH]; intros p; [discriminate|].
  simpl. destruct (lstat fs p) as [e|info] eqn:El; [discriminate|].
  destruct (isSymlink info).
  - destruct (readlink fs p); [discriminate | apply IH].
  - intros [= <-]. apply (Hl p info El).
Qed.

Lemma walk_locate_timed (fs : FS) (depth : nat) (fo : bool) (f : target) (l : located) :
  timed_fs fs -> timed_target f = true ->
  walk_locate fs depth fo f = Some (inr l) -> timed (l_info l) = true.
Proof.
  intros Hfs Hf. unfold walk_locate. destruct f as [p|i].
  - destruct fo.
    + destruct (statTraverse fs depth p) as [[e|info]|] eqn:E; try discriminate.
      intros [= <-]. by eapply statTraverse_timed.
    + destruct (lstat fs p) as [e|info] eqn:E; try discriminate.
      intros [= <-]. by eapply (proj1 Hfs).
  - destruct (isSymlink i && fo).
    + destruct (statTraverse fs depth (path i)) as [[e|info]|] eqn:E; try discriminate.
      intros [= <-]. by eapply statTraverse_timed.
    + by intros [= <-].
Qed.

Lemma timed_entries (l : list FileInfo) :
  forallb timed_target (List.map TInfo l) = forallb timed l.
Proof. induction l as [|x l IH]; [done|]. simpl. by rewrite IH. Qed.

Lemma timed_paths (l : list string) :
  forallb timed_target (List.map TPath l) = true.
Proof. by induction l. Qed.

Lemma timed_inv_start (P : gmap string N) (now : Z) :
  timed_inv P {| prev := P; curr := ∅; changes := Changes.fresh now |}.
Proof.
  split; simpl.
  - intros p c H. by rewrite lookup_empty in H.
  - intros p H. by apply elem_of_nil in H.
  - intros p v c _ H. by rewrite lookup_empty in H.
Qed.

Lemma record_file_timed (P : gmap string N) (p0 : string) (info : FileInfo) (h : store) :
  (forall p v, P !! p = Some v -> v <> 0%N) -> timed info = true ->
  walk_inv P h -> timed_inv P h -> timed_inv P (record_file p0 info h).
Proof.
  intros HP Hi [Hprev _ _ _ _ _ Hown] [Hcurr Hadd Hmod]. unfold record_file.
  destruct (truthy (curr h) p0) eqn:Hc; [by split|].
  rewrite (assign_falsy _ _ _ Hc). fold (time_of info). set (c := time_of info).
  assert (Hc0 : c <> 0%N).
  { unfold timed in Hi. fold c in Hi. by destruct (N.eqb_spec c 0). }
  assert (Hnone : curr h !! p0 = None /\ prototype_member p0 = false).
  { apply truthy_false in Hc as [Hc|Hc]; [done|]. by apply Hcurr in Hc. }
  destruct Hnone as [Hnone Hplain].
  pose proof (Hprev p0) as Hp0. rewrite Hnone in Hp0.
  assert (Hcurr' : forall p c', <[p0 := c]> (curr h) !! p = Some c' -> c' <> 0%N).
  { intros p c'. destruct (decide (p0 = p)) as [<-|Hne].
    - rewrite lookup_insert_eq. by intros [= <-].
    - rewrite lookup_insert_ne by done. apply Hcurr. }
  destruct (truthy (prev h) p0) eqn:Hp; cbn [negb].
  - apply truthy_Some in Hp as [(v & Hv & Hpos)|[_ Hmem]]; [|congruence].
    rewrite Hv in *. symmetry in Hp0.
    destruct (N.ltb_spec v c) as [Hlt|Hge]; split; simpl; try done.
    + intros p v' c' Hv' Hc' Hl. apply elem_of_app.
      destruct (decide (p0 = p)) as [<-|Hne].
      * right. by apply list_elem_of_singleton.
      * left. rewrite lookup_insert_ne in Hc' by done. by eapply Hmod.
    + intros p v' c' Hv' Hc' Hl. destruct (decide (p0 = p)) as [<-|Hne].
      * rewrite lookup_insert_eq in Hc'. simplify_eq. lia.
      * rewrite lookup_insert_ne in Hc' by done. by eapply Hmod.
  - assert (HP0 : P !! p0 = None).
    { apply truthy_false in Hp as [[Hp _]|Hp]; rewrite Hp in Hp0; [done|].
      symmetry in Hp0. by apply HP in Hp0. }
    split; simpl; try done.
    + intros p H. apply elem_of_app in H as [H|H]; [by apply Hadd|].
      by apply list_elem_of_singleton in H as ->.
    + intros p v' c' Hv' Hc' Hl. destruct (decide (p0 = p)) as [<-|Hne].
      * congruence.
      * rewrite lookup_insert_ne in Hc' by done. by eapply Hmod.
Qed.

Lemma forallb_insert_task (ps : list task) (i : nat) (c' : task) :
  forallb timed_task ps = true -> timed_task c' = true ->
  forallb timed_task (<[i := c']> ps) = true.
Proof.
  revert i. induction ps as [|x ps IH]; intros i Hps Hc; [done|].
  simpl in Hps. apply andb_prop in Hps as [Hx Hps].
  destruct i as [|i]; simpl; apply andb_true_intro; split; auto.
Qed.

Lemma forallb_lookup_task (ps : list task) (i : nat) (c : task) :
  forallb timed_task ps = true -> ps !! i = Some c -> timed_task c = true.
Proof.
  revert i. induction ps as [|x ps IH]; intros i Hps Hi; [done|].
  simpl in Hps. apply andb_prop in Hps as [Hx Hps].
  destruct i as [|i]; simpl in Hi; [by injection Hi as <- | eauto].
Qed.

(** One step on a timed file system keeps the tree timed and both
    invariants of the store. *)
Lemma step_at_timed (P : gmap string N) (fs : FS) (depth : nat) (fo : bool)
    (filter : FileInfo -> string -> bool) (pos : list nat) (t : task) (h : store) :
  (forall p v, P !! p = Some v -> v <> 0%N) -> timed_fs fs ->
  timed_task t = true -> walk_inv P h -> timed_inv P h ->
  timed_task (step_at fs depth fo filter pos t h).1 = true /\
  timed_inv P (step_at fs depth fo filter pos t h).2.
Proof.
  intros HP Hfs. revert t. induction pos as [|i pos IH]; intros t Ht Hw Hti.
  - destruct t as [[[|f rest]| | |] ps]; simpl in *; try done.
    apply andb_prop in Ht as [Hl Hps]. apply andb_prop in Hl as [Hf Hrest].
    unfold walk_body.
    destruct (walk_locate fs depth fo f) as [[e|l]|] eqn:El; simpl.
    + destruct (is_NotFound e); simpl; [by rewrite Hrest, Hps | done].
    + pose proof (walk_locate_timed fs depth fo f l Hfs Hf El) as Hl.
      destruct (String.eqb (l_path l) ""); simpl; [done|].
      destruct (negb _); simpl; [by rewrite Hrest, Hps|].
      destruct (isDirectory (l_info l)).
      * destruct (readDir fs (l_path l)) as [e|files] eqn:Er; simpl; [done|].
        rewrite Hrest, forallb_app, Hps. simpl. split; [|done].
        rewrite timed_entries, (proj2 Hfs _ _ Er). done.
      * destruct (isFile (l_info l)); simpl; rewrite Hrest, Hps; [|done].
        split; [done|]. by apply record_file_timed.
    + done.
  - destruct t as [st ps]. cbn [step_at].
    destruct (ps !! i) as [c|] eqn:Hi; [|done].
    simpl in Ht. apply andb_prop in Ht as [Hst Hps].
    specialize (IH c (forallb_lookup_task ps i c Hps Hi) Hw Hti).
    destruct (step_at fs depth fo filter pos c h) as [c' h']. simpl in *.
    destruct IH as [IH1 IH2]. split; [|done].
    rewrite Hst. simpl. by apply forallb_insert_task.
Qed.

Lemma run_walk_timed (P : gmap string N) (depth : nat) (fo : bool)
    (filter : FileInfo -> string -> bool) (sch : schedule) (t : task) (h : store) :
  (forall p v, P !! p = Some v -> v <> 0%N) ->
  Forall (fun s => timed_fs s.1) sch ->
  timed_task t = true -> walk_inv P h -> timed_inv P h ->
  timed_inv P (run_walk depth fo filter sch t h).2.
Proof.
  intros HP Hsch. revert t h.
  induction Hsch as [|[fs pos] sch Hfs Hsch IH]; intros t h Ht Hw Hti; [done|].
  cbn [run_walk].
  pose proof (step_at_timed P fs depth fo filter pos t h HP Hfs Ht Hw Hti) as [H1 H2].
  pose proof (step_at_inv P fs depth fo filter pos t h Hw) as H3.
  destruct (step_at fs depth fo filter pos t h) as [t' h'].
  by apply IH.
Qed.

(** The classification of section 4.3, for a cycle in which every entry
    met carries a time and whose previous snapshot [P] holds no falsy time:
    with [C] the new snapshot, the added paths are those of [C] absent from
    [P], the modified paths those of [C] present in [P] with a strictly
    earlier time, the deleted paths those of [P] absent from [C]; a path
    of [C] present in [P] with an equal or later time is in no list. *)
Theorem diff_classification (depth : nat) (sch : schedule) (t0 t1 : Z)
    (d d' : Detector) (c : Changes.t) :
  (forall p v, files d !! p = Some v -> v <> 0%N) ->
  Forall (fun s => timed_fs s.1) sch ->
  detectChanges depth sch t0 t1 d = Resolved c d' ->
  forall p,
    (p ∈ Changes.added c <-> is_Some (files d' !! p) /\ files d !! p = None) /\
    (p ∈ Changes.modified c <->
       exists v w, files d !! p = Some v /\ files d' !! p = Some w /\ (v < w)%N) /\
    (p ∈ Changes.deleted c <-> is_Some (files d !! p) /\ files d' !! p = None).
Proof.
  unfold detectChanges, walk_start. intros HP Hsch H p.
  pose proof (run_walk_inv (files d) depth (followSymlink (options d))
                (makeFilter (options d)) sch
                (Task (Loop (List.map TPath (targets d))) [])
                _ (walk_inv_start (files d) t0)) as Hinv.
  assert (Htinv : timed_inv (files d)
            (run_walk depth (followSymlink (options d)) (makeFilter (options d)) sch
               (Task (Loop (List.map TPath (targets d))) [])
               {| prev := files d; curr := ∅; changes := Changes.fresh t0 |}).2).
  { apply run_walk_timed; try done.
    - simpl. by rewrite timed_paths.
    - apply walk_inv_start.
    - apply timed_inv_start. }
  destruct (run_walk _ _ _ _ _ _) as [t h]. simpl in Hinv, Htinv.
  destruct (promise t); try discriminate. injection H as <- <-.
  destruct Hinv as [Hprev Hadd Hmod Hdis Hdel Hnew Hown].
  destruct Htinv as [Hcurr Hadd' Hmod'].
  simpl. rewrite Hdel. simpl. repeat split.
  - by apply Hadd.
  - by apply Hadd'.
  - intros [Hs Hn]. apply Hnew; [done|]. apply truthy_false. left. auto.
  - intros Hm. apply Hmod in Hm as (v & w & Hv & Hw & Hlt).
    exists v, w. repeat split; [done | done | lia].
  - intros (v & w & Hv & Hw & Hlt). by eapply Hmod'.
  - apply elem_of_keys in H as [v Hv]. specialize (Hprev p). rewrite Hv in Hprev.
    destruct (curr h !! p); [done|]. by eexists.
  - apply elem_of_keys in H as [v Hv]. specialize (Hprev p). rewrite Hv in Hprev.
    by destruct (curr h !! p).
  - intros [[v Hv] Hn]. apply elem_of_keys. specialize (Hprev p).
    rewrite Hn in Hprev. rewrite Hprev. by eexists.
Qed.

(** ** A cycle over a file system at rest, links not followed *)

Lemma walk_locate_off (fs : FS) (depth : nat) (t : target) :
  walk_locate fs depth false t = Some (locate fs t).
Proof.
  destruct t as [p|f]; simpl.
  - by destruct (lstat fs p).
  - by rewrite andb_false_r.
Qed.

Lemma collect_locate_off (fs : FS) (depth : nat) (t : target) :
  collect_locate fs depth false t = Some (locate fs t).
Proof.
  destruct t as [p|f]; simpl.
  - by destruct (lstat fs p).
  - by rewrite andb_false_r.
Qed.

Lemma locate_link (fs : FS) (t : target) (l : located) :
  locate fs t = inr l -> str_or (l_linkPath l) (l_path l) = l_path l.
Proof.
  destruct t as [p|f]; simpl.
  - destruct (lstat fs p); [discriminate|]. by intros [= <-].
  - by intros [= <-].
Qed.

Lemma locate_known (fs : FS) (stamp : string -> N) (t : target) (l : located) :
  steady fs stamp -> known stamp t -> locate fs t = inr l ->
  time_of (l_info l) = stamp (l_path l) /\ stamp (l_path l) <> 0%N.
Proof.
  intros [Hl _] Hk. destruct t as [p|f]; simpl.
  - destruct (lstat fs p) as [e|i] eqn:E; [discriminate|].
    intros [= <-]. simpl. by apply Hl.
  - by intros [= <-].
Qed.

Lemma file_not_directory (i : FileInfo) : isFile i = true -> isDirectory i = false.
Proof. unfold isFile, isDirectory. by destruct (kind i). Qed.

Lemma steady_timed (fs : FS) (stamp : string -> N) : steady fs stamp -> timed_fs fs.
Proof.
  intros [Hl Hr]. split.
  - intros p i H. destruct (Hl p i H) as [H1 H2]. unfold timed. rewrite H1.
    by destruct (N.eqb_spec (stamp p) 0).
  - intros p l H. apply forallb_forall. intros i Hi.
    apply list_elem_of_In in Hi. destruct (Hr p l i H Hi) as [H1 H2].
    unfold timed. rewrite H1. by destruct (N.eqb_spec (stamp (path i)) 0).
Qed.

Section Cover.
Variables (fs : FS) (filter : FileInfo -> string -> bool) (stamp : string -> N).
Variable roots : list target.
Hypothesis Hsteady : steady fs stamp.

Lemma cover_ext (M M' : target -> Prop) (sp sp' : bool) (h : store) :
  (forall x, M x <-> M' x) -> sp = sp' ->
  cover fs filter stamp roots M sp h -> cover fs filter stamp roots M' sp' h.
Proof.
  intros HM <- [Hk Ha Hs Hc Ho]. split.
  - intros x Hx. by apply Hk, HM.
  - intros x q Hx. by apply Ha, HM.
  - exact Hs.
  - destruct Hc as [Hc|Hc]; [by left|right].
    intros r q Hr Hq Hm. destruct (Hc r q Hr Hq Hm) as [?|(x & Hx & Hxq)]; [by left|].
    right. exists x. split; [by apply HM | done].
  - exact Ho.
Qed.

(** The general form of one step of the cycle. *)
Lemma cover_step (M M' : target -> Prop) (sp sp' : bool) (h h' : store) :
  cover fs filter stamp roots M sp h ->
  (forall x, M' x ->
     M x \/ (known stamp x /\
             exists y, M y /\ forall q, reaches fs filter x q -> reaches fs filter y q)) ->
  (sp = true -> sp' = true) ->
  (forall x q, M x -> reaches fs filter x q -> prototype_member q = false ->
     sp' = true \/ is_Some (curr h' !! q) \/ exists x', M' x' /\ reaches fs filter x' q) ->
  (forall q c, curr h' !! q = Some c ->
     curr h !! q = Some c \/
     (c = stamp q /\ prototype_member q = false /\
      exists y, M y /\ reaches fs filter y q)) ->
  (forall q, is_Some (curr h !! q) -> is_Some (curr h' !! q)) ->
  cover fs filter stamp roots M' sp' h'.
Proof.
  intros [Hk Ha Hs Hc Ho] HM Hsp Hnew Hcur Hmono. split.
  - intros x Hx. destruct (HM x Hx) as [H|[H _]]; auto.
  - intros x q Hx Hq. destruct (HM x Hx) as [H|(_ & y & Hy & Hyq)]; eauto.
  - intros q c Hq. destruct (Hcur q c Hq) as [H|(-> & _ & y & Hy & Hyq)]; eauto.
  - destruct sp' eqn:Esp; [by left|right].
    destruct Hc as [Hc|Hc]; [by specialize (Hsp Hc)|].
    intros r q Hr Hq Hm. destruct (Hc r q Hr Hq Hm) as [H|(x & Hx & Hxq)].
    + left. by apply Hmono.
    + destruct (Hnew x q Hx Hxq Hm) as [?|[?|?]]; [done | by left | by right].
  - intros q [c Hq]. destruct (Hcur q c Hq) as [H|(_ & Hm & _)]; [|done].
    apply Ho. by eexists.
Qed.

Lemma reaches_inv (t : target) (q : string) :
  reaches fs filter t q ->
  exists l, locate fs t = inr l /\ l_path l <> "" /\
    filter (l_info l) (l_path l) = true /\
    ((isFile (l_info l) = true /\ q = l_path l) \/
     (isDirectory (l_info l) = true /\
      exists entries f, readDir fs (l_path l) = inr entries /\ f ∈ entries /\
                        reaches fs filter (TInfo f) q)).
Proof.
  intros H. destruct H as [t l H1 H2 H3 H4|t l entries f q H1 H2 H3 H4 H5 H6 H7].
  - exists l. repeat split; try done. by left.
  - exists l. repeat split; try done. right. split; [done|]. by exists entries, f.
Qed.

(** The target is passed over: nothing is reached through it. *)
Lemma cover_skip (E : target -> Prop) (f : target) (rest F : list target)
    (sp : bool) (h : store) :
  (forall q, ~ reaches fs filter f q) ->
  cover fs filter stamp roots (fun x => E x \/ x ∈ (f :: rest) ++ F) sp h ->
  cover fs filter stamp roots (fun x => E x \/ x ∈ rest ++ F) sp h.
Proof.
  intros Hno Hc. eapply cover_step; [exact Hc| | | | |]; try done.
  - intros x [Hx|Hx]; left; [by left|]. right.
    rewrite elem_of_app in Hx. rewrite elem_of_app, elem_of_cons. tauto.
  - intros x q [Hx|Hx] Hq _; right; right.
    + exists x. split; [by left | done].
    + rewrite elem_of_app, elem_of_cons in Hx.
      destruct Hx as [[->|Hx]|Hx]; [by apply Hno in Hq| |];
        (exists x; split; [right; rewrite elem_of_app; tauto | done]).
  - intros q c Hq. by left.
Qed.

(** The activation throws: the cycle is spoiled. *)
Lemma cover_fail (M M' : target -> Prop) (sp : bool) (h : store) :
  (forall x, M' x -> M x) ->
  cover fs filter stamp roots M sp h -> cover fs filter stamp roots M' true h.
Proof.
  intros HM Hc. eapply cover_step; [exact Hc| | | | |]; try done.
  - intros x Hx. left. by apply HM.
  - intros x q _ _ _. by left.
  - intros q c Hq. by left.
Qed.

(** The target is a regular file: it is recorded. *)
Lemma cover_record (E : target -> Prop) (f : target) (rest F : list target)
    (l : located) (sp : bool) (h : store) :
  locate fs f = inr l -> l_path l <> "" ->
  filter (l_info l) (l_path l) = true -> isFile (l_info l) = true ->
  cover fs filter stamp roots (fun x => E x \/ x ∈ (f :: rest) ++ F) sp h ->
  cover fs filter stamp roots (fun x => E x \/ x ∈ rest ++ F) sp
    (record_file (l_path l) (l_info l) h).
Proof.
  intros El Hp Hf Hk Hc.
  assert (Hin : E f \/ f ∈ (f :: rest) ++ F).
  { right. rewrite elem_of_app, elem_of_cons. tauto. }
  destruct (locate_known fs stamp f l Hsteady (cover_known _ _ _ _ _ _ _ Hc f Hin) El)
    as [Ht Hnz].
  assert (Hcurr : curr (record_file (l_path l) (l_info l) h) =
                  if truthy (curr h) (l_path l) then curr h
                  else <[l_path l := time_of (l_info l)]> (curr h)).
  { unfold record_file. destruct (truthy (curr h) (l_path l)) eqn:Htr; [done|].
    simpl. by rewrite (assign_falsy _ _ _ Htr). }
  eapply cover_step; [exact Hc| | | | |]; try done.
  - intros x [Hx|Hx]; left; [by left|]. right.
    rewrite elem_of_app in Hx. rewrite elem_of_app, elem_of_cons. tauto.
  - intros x q [Hx|Hx] Hq Hm; right.
    + right. exists x. split; [by left | done].
    + rewrite elem_of_app, elem_of_cons in Hx.
      destruct Hx as [[->|Hx]|Hx];
        [|right; exists x; split; [right; rewrite elem_of_app; tauto | done]..].
      left. apply reaches_inv in Hq as (l' & El' & _ & _ & [[_ ->]|[Hd _]]).
      * rewrite El in El'. injection El' as <-. rewrite Hcurr.
        destruct (truthy (curr h) (l_path l)) eqn:Htr.
        -- apply truthy_Some in Htr as [(v & Hv & _)|[_ Hv]]; [by eexists | congruence].
        -- rewrite lookup_insert_eq. by eexists.
      * rewrite El in El'. injection El' as <-.
        rewrite (file_not_directory _ Hk) in Hd. discriminate.
  - intros q c. rewrite Hcurr. destruct (truthy (curr h) (l_path l)) eqn:Htr; [by left|].
    destruct (decide (l_path l = q)) as [<-|Hne].
    + rewrite lookup_insert_eq. intros [= <-]. right. split; [done|]. split.
      * apply truthy_false in Htr as [[_ Htr]|Htr]; [done|].
        destruct (cover_sound _ _ _ _ _ _ _ Hc _ _ Htr) as [H0 _]. congruence.
      * exists f. split; [done|]. by eapply reaches_file.
    + rewrite lookup_insert_ne by done. by left.
  - intros q [c Hq]. rewrite Hcurr. destruct (truthy (curr h) (l_path l)); [by eexists|].
    destruct (decide (l_path l = q)) as [<-|Hne].
    + rewrite lookup_insert_eq. by eexists.
    + rewrite lookup_insert_ne by done. by eexists.
Qed.

(** The target is a directory: its entries are still to visit. *)
Lemma cover_fork (E : target -> Prop) (f : target) (rest F : list target)
    (l : located) (entries : list FileInfo) (sp : bool) (h : store) :
  locate fs f = inr l -> l_path l <> "" ->
  filter (l_info l) (l_path l) = true -> isDirectory (l_info l) = true ->
  readDir fs (l_path l) = inr entries ->
  cover fs filter stamp roots (fun x => E x \/ x ∈ (f :: rest) ++ F) sp h ->
  cover fs filter stamp roots
    (fun x => E x \/ x ∈ rest ++ F ++ List.map TInfo entries) sp h.
Proof.
  intros El Hp Hf Hk Hr Hc.
  assert (Hin : E f \/ f ∈ (f :: rest) ++ F).
  { right. rewrite elem_of_app, elem_of_cons. tauto. }
  eapply cover_step; [exact Hc| | | | |]; try done.
  - intros x [Hx|Hx]; [left; by left|].
    rewrite !elem_of_app in Hx. destruct Hx as [Hx|[Hx|Hx]].
    + left. right. rewrite elem_of_app, elem_of_cons. tauto.
    + left. right. rewrite elem_of_app. tauto.
    + right. apply list_elem_of_fmap in Hx as (i & -> & Hi). split.
      * by apply (proj2 Hsteady _ _ _ Hr).
      * exists f. split; [done|]. intros q Hq. by eapply reaches_dir.
  - intros x q [Hx|Hx] Hq _; right; right.
    + exists x. split; [by left | done].
    + rewrite elem_of_app, elem_of_cons in Hx.
      destruct Hx as [[->|Hx]|Hx];
        [|exists x; split; [right; rewrite !elem_of_app; tauto | done]..].
      apply reaches_inv in Hq as (l' & El' & _ & _ & [[Hfile _]|(_ & es & f' & Hes & Hf' & Hq)]).
      * rewrite El in El'. injection El' as <-.
        rewrite (file_not_directory _ Hfile) in Hk. discriminate.
      * rewrite El in El'. injection El' as <-. rewrite Hr in Hes.
        injection Hes as <-. exists (TInfo f'). split; [|done].
        right. rewrite !elem_of_app. right. right.
        apply list_elem_of_fmap. by exists f'.
  - intros q c Hq. by left.
Qed.

Lemma no_reach_error (f : target) (e : error) :
  locate fs f = inl e -> forall q, ~ reaches fs filter f q.
Proof. intros El q Hq. apply reaches_inv in Hq as (l & El' & _). congruence. Qed.

Lemma no_reach_filtered (f : target) (l : located) :
  locate fs f = inr l -> filter (l_info l) (l_path l) = false ->
  forall q, ~ reaches fs filter f q.
Proof.
  intros El Hf q Hq. apply reaches_inv in Hq as (l' & El' & _ & Hf' & _).
  rewrite El in El'. injection El' as <-. congruence.
Qed.

Lemma no_reach_other (f : target) (l : located) :
  locate fs f = inr l -> isDirectory (l_info l) = false -> isFile (l_info l) = false ->
  forall q, ~ reaches fs filter f q.
Proof.
  intros El Hd Hf q Hq.
  apply reaches_inv in Hq as (l' & El' & _ & _ & [[Hf' _]|[Hd' _]]);
    rewrite El in El'; injection El' as <-; congruence.
Qed.

(** One step of one activation. *)
Lemma cover_task_step (depth : nat) (E : target -> Prop) (sp : bool)
    (t : task) (h : store) :
  cover fs filter stamp roots (fun x => E x \/ x ∈ pending t) (sp || spoiled t) h ->
  cover fs filter stamp roots
    (fun x => E x \/ x ∈ pending (task_step fs depth false filter t h).1)
    (sp || spoiled (task_step fs depth false filter t h).1)
    (task_step fs depth false filter t h).2.
Proof.
  destruct t as [[[|f rest]| | |] ps]; try done.
  cbn [task_step]. unfold walk_body. rewrite walk_locate_off.
  cbn [pending spoiled failed_status orb]. intros Hc.
  assert (Hsub : forall x, E x \/ x ∈ [] ++ flat_map pending ps ->
                           E x \/ x ∈ (f :: rest) ++ flat_map pending ps).
  { intros x [Hx|Hx]; [by left|right]. simpl in Hx.
    rewrite elem_of_app. by right. }
  destruct (locate fs f) as [e|l] eqn:El.
  - destruct (is_NotFound e); cbn [fst snd pending spoiled failed_status orb].
    + eapply cover_skip; [|exact Hc]. by eapply no_reach_error.
    + rewrite orb_true_r. eapply cover_fail; [|exact Hc]. exact Hsub.
  - rewrite (locate_link fs f l El).
    destruct (String.eqb_spec (l_path l) "") as [Hp|Hp];
      cbn [fst snd pending spoiled failed_status orb].
    { rewrite orb_true_r. eapply cover_fail; [|exact Hc]. exact Hsub. }
    destruct (filter (l_info l) (l_path l)) eqn:Hf;
      cbn [negb fst snd pending spoiled failed_status orb].
    2:{ eapply cover_skip; [|exact Hc]. by eapply no_reach_filtered. }
    destruct (isDirectory (l_info l)) eqn:Hd.
    + destruct (readDir fs (l_path l)) as [e|entries] eqn:Hr;
        cbn [fst snd pending spoiled failed_status orb].
      { rewrite orb_true_r. eapply cover_fail; [|exact Hc]. exact Hsub. }
      rewrite flat_map_app, existsb_app. cbn [flat_map existsb spoiled failed_status pending orb].
      rewrite !app_nil_r, orb_false_r.
      by eapply cover_fork.
    + destruct (isFile (l_info l)) eqn:Hk;
        cbn [fst snd pending spoiled failed_status orb].
      * by eapply cover_record.
      * eapply cover_skip; [|exact Hc]. by eapply no_reach_other.
Qed.

Lemma pending_insert (st : status) (ps : list task) (i : nat) (c c' : task) (x : target) :
  ps !! i = Some c ->
  x ∈ pending (Task st (<[i := c']> ps)) <->
  (x ∈ match st with Loop ts => ts | _ => [] end \/
   x ∈ flat_map pending (take i ps) \/ x ∈ flat_map pending (drop (S i) ps)) \/
  x ∈ pending c'.
Proof.
  intros Hi. rewrite insert_take_drop by (by eapply lookup_lt_Some).
  cbn [pending]. rewrite flat_map_app. cbn [flat_map].
  rewrite !elem_of_app. tauto.
Qed.

Lemma spoiled_insert (st : status) (ps : list task) (i : nat) (c c' : task) :
  ps !! i = Some c ->
  spoiled (Task st (<[i := c']> ps)) =
  (failed_status st || existsb spoiled (take i ps)
   || existsb spoiled (drop (S i) ps)) || spoiled c'.
Proof.
  intros Hi. rewrite insert_take_drop by (by eapply lookup_lt_Some).
  cbn [spoiled]. rewrite existsb_app. cbn [existsb].
  by destruct (failed_status st), (existsb spoiled (take i ps)), (spoiled c'),
       (existsb spoiled (drop (S i) ps)).
Qed.

(** One step of the cycle, wherever in the tree it happens. *)
Lemma cover_step_at (depth : nat) (pos : list nat) (E : target -> Prop) (sp : bool)
    (t : task) (h : store) :
  cover fs filter stamp roots (fun x => E x \/ x ∈ pending t) (sp || spoiled t) h ->
  cover fs filter stamp roots
    (fun x => E x \/ x ∈ pending (step_at fs depth false filter pos t h).1)
    (sp || spoiled (step_at fs depth false filter pos t h).1)
    (step_at fs depth false filter pos t h).2.
Proof.
  revert E sp t. induction pos as [|i pos IH]; intros E sp t Hc.
  - by apply cover_task_step.
  - destruct t as [st ps]. cbn [step_at].
    destruct (ps !! i) as [c|] eqn:Hi; [|done].
    set (S0 := match st with Loop ts => ts | _ => [] end).
    set (A := flat_map pending (take i ps)).
    set (B := flat_map pending (drop (S i) ps)).
    set (b := failed_status st || existsb spoiled (take i ps)
              || existsb spoiled (drop (S i) ps)).
    specialize (IH (fun x => E x \/ (x ∈ S0 \/ x ∈ A \/ x ∈ B)) (sp || b) c).
    destruct (step_at fs depth false filter pos c h) as [c' h'] eqn:Es.
    cbn [fst snd] in *.
    eapply cover_ext; [| |apply IH].
    + intros x. rewrite (pending_insert st ps i c c' x Hi). fold S0 A B. tauto.
    + rewrite (spoiled_insert st ps i c c' Hi). fold b. by rewrite orb_assoc.
    + assert (Hps : Task st ps = Task st (<[i := c]> ps)).
      { by rewrite list_insert_id. }
      eapply cover_ext; [| |exact Hc].
      * intros x. rewrite Hps, (pending_insert st ps i c c x Hi). fold S0 A B. tauto.
      * rewrite Hps, (spoiled_insert st ps i c c Hi). fold b. by rewrite orb_assoc.
Qed.

Lemma cover_run (depth : nat) (steps : list (list nat)) (t : task) (h : store) :
  cover fs filter stamp roots (fun x => False \/ x ∈ pending t) (false || spoiled t) h ->
  cover fs filter stamp roots
    (fun x => False \/
       x ∈ pending (run_walk depth false filter (steady_schedule fs steps) t h).1)
    (false || spoiled (run_walk depth false filter (steady_schedule fs steps) t h).1)
    (run_walk depth false filter (steady_schedule fs steps) t h).2.
Proof.
  revert t h. induction steps as [|pos steps IH]; intros t h Hc; [done|].
  cbn [steady_schedule List.map run_walk].
  pose proof (cover_step_at depth pos _ _ t h Hc) as Hs.
  destruct (step_at fs depth false filter pos t h) as [t' h'].
  by apply IH.
Qed.

Lemma all_joining_done (t : task) :
  all_joining t = true -> pending t = [] /\ spoiled t = false.
Proof.
  induction t as [st ps IH] using task_rect'.
  cbn [all_joining pending spoiled]. intros H. apply andb_prop in H as [Hst Hps].
  destruct st; try discriminate. simpl.
  induction ps as [|c ps IHps]; [done|].
  inversion IH as [|? ? Hc Hps']; subst. simpl in *.
  apply andb_prop in Hps as [H1 H2].
  destruct (Hc H1) as [-> ->]. by apply IHps.
Qed.

End Cover.

Lemma cover_start (fs : FS) (filter : FileInfo -> string -> bool) (stamp : string -> N)
    (paths : list string) (P : gmap string N) (now : Z) :
  cover fs filter stamp (List.map TPath paths)
    (fun x => False \/ x ∈ pending (Task (Loop (List.map TPath paths)) []))
    (false || spoiled (Task (Loop (List.map TPath paths)) []))
    {| prev := P; curr := ∅; changes := Changes.fresh now |}.
Proof.
  split; simpl.
  - intros x [[]|Hx]. rewrite app_nil_r in Hx.
    by apply list_elem_of_fmap in Hx as (p & -> & _).
  - intros x q [[]|Hx] Hq. rewrite app_nil_r in Hx. by exists x.
  - intros q c H. by rewrite lookup_empty in H.
  - right. intros r q Hr Hq _. right. exists r. split; [|done].
    right. by rewrite app_nil_r.
  - intros q [c H]. by rewrite lookup_empty in H.
Qed.

(** A cycle that completes over a file system at rest records exactly the
    files reached from the targets that are not named like a member of
    [Object.prototype], each with its stamp. *)
Lemma walk_records_reached (fs : FS) (filter : FileInfo -> string -> bool)
    (stamp : string -> N) (depth : nat) (steps : list (list nat))
    (paths : list string) (P : gmap string N) (now : Z) :
  steady fs stamp ->
  let r := run_walk depth false filter (steady_schedule fs steps)
             (Task (Loop (List.map TPath paths)) [])
             {| prev := P; curr := ∅; changes := Changes.fresh now |} in
  promise r.1 = Fulfilled ->
  forall q c, curr r.2 !! q = Some c <->
    c = stamp q /\ prototype_member q = false /\
    exists p, p ∈ paths /\ reaches fs filter (TPath p) q.
Proof.
  intros Hst r Hp q c. apply promise_fulfilled, all_joining_done in Hp as [Hpe Hsp].
  pose proof (cover_run fs filter stamp (List.map TPath paths) Hst depth steps _ _
                (cover_start fs filter stamp paths P now)) as [Hk Ha Hs Hc Ho].
  fold r in Hk, Ha, Hs, Hc, Ho. rewrite Hpe, Hsp in *. split.
  - intros Hq. destruct (Hs q c Hq) as (-> & x & Hx & Hxq). split; [done|].
    split; [apply Ho; by eexists|].
    apply list_elem_of_fmap in Hx as (p & -> & Hp). by exists p.
  - intros (-> & Hm & p & Hp & Hpq). destruct Hc as [Hc|Hc]; [done|].
    destruct (Hc (TPath p) q) as [[c Hq]|(x & [[]|Hx] & _)]; try done.
    + apply list_elem_of_fmap. by exists p.
    + destruct (Hs q c Hq) as [-> _]. done.
    + by apply elem_of_nil in Hx.
Qed.

(** [collect], when it completes over a file system at rest, adds to [all]
    exactly the files reached from its targets, each with its stamp; only
    the name [__proto__] it cannot add. *)
Lemma collect_records_reached (fs : FS) (filter : FileInfo -> string -> bool)
    (stamp : string -> N) (fuel : nat) :
  steady fs stamp ->
  forall (targets : list target) (all all' : gmap string N),
    (forall t, t ∈ targets -> known stamp t) ->
    all !! "__proto__" = None ->
    collect fs fuel all targets false filter = (all', Normal) ->
    (forall t q, t ∈ targets -> reaches fs filter t q -> q <> "__proto__" ->
       all' !! q = Some (stamp q)) /\
    (forall q c, all' !! q = Some c ->
       all !! q = Some c \/
       (c = stamp q /\ exists t, t ∈ targets /\ reaches fs filter t q)) /\
    (forall q, all !! q = Some (stamp q) -> all' !! q = Some (stamp q)) /\
    all' !! "__proto__" = None.
Proof.
  intros Hst. induction fuel as [|fuel IHf]; [intros ? ? ? _ _ Hc; discriminate|].
  intros tgs. induction tgs as [|f rest IHt]; intros all all' Hk Hpr Hc.
  - rewrite collect_nil in Hc. injection Hc as <-. repeat split; auto.
    intros t q Ht. by apply elem_of_nil in Ht.
  - assert (Hkf : known stamp f) by (apply Hk; left).
    assert (Hkr : forall t, t ∈ rest -> known stamp t) by (intros t Ht; apply Hk; by right).
    assert (Hskip : (forall q, ~ reaches fs filter f q) ->
              collect fs (S fuel) all rest false filter = (all', Normal) ->
              (forall t q, t ∈ f :: rest -> reaches fs filter t q -> q <> "__proto__" ->
                 all' !! q = Some (stamp q)) /\
              (forall q c, all' !! q = Some c ->
                 all !! q = Some c \/
                 (c = stamp q /\ exists t, t ∈ f :: rest /\ reaches fs filter t q)) /\
              (forall q, all !! q = Some (stamp q) -> all' !! q = Some (stamp q)) /\
              all' !! "__proto__" = None).
    { intros Hno Hr. destruct (IHt all all' Hkr Hpr Hr) as (Ha & Hb & Hcc & Hpp).
      repeat split; [| |exact Hcc|exact Hpp].
      - intros t q Ht Hq. apply elem_of_cons in Ht as [->|Ht]; [by apply Hno in Hq|eauto].
      - intros q c Hq. destruct (Hb q c Hq) as [?|(-> & t & Ht & Htq)]; [by left|].
        right. split; [done|]. exists t. split; [by right | done]. }
    rewrite collect_cons, collect_locate_off in Hc.
    destruct (locate fs f) as [e|l] eqn:El.
    { destruct (is_NotFound e); [|discriminate].
      apply Hskip; [|done]. by eapply no_reach_error. }
    rewrite (locate_link fs f l El) in Hc.
    destruct (String.eqb_spec (l_path l) "") as [Hp|Hp]; [discriminate|].
    destruct (filter (l_info l) (l_path l)) eqn:Hf; cbn [negb] in Hc.
    2:{ apply Hskip; [|done]. by eapply no_reach_filtered. }
    destruct (isDirectory (l_info l)) eqn:Hd.
    + destruct (readDir fs (l_path l)) as [e|entries] eqn:Hr; [discriminate|].
      destruct (collect fs fuel all (List.map TInfo entries) false filter)
        as [all1 [| |]] eqn:Hc1; try discriminate.
      assert (Hke : forall t, t ∈ List.map TInfo entries -> known stamp t).
      { intros t Ht. apply list_elem_of_fmap in Ht as (i & -> & Hi).
        by apply (proj2 Hst _ _ _ Hr). }
      destruct (IHf _ _ _ Hke Hpr Hc1) as (Ha1 & Hb1 & Hc1' & Hp1).
      destruct (IHt _ _ Hkr Hp1 Hc) as (Ha2 & Hb2 & Hc2 & Hp2).
      repeat split; [| | |exact Hp2].
      * intros t q Ht Hq Hne. apply elem_of_cons in Ht as [->|Ht]; [|eauto].
        apply Hc2.
        apply reaches_inv in Hq as (l' & El' & _ & _ & [[Hfile _]|(_ & es & f' & Hes & Hf' & Hq)]);
          rewrite El in El'; injection El' as <-.
        -- rewrite (file_not_directory _ Hfile) in Hd. discriminate.
        -- rewrite Hr in Hes. injection Hes as <-.
           apply (Ha1 (TInfo f')); [|done..]. apply list_elem_of_fmap. by exists f'.
      * intros q c Hq. destruct (Hb2 q c Hq) as [Hq1|(-> & t & Ht & Htq)].
        -- destruct (Hb1 q c Hq1) as [?|(-> & t & Ht & Htq)]; [by left|].
           right. split; [done|]. exists f. split; [by left|].
           apply list_elem_of_fmap in Ht as (i & -> & Hi). by eapply reaches_dir.
        -- right. split; [done|]. exists t. split; [by right | done].
      * intros q Hq. by apply Hc2, Hc1'.
    + destruct (isFile (l_info l)) eqn:Hk'.
      2:{ apply Hskip; [|done]. by eapply no_reach_other. }
      destruct (locate_known fs stamp f l Hst Hkf El) as [Htime Hnz].
      fold (time_of (l_info l)) in Hc. rewrite Htime in Hc.
      assert (Hpa : assign all (l_path l) (stamp (l_path l)) !! "__proto__" = None).
      { destruct (decide (l_path l = "__proto__")) as [Heq|Hne].
        - rewrite Heq. unfold assign. by rewrite Hpr.
        - by rewrite assign_lookup_ne. }
      destruct (IHt _ _ Hkr Hpa Hc) as (Ha2 & Hb2 & Hc2 & Hp2).
      repeat split; [| | |exact Hp2].
      * intros t q Ht Hq Hne. apply elem_of_cons in Ht as [->|Ht]; [|eauto].
        apply Hc2.
        apply reaches_inv in Hq as (l' & El' & _ & _ & [[_ ->]|[Hd' _]]);
          rewrite El in El'; injection El' as <-.
        -- rewrite assign_lookup_eq.
           destruct (String.eqb_spec (l_path l) "__proto__"); [contradiction | done].
        -- congruence.
      * intros q c Hq. destruct (Hb2 q c Hq) as [Hq1|(-> & t & Ht & Htq)].
        -- apply assign_new in Hq1 as [Hq1|(-> & -> & _)]; [by left|].
           right. split; [done|]. exists f. split; [by left|]. by eapply reaches_file.
        -- right. split; [done|]. exists t. split; [by right | done].
      * intros q Hq. apply Hc2. destruct (decide (l_path l = q)) as [<-|Hne].
        -- unfold assign. rewrite Hq. by rewrite lookup_insert_eq.
        -- by rewrite assign_lookup_ne.
Qed.

Lemma reaches_stamp (fs : FS) (filter : FileInfo -> string -> bool)
    (stamp : string -> N) (t : target) (q : string) :
  steady fs stamp -> known stamp t -> reaches fs filter t q -> stamp q <> 0%N.
Proof.
  intros Hst Hk Hr. induction Hr as [t l El _ _ _|t l entries f q El _ _ _ Hr Hf _ IH].
  - by destruct (locate_known fs stamp t l Hst Hk El).
  - apply IH. by apply (proj2 Hst _ _ _ Hr).
Qed.

Lemma no_elements {A : Type} (l : list A) : (forall x, x ∉ l) -> l = [].
Proof. destruct l as [|a l]; [done|]. intros H. destruct (H a). by left. Qed.

(** X2.  When links are not followed, the file system is at rest (every
    path has one, non-falsy, time) and no path that [init] put into the
    snapshot is named like a member of [Object.prototype], the cycle that
    follows [init] reports nothing and leaves the snapshot as [init] made
    it. *)
Theorem init_then_detect_at_rest (fs : FS) (stamp : string -> N)
    (fuel depth : nat) (steps : list (list nat)) (paths : list string)
    (o : DetectorOptions) (t0 t1 : Z) (d d' : Detector) (c : Changes.t) :
  followSymlink o = false -> steady fs stamp ->
  init fs fuel (newDetector paths o) = (d, Normal) ->
  (forall q, is_Some (files d !! q) -> prototype_member q = false) ->
  detectChanges depth (steady_schedule fs steps) t0 t1 d = Resolved c d' ->
  Changes.added c = [] /\ Changes.modified c = [] /\ Changes.deleted c = [] /\
  files d' = files d.
Proof.
  intros Hfo Hst Hinit Hplain Hdet.
  unfold init, newDetector in Hinit. cbn [files targets options] in Hinit.
  rewrite Hfo in Hinit.
  destruct (collect fs fuel ∅ (List.map TPath paths) false (makeFilter o))
    as [all comp] eqn:Hcol.
  injection Hinit as <- ->. unfold set_files in *. cbn [files targets options] in *.
  assert (Hkn : forall t, t ∈ List.map TPath paths -> known stamp t).
  { intros t Ht. by apply list_elem_of_fmap in Ht as (p & -> & _). }
  destruct (collect_records_reached fs (makeFilter o) stamp fuel Hst _ _ _ Hkn
              (lookup_empty _) Hcol) as (Ha & Hb & _).
  assert (Hall : forall q v, all !! q = Some v -> v <> 0%N).
  { intros q v Hq. destruct (Hb q v Hq) as [H|(-> & t & Ht & Htq)].
    - by rewrite lookup_empty in H.
    - apply list_elem_of_fmap in Ht as (p & -> & _).
      by eapply (reaches_stamp fs (makeFilter o) stamp (TPath p)). }
  assert (Hsame : files d' = all).
  { revert Hdet. unfold detectChanges, walk_start. cbn [files targets options].
    rewrite Hfo.
    pose proof (walk_records_reached fs (makeFilter o) stamp depth steps paths all t0 Hst)
      as Hw.
    destruct (run_walk _ _ _ _ _ _) as [t h]. cbn [fst snd] in Hw.
    destruct (promise t); try discriminate. intros [= _ <-]. simpl.
    specialize (Hw eq_refl). apply map_eq. intros q.
    destruct (curr h !! q) as [v|] eqn:Hq.
    - apply Hw in Hq as (-> & Hm & p & Hp & Hpq). symmetry.
      apply (Ha (TPath p)); [|done|].
      + apply list_elem_of_fmap. by exists p.
      + intros ->. by rewrite proto_is_member in Hm.
    - destruct (all !! q) as [v|] eqn:Hq'; [|done].
      destruct (Hb q v Hq') as [H|(-> & t' & Ht & Htq)].
      + by rewrite lookup_empty in H.
      + apply list_elem_of_fmap in Ht as (p & -> & Hp).
        assert (Hm : prototype_member q = false) by (apply Hplain; by eexists).
        assert (Hsome : curr h !! q = Some (stamp q)) by (apply Hw; eauto).
        congruence. }
  assert (Hsch : Forall (fun s : FS * list nat => timed_fs s.1) (steady_schedule fs steps)).
  { apply Forall_forall. intros s Hs. apply list_elem_of_fmap in Hs as (pos & -> & _).
    by eapply steady_timed. }
  pose proof (diff_classification depth (steady_schedule fs steps) t0 t1
                {| files := all; targets := paths; options := o |} d' c Hall Hsch Hdet)
    as Hdiff.
  cbn [files] in Hdiff. rewrite Hsame in Hdiff.
  repeat split; try done; apply no_elements; intros p Hp;
    destruct (Hdiff p) as (H1 & H2 & H3).
  - apply H1 in Hp as [[v Hv] Hn]. congruence.
  - apply H2 in Hp as (v & w & Hv & Hw & Hlt). rewrite Hv in Hw.
    injection Hw as ->. lia.
  - apply H3 in Hp as [[v Hv] Hn]. congruence.
Qed.

(** ** Runs on concrete file systems *)

(** C1 (the code at the failing input).  A file for which the platform
    provides neither time is tracked by [init] with a falsy time; the next
    cycle over the unchanged file system lists it as added, although it is
    present in the previous snapshot with an equal time. *)
Theorem untimed_file_listed_as_added :
  init (fs_of untimed_disk) 2 (newDetector ["a"] defaultOptions)
    = (untimed_detector, Normal) /\
  detectChanges 0 untimed_schedule 0 1 untimed_detector
    = Resolved {| Changes.added := ["a"]; Changes.modified := [];
                  Changes.deleted := []; Changes.startTime := 0;
                  Changes.endTime := 1; Changes.fileCount := 1 |}
               untimed_detector.
Proof. split; by vm_compute. Qed.

(** C3 (the code at the failing input).  With symlink-following on, [init]
    files a link to a link under the target of the first link, while [walk]
    files it under the end of the chain: the first cycle after [init], over
    the unchanged file system, lists one path as added and one as deleted. *)
Theorem init_then_detect_chain :
  init (fs_of chain_disk) 5 (newDetector ["d"] chain_options)
    = (chain_detector, Normal) /\
  detectChanges 5 chain_schedule 0 1 chain_detector
    = Resolved {| Changes.added := ["x/f"]; Changes.modified := [];
                  Changes.deleted := ["x/l2"]; Changes.startTime := 0;
                  Changes.endTime := 1; Changes.fileCount := 1 |}
               (set_files chain_detector {[ "x/f" := 7%N ]}).
Proof. split; by vm_compute. Qed.

(** ** Instances *)

Lemma symlink_entry_ignored_witness :
  (isSymlink chain_entry = true /\ path chain_entry <> "") /\
  task_step (fs_of chain_disk) 0 false (makeFilter defaultOptions)
    (Task (Loop [TInfo chain_entry]) []) empty_store
  = (Task (Loop []) [], empty_store).
Proof.
  split; [split; [reflexivity | discriminate]|].
  apply (symlink_entry_ignored (fs_of chain_disk) 0 0 (makeFilter defaultOptions)
           chain_entry [] [] empty_store ∅); [reflexivity | discriminate].
Defined.

Lemma report_lists_disjoint_witness :
  detectChanges 0 untimed_schedule 0 1 untimed_detector
    = Resolved {| Changes.added := ["a"]; Changes.modified := [];
                  Changes.deleted := []; Changes.startTime := 0;
                  Changes.endTime := 1; Changes.fileCount := 1 |}
               untimed_detector /\
  ~ ("a" ∈ ["a"] /\ "a" ∈ @nil string).
Proof.
  split; [by vm_compute|].
  apply (report_lists_disjoint 0 untimed_schedule 0 1 untimed_detector
           untimed_detector
           {| Changes.added := ["a"]; Changes.modified := [];
              Changes.deleted := []; Changes.startTime := 0;
              Changes.endTime := 1; Changes.fileCount := 1 |}).
  by vm_compute.
Defined.

Lemma snapshot_consumed_in_place_witness :
  detectChanges 0 denied_schedule 0 1 denied_detector
    = Failed (set_files denied_detector ∅) /\
  files (set_files denied_detector ∅) =
  prev (run_walk 0 false (makeFilter defaultOptions) denied_schedule
          (walk_start denied_detector 0).1 (walk_start denied_detector 0).2).2.
Proof.
  split; [by vm_compute|].
  apply (proj1 (proj2 (snapshot_consumed_in_place 0 denied_schedule 0 1 denied_detector))).
  by vm_compute.
Defined.

Lemma stat_errors_witness :
  (walk_locate (fs_of denied_disk) 0 false (TPath "b")
     = Some (inl (DenoError "PermissionDenied")) /\
   DenoError "PermissionDenied" <> NotFound) /\
  task_step (fs_of denied_disk) 0 false (makeFilter defaultOptions)
    (Task (Loop [TPath "b"]) []) empty_store
  = (Task (Threw (DenoError "PermissionDenied")) [], empty_store).
Proof.
  split; [split; [reflexivity | discriminate]|].
  apply (proj1 (proj2 (stat_errors (fs_of denied_disk) 0 0 false
                         (makeFilter defaultOptions) (TPath "b") [])));
    [reflexivity | discriminate].
Defined.

Lemma cancellation_witness :
  the_timer (run_events [] (start 1000 0 5)) = TimerPending /\
  ended (run_step Cancel (run_events [] (start 1000 0 5))) = HandleResolved.
Proof.
  split; [reflexivity|].
  apply (proj1 (cancellation 1000 0 5 [])). reflexivity.
Defined.

Lemma polling_cadence_witness :
  (where_ (run_events [TimerFires; Resumes 1000; ScanDone one_added 1010; CallbackDone 1400]
             (start 1000 0 5)) = AtTimer /\
   waitTime (run_events [TimerFires; Resumes 1000; ScanDone one_added 1010; CallbackDone 1400]
               (start 1000 0 5)) = Z.max 0 (1000 - (1400 - 990))) /\
  (* a scan without changes: nothing is delivered, the next wait counts
     from the start of that scan *)
  (where_ (run_events [TimerFires; Resumes 2000] (start 1000 0 5)) = AtScan /\
   Changes.length no_change = 0%nat /\
   delivered (run_events [TimerFires; Resumes 2000; ScanDone no_change 2300]
                (start 1000 0 5)) = [] /\
   where_ (run_events [TimerFires; Resumes 2000; ScanDone no_change 2300]
             (start 1000 0 5)) = AtTimer /\
   waitTime (run_events [TimerFires; Resumes 2000; ScanDone no_change 2300]
               (start 1000 0 5)) = Z.max 0 (1000 - (2300 - 2001))).
Proof.
  split.
  - split; [reflexivity|].
    apply (proj1 (proj2 (polling_cadence 1000 0 5
             [TimerFires; Resumes 1000; ScanDone one_added 1010; CallbackDone 1400]))).
    reflexivity.
  - pose proof (proj1 (proj2 (proj2 (polling_cadence 1000 0 5 [TimerFires; Resumes 2000])))
                  eq_refl eq_refl no_change 2300%Z) as H.
    cbv zeta in H. change (Nat.eqb (Changes.length no_change) 0) with true in H.
    cbv iota in H. destruct H as (_ & _ & Hdel & Hwh & _ & _ & Hwait).
    exact (conj eq_refl (conj eq_refl (conj Hdel (conj Hwh Hwait)))).
Defined.

Lemma plain_disk_steady : steady (fs_of plain_disk) plain_stamp.
Proof.
  split.
  - intros p i. unfold fs_of, lstat, plain_disk, find_node.
    destruct (String.eqb_spec "d" p) as [<-|_]; [by intros [= <-]|].
    destruct (String.eqb_spec "d/f" p) as [<-|_]; [by intros [= <-]|].
    discriminate.
  - intros dir l i. unfold fs_of, readDir, plain_disk, find_node.
    destruct (String.eqb_spec "d" dir) as [<-|_].
    + intros [= <-] Hi. simpl in Hi. apply list_elem_of_singleton in Hi as ->. done.
    + destruct (String.eqb_spec "d/f" dir) as [<-|_]; discriminate.
Qed.

Lemma plain_detector_plain (q : string) :
  is_Some (files plain_detector !! q) -> prototype_member q = false.
Proof. simpl. by intros [v [<- _]%lookup_singleton_Some]. Qed.

Lemma init_then_detect_at_rest_witness :
  (init (fs_of plain_disk) 3 (newDetector ["d"] defaultOptions)
     = (plain_detector, Normal) /\
   detectChanges 0 (steady_schedule (fs_of plain_disk) plain_steps) 0 1 plain_detector
     = Resolved plain_report plain_detector) /\
  Changes.added plain_report = [] /\ Changes.modified plain_report = [] /\
  Changes.deleted plain_report = [] /\ files plain_detector = files plain_detector.
Proof.
  assert (Hi : init (fs_of plain_disk) 3 (newDetector ["d"] defaultOptions)
               = (plain_detector, Normal)) by (by vm_compute).
  assert (Hd : detectChanges 0 (steady_schedule (fs_of plain_disk) plain_steps) 0 1
                 plain_detector = Resolved plain_report plain_detector)
    by (by vm_compute).
  split; [by split|].
  exact (init_then_detect_at_rest (fs_of plain_disk) plain_stamp 3 0 plain_steps
           ["d"] defaultOptions 0 1 plain_detector plain_detector plain_report
           eq_refl plain_disk_steady Hi plain_detector_plain Hd).
Defined.

(** The repository's test [Watch], cycle by cycle: nothing, one file added,
    the same file modified, the same file deleted. *)
Example watch_test :
  let d0 := (init (fs_of test_empty) 3 (newDetector ["tmp"] defaultOptions)).1 in
  let r1 := detectChanges 0 (test_steps test_empty) 0 1 d0 in
  let r2 := detectChanges 0 (test_steps test_created) 2 3 (detector_of d0 r1) in
  let r3 := detectChanges 0 (test_steps test_touched) 4 5 (detector_of d0 r2) in
  let r4 := detectChanges 0 (test_steps test_empty) 6 7 (detector_of d0 r3) in
  report_of r1 = Some ([], [], []) /\
  report_of r2 = Some (["tmp/f"], [], []) /\
  report_of r3 = Some ([], ["tmp/f"], []) /\
  report_of r4 = Some ([], [], ["tmp/f"]).
Proof. by vm_compute. Qed.

(** * Further properties of the code *)

(** ** Two ways to carry a property of the store through a cycle *)

(** An iteration that goes on either leaves the store alone or records the
    regular file it located and the filter accepted. *)
Lemma walk_body_next (fs : FS) (depth : nat) (fo : bool)
    (filter : FileInfo -> string -> bool) (f : target) (h h' : store) :
  walk_body fs depth fo filter f h = Next h' ->
  h' = h \/
  exists l, walk_locate fs depth fo f = Some (inr l) /\ l_path l <> "" /\
    filter (l_info l) (str_or (l_linkPath l) (l_path l)) = true /\
    isFile (l_info l) = true /\ h' = record_file (l_path l) (l_info l) h.
Proof.
  unfold walk_body.
  destruct (walk_locate fs depth fo f) as [[e|l]|]; [| |discriminate].
  - destruct (is_NotFound e); [|discriminate]. intros [= <-]. by left.
  - destruct (String.eqb_spec (l_path l) "") as [|Hp]; [discriminate|].
    destruct (filter (l_info l) _) eqn:Hf; cbn [negb]; [|intros [= <-]; by left].
    destruct (isDirectory (l_info l)).
    + destruct (readDir fs (l_path l)); discriminate.
    + destruct (isFile (l_info l)) eqn:Hk; intros [= <-]; [|by left].
      right. by exists l.
Qed.

Section Guarded.
Variables (Q : target -> bool) (Phi : store -> Prop) (ok_fs : FS -> Prop).
Variables (depth : nat) (fo : bool) (filter : FileInfo -> string -> bool).
Hypothesis ok_list : forall fs dir l,
  ok_fs fs -> readDir fs dir = inr l -> forallb Q (List.map TInfo l) = true.
Hypothesis ok_body : forall fs f h h',
  ok_fs fs -> Q f = true -> walk_body fs depth fo filter f h = Next h' ->
  Phi h -> Phi h'.

Lemma guarded_insert (ps : list task) (i : nat) (c' : task) :
  forallb (guarded Q) ps = true -> guarded Q c' = true ->
  forallb (guarded Q) (<[i := c']> ps) = true.
Proof.
  revert i. induction ps as [|x ps IH]; intros i Hps Hc; [done|].
  simpl in Hps. apply andb_prop in Hps as [Hx Hps].
  destruct i as [|i]; simpl; apply andb_true_intro; split; auto.
Qed.

Lemma guarded_lookup (ps : list task) (i : nat) (c : task) :
  forallb (guarded Q) ps = true -> ps !! i = Some c -> guarded Q c = true.
Proof.
  revert i. induction ps as [|x ps IH]; intros i Hps Hi; [done|].
  simpl in Hps. apply andb_prop in Hps as [Hx Hps].
  destruct i as [|i]; simpl in Hi; [by injection Hi as <- | eauto].
Qed.

Lemma step_at_guarded (fs : FS) (pos : list nat) (t : task) (h : store) :
  ok_fs fs -> guarded Q t = true -> Phi h ->
  guarded Q (step_at fs depth fo filter pos t h).1 = true /\
  Phi (step_at fs depth fo filter pos t h).2.
Proof.
  intros Hfs. revert t. induction pos as [|i pos IH]; intros t Ht Hphi.
  - destruct t as [[[|f rest]| | |] ps]; simpl in *; try done.
    apply andb_prop in Ht as [Hl Hps]. apply andb_prop in Hl as [Hf Hrest].
    destruct (walk_body fs depth fo filter f h) as [h'|entries| |] eqn:Hb; simpl.
    + rewrite Hrest, Hps. split; [done|]. by eapply ok_body.
    + rewrite Hrest, forallb_app, Hps. simpl. split; [|done].
      rewrite !andb_true_r. revert Hb. unfold walk_body.
      destruct (walk_locate fs depth fo f) as [[e|l]|]; [| |discriminate].
      * by destruct (is_NotFound e).
      * destruct (String.eqb (l_path l) ""); [discriminate|].
        destruct (negb _); [discriminate|].
        destruct (isDirectory (l_info l)); [|by destruct (isFile (l_info l))].
        destruct (readDir fs (l_path l)) as [e|es] eqn:Hr; [discriminate|].
        intros [= <-]. by eapply ok_list.
    + done.
    + done.
  - destruct t as [st ps]. cbn [step_at].
    destruct (ps !! i) as [c|] eqn:Hi; [|done].
    simpl in Ht. apply andb_prop in Ht as [Hst Hps].
    specialize (IH c (guarded_lookup ps i c Hps Hi) Hphi).
    destruct (step_at fs depth fo filter pos c h) as [c' h']. simpl in *.
    destruct IH as [IH1 IH2]. split; [|done].
    rewrite Hst. simpl. by apply guarded_insert.
Qed.

Lemma run_walk_guarded (sch : schedule) (t : task) (h : store) :
  Forall (fun s => ok_fs s.1) sch -> guarded Q t = true -> Phi h ->
  Phi (run_walk depth fo filter sch t h).2.
Proof.
  intros Hsch. revert t h.
  induction Hsch as [|[fs pos] sch Hfs Hsch IH]; intros t h Ht Hphi; [done|].
  cbn [run_walk].
  pose proof (step_at_guarded fs pos t h Hfs Ht Hphi) as [H1 H2].
  destruct (step_at fs depth fo filter pos t h) as [t' h'].
  by apply IH.
Qed.
End Guarded.

Lemma guarded_paths (Q : target -> bool) (paths : list string) :
  (forall p, Q (TPath p) = true) ->
  guarded Q (Task (Loop (List.map TPath paths)) []) = true.
Proof.
  intros HQ. simpl. rewrite andb_true_r.
  induction paths as [|p ps IH]; [done|]. simpl. by rewrite HQ, IH.
Qed.

Lemma any_target_all (l : list target) : forallb any_target l = true.
Proof. by induction l. Qed.

Lemma any_schedule (sch : schedule) : Forall (fun s : FS * list nat => True) sch.
Proof. by apply Forall_forall. Qed.

(** What a resolved call of [detectChanges] is made of. *)
Lemma detectChanges_resolved (depth : nat) (sch : schedule) (t0 t1 : Z)
    (d d' : Detector) (c : Changes.t) :
  detectChanges depth sch t0 t1 d = Resolved c d' ->
  exists t h,
    run_walk depth (followSymlink (options d)) (makeFilter (options d)) sch
      (Task (Loop (List.map TPath (targets d))) [])
      {| prev := files d; curr := ∅; changes := Changes.fresh t0 |} = (t, h) /\
    promise t = Fulfilled /\ walk_inv (files d) h /\
    c = Changes.finish (keys (prev h)) (size (curr h)) t1 (changes h) /\
    d' = set_files d (curr h).
Proof.
  unfold detectChanges, walk_start. intros H.
  pose proof (run_walk_inv (files d) depth (followSymlink (options d))
                (makeFilter (options d)) sch
                (Task (Loop (List.map TPath (targets d))) [])
                _ (walk_inv_start (files d) t0)) as Hinv.
  destruct (run_walk _ _ _ _ _ _) as [t h]. simpl in Hinv.
  destruct (promise t) eqn:Hp; try discriminate. injection H as <- <-.
  by exists t, h.
Qed.

(** ** What every report says *)

Lemma record_file_modified_once (P : gmap string N) (p0 : string) (info : FileInfo)
    (h : store) :
  walk_inv P h -> NoDup (Changes.modified (changes h)) ->
  NoDup (Changes.modified (changes (record_file p0 info h))).
Proof.
  intros [Hprev _ Hmod _ _ _ Hown] Hnd. unfold record_file.
  destruct (truthy (curr h) p0) eqn:Hc; [done|].
  destruct (truthy (prev h) p0) eqn:Hp; cbn [negb]; simpl; [|done].
  destruct (match prev h !! p0 with Some v => _ | None => false end); simpl; [|done].
  apply NoDup_app. split; [done|]. split; [|apply NoDup_singleton].
  intros x Hx Hx0. apply list_elem_of_singleton in Hx0 as ->.
  apply Hmod in Hx as (v & c & _ & Hcv & Hlt).
  apply truthy_false in Hc as [[Hc _]|Hc]; rewrite Hcv in Hc; [done|].
  injection Hc as ->. lia.
Qed.

Lemma record_file_added_once (P : gmap string N) (p0 : string) (info : FileInfo)
    (h : store) :
  walk_inv P h -> timed_inv P h -> NoDup (Changes.added (changes h)) ->
  NoDup (Changes.added (changes (record_file p0 info h))).
Proof.
  intros [_ Hadd _ _ _ _ Hown] [Hcurr _ _] Hnd. unfold record_file.
  destruct (truthy (curr h) p0) eqn:Hc; [done|].
  destruct (truthy (prev h) p0) eqn:Hp; cbn [negb]; simpl.
  { by destruct (match prev h !! p0 with Some v => _ | None => false end). }
  apply NoDup_app. split; [done|]. split; [|apply NoDup_singleton].
  intros x Hx Hx0. apply list_elem_of_singleton in Hx0 as ->.
  apply Hadd in Hx as [c Hcv].
  apply truthy_false in Hc as [[Hc _]|Hc]; rewrite Hcv in Hc; [done|].
  injection Hc as ->. by apply Hcurr in Hcv.
Qed.

(** The store at the end of any run: the invariant, and no path listed
    twice as modified. *)
Lemma run_walk_modified_once (P : gmap string N) (depth : nat) (fo : bool)
    (filter : FileInfo -> string -> bool) (sch : schedule) (paths : list string)
    (now : Z) :
  let h := (run_walk depth fo filter sch (Task (Loop (List.map TPath paths)) [])
              {| prev := P; curr := ∅; changes := Changes.fresh now |}).2 in
  walk_inv P h /\ NoDup (Changes.modified (changes h)).
Proof.
  apply (run_walk_guarded any_target
           (fun h => walk_inv P h /\ NoDup (Changes.modified (changes h)))
           (fun _ => True)).
  - intros fs dir l _ _. by induction l.
  - intros fs f h h' _ _ Hb [Hw Hn].
    destruct (walk_body_next _ _ _ _ _ _ _ Hb) as [->|(l & _ & _ & _ & _ & ->)]; [done|].
    split; [by apply record_file_inv | by eapply record_file_modified_once].
  - apply any_schedule.
  - by apply guarded_paths.
  - split; [apply walk_inv_start | apply NoDup_nil_2].
Qed.

(** The store at the end of a run that met only timed entries. *)
Lemma run_walk_timed_store (P : gmap string N) (depth : nat) (fo : bool)
    (filter : FileInfo -> string -> bool) (sch : schedule) (paths : list string)
    (now : Z) :
  (forall p v, P !! p = Some v -> v <> 0%N) ->
  Forall (fun s => timed_fs s.1) sch ->
  let h := (run_walk depth fo filter sch (Task (Loop (List.map TPath paths)) [])
              {| prev := P; curr := ∅; changes := Changes.fresh now |}).2 in
  walk_inv P h /\ timed_inv P h /\ NoDup (Changes.added (changes h)).
Proof.
  intros HP Hsch.
  apply (run_walk_guarded timed_target
           (fun h => walk_inv P h /\ timed_inv P h /\ NoDup (Changes.added (changes h)))
           timed_fs); try done.
  - intros fs dir l Hfs Hr. rewrite timed_entries. by apply (proj2 Hfs dir).
  - intros fs f h h' Hfs Hf Hb (Hw & Ht & Hn).
    destruct (walk_body_next _ _ _ _ _ _ _ Hb) as [->|(l & Hl & _ & _ & _ & ->)]; [done|].
    pose proof (walk_locate_timed fs depth fo f l Hfs Hf Hl) as Htl.
    split; [by apply record_file_inv|].
    split; [by apply record_file_timed | by eapply record_file_added_once].
  - by apply guarded_paths.
  - split; [apply walk_inv_start|]. split; [apply timed_inv_start | apply NoDup_nil_2].
Qed.

Lemma record_file_startTime (p0 : string) (info : FileInfo) (h : store) :
  Changes.startTime (changes (record_file p0 info h)) = Changes.startTime (changes h).
Proof.
  unfold record_file. destruct (truthy (curr h) p0); [done|].
  destruct (truthy (prev h) p0); cbn [negb]; simpl; [|done].
  by destruct (match prev h !! p0 with Some v => _ | None => false end).
Qed.

Lemma run_walk_startTime (depth : nat) (fo : bool)
    (filter : FileInfo -> string -> bool) (sch : schedule) (paths : list string)
    (P : gmap string N) (now : Z) :
  Changes.startTime
    (changes (run_walk depth fo filter sch (Task (Loop (List.map TPath paths)) [])
                {| prev := P; curr := ∅; changes := Changes.fresh now |}).2) = now.
Proof.
  apply (run_walk_guarded any_target
           (fun h => Changes.startTime (changes h) = now) (fun _ => True)); try done.
  - intros fs dir l _ _. by induction l.
  - intros fs f h h' _ _ Hb Hs.
    destruct (walk_body_next _ _ _ _ _ _ _ Hb) as [->|(l & _ & _ & _ & _ & ->)]; [done|].
    by rewrite record_file_startTime.
  - apply any_schedule.
  - by apply guarded_paths.
Qed.

(** X6.  Whatever the times and the interleaving, a report and the
    snapshot that replaces the previous one [P] fit together: the deleted
    paths are exactly the paths of [P] that are not in the new snapshot,
    every added or modified path is in the new snapshot, every path of the
    new snapshot that is not in [P] is added, [fileCount] is the size of the
    new snapshot, and targets and options are left alone. *)
Theorem report_and_snapshot (depth : nat) (sch : schedule) (t0 t1 : Z)
    (d d' : Detector) (c : Changes.t) :
  detectChanges depth sch t0 t1 d = Resolved c d' ->
  (forall p, p ∈ Changes.deleted c <->
             is_Some (files d !! p) /\ files d' !! p = None) /\
  (forall p, p ∈ Changes.added c \/ p ∈ Changes.modified c ->
             is_Some (files d' !! p)) /\
  (forall p, is_Some (files d' !! p) -> files d !! p = None -> p ∈ Changes.added c) /\
  Changes.fileCount c = size (files d') /\
  Changes.startTime c = t0 /\ Changes.endTime c = t1 /\
  targets d' = targets d /\ options d' = options d.
Proof.
  intros H. apply detectChanges_resolved in H as (t & h & Hrun & _ & Hinv & -> & ->).
  pose proof (run_walk_startTime depth (followSymlink (options d))
                (makeFilter (options d)) sch (targets d) (files d) t0) as Hst.
  rewrite Hrun in Hst. simpl in Hst.
  destruct Hinv as [Hprev Hadd Hmod _ Hdel Hnew Hown]. simpl. rewrite Hdel. simpl.
  repeat split; try done.
  - apply elem_of_keys in H as [v Hv]. specialize (Hprev p). rewrite Hv in Hprev.
    destruct (curr h !! p); [done|]. by eexists.
  - apply elem_of_keys in H as [v Hv]. specialize (Hprev p). rewrite Hv in Hprev.
    by destruct (curr h !! p).
  - intros [[v Hv] Hn]. apply elem_of_keys. specialize (Hprev p).
    rewrite Hn in Hprev. rewrite Hprev. by eexists.
  - intros p [Hp|Hp]; [by apply Hadd|].
    apply Hmod in Hp as (v & w & _ & Hw & _). by eexists.
  - intros p Hs Hn. apply Hnew; [done|]. apply truthy_false. left. auto.
Qed.

(** X5.  A detector that was never initialised ([files] still empty)
    reports every file it records as added, and nothing as modified or
    deleted: what the doc comment of [init] warns of. *)
Theorem first_cycle_without_init (depth : nat) (sch : schedule) (t0 t1 : Z)
    (d d' : Detector) (c : Changes.t) :
  files d = ∅ ->
  detectChanges depth sch t0 t1 d = Resolved c d' ->
  (forall p, p ∈ Changes.added c <-> is_Some (files d' !! p)) /\
  Changes.modified c = [] /\ Changes.deleted c = [].
Proof.
  intros He H. apply detectChanges_resolved in H as (t & h & _ & _ & Hinv & -> & ->).
  rewrite He in Hinv. destruct Hinv as [Hprev Hadd Hmod _ Hdel Hnew Hown].
  simpl. rewrite Hdel. simpl. repeat split.
  - by apply Hadd.
  - intros Hs. apply Hnew; [done|]. apply truthy_false. left.
    rewrite lookup_empty. auto.
  - apply no_elements. intros p Hp. apply Hmod in Hp as (v & w & Hv & _).
    by rewrite lookup_empty in Hv.
  - apply no_elements. intros p Hp. apply elem_of_keys in Hp as [v Hv].
    specialize (Hprev p). rewrite Hv, lookup_empty in Hprev.
    by destruct (curr h !! p).
Qed.

(** X1.  The classification when every entry met carries a time and the
    previous snapshot [P] holds no falsy time: the added paths are the paths
    of the new snapshot [C] that are not in [P], the modified paths are those
    of [C] that [P] holds with a strictly earlier time, and a path that [P]
    holds with an equal or later time is in none of the three lists. *)
Theorem classification_when_timed (depth : nat) (sch : schedule) (t0 t1 : Z)
    (d d' : Detector) (c : Changes.t) :
  (forall p v, files d !! p = Some v -> v <> 0%N) ->
  Forall (fun s => timed_fs s.1) sch ->
  detectChanges depth sch t0 t1 d = Resolved c d' ->
  forall p,
    (p ∈ Changes.added c <-> is_Some (files d' !! p) /\ files d !! p = None) /\
    (p ∈ Changes.modified c <->
       exists v w, files d !! p = Some v /\ files d' !! p = Some w /\ (v < w)%N) /\
    (forall v w, files d !! p = Some v -> files d' !! p = Some w -> (w <= v)%N ->
       (p ∉ Changes.added c) /\ (p ∉ Changes.modified c) /\ (p ∉ Changes.deleted c)).
Proof.
  intros HP Hsch H p.
  destruct (diff_classification depth sch t0 t1 d d' c HP Hsch H p) as (Ha & Hm & Hd).
  split; [exact Ha|]. split; [exact Hm|].
  intros v w Hv Hw Hle. repeat split.
  - intros Hp. apply Ha in Hp as [_ Hn]. congruence.
  - intros Hp. apply Hm in Hp as (v' & w' & Hv' & Hw' & Hlt).
    rewrite Hv in Hv'. rewrite Hw in Hw'. simplify_eq. lia.
  - intros Hp. apply Hd in Hp as [_ Hn]. congruence.
Qed.

(** X7.  No path is listed twice as modified or twice as deleted.  When
    every entry met carries a time and the previous snapshot holds no falsy
    time, no path is listed twice as added either, so [Changes.all] names
    every changed path once and [Changes.length] counts the changed paths. *)
Theorem changes_listed_once (depth : nat) (sch : schedule) (t0 t1 : Z)
    (d d' : Detector) (c : Changes.t) :
  detectChanges depth sch t0 t1 d = Resolved c d' ->
  NoDup (Changes.modified c) /\ NoDup (Changes.deleted c) /\
  ((forall p v, files d !! p = Some v -> v <> 0%N) ->
   Forall (fun s => timed_fs s.1) sch ->
   NoDup (Changes.all c) /\ List.length (Changes.all c) = Changes.length c).
Proof.
  intros H. apply detectChanges_resolved in H as (t & h & Hrun & _ & Hinv & -> & ->).
  pose proof (run_walk_modified_once (files d) depth (followSymlink (options d))
                (makeFilter (options d)) sch (targets d) t0) as [_ Hnm].
  rewrite Hrun in Hnm. simpl in Hnm.
  pose proof Hinv as [Hprev Hadd Hmod Hdis Hdel _ Hown].
  assert (Hnd : NoDup (keys (prev h))) by apply NoDup_fst_map_to_list.
  simpl. rewrite Hdel. simpl. split; [done|]. split; [done|].
  intros HP Hsch.
  pose proof (run_walk_timed_store (files d) depth (followSymlink (options d))
                (makeFilter (options d)) sch (targets d) t0 HP Hsch) as (_ & _ & Hna).
  rewrite Hrun in Hna. simpl in Hna.
  unfold Changes.all, Changes.length. simpl. rewrite Hdel. simpl. split.
  - apply NoDup_app. split; [done|]. split.
    + intros p Ha Hp. apply elem_of_app in Hp as [Hp|Hp]; [by apply (Hdis p)|].
      apply elem_of_keys in Hp as [v Hv]. apply Hadd in Ha as [w Hw].
      specialize (Hprev p). rewrite Hw, Hv in Hprev. discriminate.
    + apply NoDup_app. split; [done|]. split; [|done].
      intros p Hm Hp. apply elem_of_keys in Hp as [v Hv].
      apply Hmod in Hm as (? & w & _ & Hw & _).
      specialize (Hprev p). rewrite Hw, Hv in Hprev. discriminate.
  - rewrite !length_app. lia.
Qed.

(** X8.  The file counts balance when every entry met carries a time and
    the previous snapshot holds no falsy time: the new count plus the number
    of deleted paths is the previous count plus the number of added paths. *)
Theorem file_count_balance (depth : nat) (sch : schedule) (t0 t1 : Z)
    (d d' : Detector) (c : Changes.t) :
  (forall p v, files d !! p = Some v -> v <> 0%N) ->
  Forall (fun s => timed_fs s.1) sch ->
  detectChanges depth sch t0 t1 d = Resolved c d' ->
  (Changes.fileCount c + List.length (Changes.deleted c) =
   size (files d) + List.length (Changes.added c))%nat.
Proof.
  intros HP Hsch H.
  apply detectChanges_resolved in H as (t & h & Hrun & _ & _ & -> & ->).
  pose proof (run_walk_timed_store (files d) depth (followSymlink (options d))
                (makeFilter (options d)) sch (targets d) t0 HP Hsch) as (Hinv & Htinv & Hna).
  rewrite Hrun in Hinv, Htinv, Hna. simpl in Hinv, Htinv, Hna.
  destruct Hinv as [Hprev Hadd _ _ Hdel Hnew Hown]. destruct Htinv as [_ Hadd' _].
  simpl. rewrite Hdel. simpl.
  assert (Hp : prev h = files d ∖ curr h).
  { apply map_eq. intros p. rewrite Hprev, lookup_difference.
    by destruct (curr h !! p). }
  assert (Ha : list_to_set (Changes.added (changes h)) =@{gset string}
               dom (curr h) ∖ dom (files d)).
  { apply set_eq. intros p.
    rewrite elem_of_list_to_set, elem_of_difference, !elem_of_dom. split.
    - intros Hin. split; [by apply Hadd|]. rewrite (Hadd' p Hin). by intros [? ?].
    - intros [Hs Hn]. apply Hnew; [done|]. apply truthy_false. left.
      split; [|by apply Hown].
      destruct (files d !! p) eqn:E; [|done]. destruct Hn. by eexists. }
  unfold keys. rewrite length_fmap, length_map_to_list, Hp.
  rewrite <- (size_list_to_set (C:=gset string) _ Hna), Ha.
  rewrite <- !(size_dom (D:=gset string)), dom_difference_L.
  rewrite <- !size_union_alt. f_equal. apply (comm_L (∪)).
Qed.

(** ** Repeated passes over a file system at rest *)

Lemma same_lookups (m1 m2 : gmap string N) (X : string -> N -> Prop) :
  (forall q v, m1 !! q = Some v <-> X q v) ->
  (forall q v, m2 !! q = Some v <-> X q v) -> m1 = m2.
Proof.
  intros H1 H2. apply map_eq. intros q.
  destruct (m1 !! q) as [v|] eqn:E1.
  - symmetry. by apply H2, H1.
  - destruct (m2 !! q) as [v|] eqn:E2; [|done].
    apply H2, H1 in E2. congruence.
Qed.

(** A completed cycle over a file system at rest, links not followed,
    leaves as snapshot the files reached from the targets with their stamps,
    those named like a member of [Object.prototype] left out, whatever the
    snapshot was before. *)
Lemma resolved_at_rest (fs : FS) (stamp : string -> N) (depth : nat)
    (steps : list (list nat)) (t0 t1 : Z) (d d' : Detector) (c : Changes.t) :
  followSymlink (options d) = false -> steady fs stamp ->
  detectChanges depth (steady_schedule fs steps) t0 t1 d = Resolved c d' ->
  forall q v, files d' !! q = Some v <->
    v = stamp q /\ prototype_member q = false /\
    exists p, p ∈ targets d /\ reaches fs (makeFilter (options d)) (TPath p) q.
Proof.
  intros Hfo Hst H.
  apply detectChanges_resolved in H as (t & h & Hrun & Hp & _ & _ & ->).
  rewrite Hfo in Hrun.
  pose proof (walk_records_reached fs (makeFilter (options d)) stamp depth steps
                (targets d) (files d) t0 Hst) as Hw.
  rewrite Hrun in Hw. by apply Hw.
Qed.


Lemma steady_schedule_timed (fs : FS) (stamp : string -> N) (steps : list (list nat)) :
  steady fs stamp ->
  Forall (fun s : FS * list nat => timed_fs s.1) (steady_schedule fs steps).
Proof.
  intros Hst. apply Forall_forall. intros s Hs.
  apply list_elem_of_fmap in Hs as (pos & -> & _). by eapply steady_timed.
Qed.


(** X4.  [init] is idempotent over a file system at rest, links not
    followed: a second [init] that completes leaves the detector as the
    first one made it. *)
Theorem init_twice_at_rest (fs : FS) (stamp : string -> N) (fuel1 fuel2 : nat)
    (paths : list string) (o : DetectorOptions) (d1 d2 : Detector) :
  followSymlink o = false -> steady fs stamp ->
  init fs fuel1 (newDetector paths o) = (d1, Normal) ->
  init fs fuel2 d1 = (d2, Normal) ->
  d2 = d1.
Proof.
  intros Hfo Hst H1 H2.
  unfold init, newDetector in H1. cbn [files targets options] in H1. rewrite Hfo in H1.
  destruct (collect fs fuel1 ∅ (List.map TPath paths) false (makeFilter o))
    as [all1 comp1] eqn:Hc1.
  injection H1 as <- ->. unfold init, set_files in *. cbn [files targets options] in *.
  rewrite Hfo in H2.
  destruct (collect fs fuel2 all1 (List.map TPath paths) false (makeFilter o))
    as [all2 comp2] eqn:Hc2.
  injection H2 as <- ->. f_equal.
  assert (Hkn : forall t, t ∈ List.map TPath paths -> known stamp t).
  { intros t Ht. by apply list_elem_of_fmap in Ht as (p & -> & _). }
  destruct (collect_records_reached fs (makeFilter o) stamp fuel1 Hst _ _ _ Hkn
              (lookup_empty _) Hc1) as (Ha1 & Hb1 & _ & Hp1).
  destruct (collect_records_reached fs (makeFilter o) stamp fuel2 Hst _ _ _ Hkn Hp1 Hc2)
    as (Ha2 & Hb2 & Hk2 & Hp2).
  apply map_eq. intros q. destruct (all2 !! q) as [v|] eqn:E2.
  - destruct (Hb2 q v E2) as [?|(-> & t & Ht & Htq)]; [done|]. symmetry.
    apply (Ha1 t); [done..|]. intros ->. congruence.
  - destruct (all1 !! q) as [v|] eqn:E1; [|done].
    destruct (Hb1 q v E1) as [H|(-> & t & Ht & Htq)].
    + by rewrite lookup_empty in H.
    + rewrite (Hk2 q E1) in E2. discriminate.
Qed.

(** ** What the filter guarantees of a snapshot *)

Lemma makeFilter_accepts_file (o : DetectorOptions) (f : FileInfo) (p : string) :
  makeFilter o f p = true -> isFile f = true ->
  test o p = true /\ ignore o p = false /\
  (ignoreDotFiles o = true -> dot_regex (entry_name f p) = false).
Proof.
  unfold makeFilter. intros H Hk. rewrite Hk in H.
  destruct (ignoreDotFiles o); simpl in H.
  - destruct (dot_regex (entry_name f p)); [discriminate|].
    destruct (test o p); [|discriminate]. by destruct (ignore o p).
  - destruct (test o p); [|discriminate]. by destruct (ignore o p).
Qed.

Lemma record_file_keys (p q : string) (info : FileInfo) (h : store) :
  is_Some (curr (record_file p info h) !! q) -> is_Some (curr h !! q) \/ q = p.
Proof.
  unfold record_file. destruct (truthy (curr h) p); [by left|]. simpl.
  destruct (decide (p = q)) as [<-|Hne]; [by right|].
  rewrite assign_lookup_ne by done. by left.
Qed.

Section CollectGuarded.
Variables (Q : target -> bool) (Psi : gmap string N -> Prop).
Variables (fs : FS) (fo : bool) (filter : FileInfo -> string -> bool).
Hypothesis ok_list : forall dir l,
  readDir fs dir = inr l -> forallb Q (List.map TInfo l) = true.
Hypothesis ok_record : forall fuel f l all,
  Q f = true -> collect_locate fs fuel fo f = Some (inr l) -> l_path l <> "" ->
  filter (l_info l) (str_or (l_linkPath l) (l_path l)) = true ->
  isFile (l_info l) = true ->
  Psi all -> Psi (assign all (l_path l) (time_of (l_info l))).

(** A property of [all] that every recording keeps holds of what [collect]
    leaves, however the call ends. *)
Lemma collect_guarded (fuel : nat) (tgs : list target) (all : gmap string N) :
  forallb Q tgs = true -> Psi all -> Psi (collect fs fuel all tgs fo filter).1.
Proof.
  revert tgs all. induction fuel as [|fuel IHf]; intros tgs all Hq Hpsi; [done|].
  revert all Hpsi. induction tgs as [|f rest IHt]; intros all Hpsi; [done|].
  simpl in Hq. apply andb_prop in Hq as [Hf Hrest]. specialize (IHt Hrest).
  rewrite collect_cons.
  destruct (collect_locate fs fuel fo f) as [[e|l]|] eqn:El; [| |done].
  - destruct (is_NotFound e); [by apply IHt | done].
  - destruct (String.eqb_spec (l_path l) "") as [|Hp]; [done|].
    destruct (filter (l_info l) _) eqn:Hfl; cbn [negb]; [|by apply IHt].
    destruct (isDirectory (l_info l)).
    + destruct (readDir fs (l_path l)) as [e|es] eqn:Hr; [done|].
      pose proof (IHf (List.map TInfo es) all (ok_list _ _ Hr) Hpsi) as H1.
      destruct (collect fs fuel all (List.map TInfo es) fo filter) as [all1 [| |]];
        simpl in H1; [by apply IHt | done | done].
    + destruct (isFile (l_info l)) eqn:Hk; [|by apply IHt].
      apply IHt. by eapply ok_record.
Qed.
End CollectGuarded.

(** X13.  [collect] only adds: a path that is in the snapshot when
    [collect] (or [init]) is called is still in it afterwards, however the
    call ends. *)
Theorem collect_keeps_keys (fs : FS) (fuel : nat) (all : gmap string N)
    (tgs : list target) (fo : bool) (filter : FileInfo -> string -> bool)
    (d : Detector) (q : string) :
  (is_Some (all !! q) -> is_Some ((collect fs fuel all tgs fo filter).1 !! q)) /\
  (is_Some (files d !! q) -> is_Some (files (init fs fuel d).1 !! q)).
Proof.
  assert (H : forall all tgs fo filter,
            is_Some (all !! q) -> is_Some ((collect fs fuel all tgs fo filter).1 !! q)).
  { clear. intros all tgs fo filter Hq.
    apply (collect_guarded any_target (fun m => is_Some (m !! q))); try done.
    - intros dir l _. by induction l.
    - intros _ f l m _ _ _ _ _ Hm. by apply assign_keeps.
    - by induction tgs. }
  split; [apply H|]. intros Hq. unfold init.
  specialize (H (files d) (List.map TPath (targets d)) (followSymlink (options d))
                (makeFilter (options d)) Hq).
  by destruct (collect fs fuel (files d) _ _ _).
Qed.

(** X9.  With symlink-following off, the include and exclude patterns hold
    of the snapshot: every path a cycle leaves in the snapshot, and so every
    path it lists as added or modified, matches [test] and does not match
    [ignore]; and so does every path [init] adds to the snapshot. *)
Theorem snapshot_matches_patterns (d : Detector) :
  followSymlink (options d) = false ->
  (forall depth sch t0 t1 c d',
     detectChanges depth sch t0 t1 d = Resolved c d' ->
     forall q, is_Some (files d' !! q) \/ q ∈ Changes.added c \/ q ∈ Changes.modified c ->
       test (options d) q = true /\ ignore (options d) q = false) /\
  (forall fs fuel q,
     is_Some (files (init fs fuel d).1 !! q) ->
     is_Some (files d !! q) \/
     (test (options d) q = true /\ ignore (options d) q = false)).
Proof.
  intros Hfo. split.
  - intros depth sch t0 t1 c d' H.
    apply detectChanges_resolved in H as (t & h & Hrun & _ & Hinv & -> & ->).
    assert (Hkeys : forall q, is_Some (curr h !! q) ->
                      test (options d) q = true /\ ignore (options d) q = false).
    { replace h with (run_walk depth (followSymlink (options d)) (makeFilter (options d))
                        sch (Task (Loop (List.map TPath (targets d))) [])
                        {| prev := files d; curr := ∅; changes := Changes.fresh t0 |}).2
        by (by rewrite Hrun).
      rewrite Hfo.
      apply (run_walk_guarded any_target
               (fun h => forall q, is_Some (curr h !! q) ->
                            test (options d) q = true /\ ignore (options d) q = false)
               (fun _ => True)).
      - intros fs dir l _ _. by induction l.
      - intros fs f h0 h' _ _ Hb Hk q Hq.
        destruct (walk_body_next _ _ _ _ _ _ _ Hb) as [->|(l & Hl & _ & Hf & Hfile & ->)];
          [by apply Hk|].
        apply record_file_keys in Hq as [Hq| ->]; [by apply Hk|].
        rewrite walk_locate_off in Hl. injection Hl as Hl.
        rewrite (locate_link fs f l Hl) in Hf.
        by destruct (makeFilter_accepts_file _ _ _ Hf Hfile) as (? & ? & _).
      - apply any_schedule.
      - by apply guarded_paths.
      - intros q [v Hv]. simpl in Hv. by rewrite lookup_empty in Hv. }
    destruct Hinv as [_ Hadd Hmod _ _ _ Hown]. simpl.
    intros q [Hq|[Hq|Hq]]; apply Hkeys; [done | by apply Hadd |].
    apply Hmod in Hq as (v & w & _ & Hw & _). by eexists.
  - intros fs fuel q. unfold init. rewrite Hfo.
    assert (Hrec : forall (fuel' : nat) f l (m : gmap string N),
              any_target f = true ->
              collect_locate fs fuel' false f = Some (inr l) -> l_path l <> "" ->
              makeFilter (options d) (l_info l) (str_or (l_linkPath l) (l_path l)) = true ->
              isFile (l_info l) = true ->
              (is_Some (m !! q) -> is_Some (files d !! q) \/
                 (test (options d) q = true /\ ignore (options d) q = false)) ->
              is_Some (assign m (l_path l) (time_of (l_info l)) !! q) ->
              is_Some (files d !! q) \/
              (test (options d) q = true /\ ignore (options d) q = false)).
    { intros fuel' f l m _ Hl _ Hf Hfile Hm Hq.
      destruct (decide (l_path l = q)) as [<-|Hne].
      + right. rewrite collect_locate_off in Hl. injection Hl as Hl.
        rewrite (locate_link fs f l Hl) in Hf.
        by destruct (makeFilter_accepts_file _ _ _ Hf Hfile) as (? & ? & _).
      + rewrite assign_lookup_ne in Hq by done. by apply Hm. }
    pose proof (collect_guarded any_target
                  (fun m => is_Some (m !! q) -> is_Some (files d !! q) \/
                     (test (options d) q = true /\ ignore (options d) q = false))
                  fs false (makeFilter (options d))
                  (fun dir l _ => any_target_all _) Hrec fuel
                  (List.map TPath (targets d)) (files d) (any_target_all _)
                  (fun H => or_introl H)) as Hc.
    by destruct (collect fs fuel (files d) (List.map TPath (targets d)) false
                   (makeFilter (options d))).
Qed.

Lemma entry_name_named (i : FileInfo) (p : string) :
  well_named i p -> entry_name i p = last_segment p.
Proof.
  unfold well_named, entry_name, str_or. intros [H|H]; rewrite H; [done|].
  by destruct (String.eqb_spec (last_segment p) "").
Qed.

Lemma named_target_spec (f : FileInfo) :
  named_target (TInfo f) = true <-> well_named f (path f).
Proof.
  unfold named_target, well_named. rewrite orb_true_iff.
  by rewrite !String.eqb_eq.
Qed.

Lemma named_entries (fs : FS) (dir : string) (l : list FileInfo) :
  named_fs fs -> readDir fs dir = inr l ->
  forallb named_target (List.map TInfo l) = true.
Proof.
  intros [_ Hr] Hl. apply forallb_forall. intros t Ht.
  apply list_elem_of_In, list_elem_of_fmap in Ht as (i & -> & Hi).
  apply named_target_spec. by eapply Hr.
Qed.

(** With links not followed, the name the dot-file rule looks at is the
    last segment of the path the entry is filed under. *)
Lemma locate_named (fs : FS) (f : target) (l : located) :
  named_fs fs -> named_target f = true -> locate fs f = inr l ->
  entry_name (l_info l) (l_path l) = last_segment (l_path l).
Proof.
  intros [Hl _] Hf. destruct f as [p|i]; simpl.
  - destruct (lstat fs p) as [e|info] eqn:E; [discriminate|].
    intros [= <-]. simpl. by apply entry_name_named, Hl.
  - intros [= <-]. simpl. by apply entry_name_named, named_target_spec.
Qed.

(** X10.  With the dot-file rule on and symlink-following off, over file
    systems that name entries by the last segment of their path, no dot-file
    gets into the snapshot: the last segment of every path a cycle leaves in
    the snapshot or lists as added or modified, and of every path [init]
    adds, does not start with a dot followed by a non-dot character. *)
Theorem snapshot_has_no_dotfiles (d : Detector) :
  followSymlink (options d) = false -> ignoreDotFiles (options d) = true ->
  (forall depth sch t0 t1 c d',
     Forall (fun s => named_fs s.1) sch ->
     detectChanges depth sch t0 t1 d = Resolved c d' ->
     forall q, is_Some (files d' !! q) \/ q ∈ Changes.added c \/ q ∈ Changes.modified c ->
       ~ dot_name (last_segment q)) /\
  (forall fs fuel q,
     named_fs fs -> is_Some (files (init fs fuel d).1 !! q) ->
     is_Some (files d !! q) \/ ~ dot_name (last_segment q)).
Proof.
  intros Hfo Hdot. split.
  - intros depth sch t0 t1 c d' Hsch H.
    apply detectChanges_resolved in H as (t & h & Hrun & _ & Hinv & -> & ->).
    assert (Hkeys : forall q, is_Some (curr h !! q) -> dot_regex (last_segment q) = false).
    { replace h with (run_walk depth (followSymlink (options d)) (makeFilter (options d))
                        sch (Task (Loop (List.map TPath (targets d))) [])
                        {| prev := files d; curr := ∅; changes := Changes.fresh t0 |}).2
        by (by rewrite Hrun).
      rewrite Hfo.
      apply (run_walk_guarded named_target
               (fun h => forall q, is_Some (curr h !! q) ->
                            dot_regex (last_segment q) = false)
               named_fs); try done.
      - intros fs dir l Hfs Hl. by eapply named_entries.
      - intros fs f h0 h' Hfs Hq Hb Hk q Hs.
        destruct (walk_body_next _ _ _ _ _ _ _ Hb) as [->|(l & Hl & _ & Hf & Hfile & ->)];
          [by apply Hk|].
        apply record_file_keys in Hs as [Hs| ->]; [by apply Hk|].
        rewrite walk_locate_off in Hl. injection Hl as Hl.
        rewrite (locate_link fs f l Hl) in Hf.
        destruct (makeFilter_accepts_file _ _ _ Hf Hfile) as (_ & _ & Hd).
        rewrite <- (locate_named fs f l Hfs Hq Hl). by apply Hd.
      - by apply guarded_paths.
      - intros q [v Hv]. simpl in Hv. by rewrite lookup_empty in Hv. }
    destruct Hinv as [_ Hadd Hmod _ _ _ Hown]. simpl.
    assert (Hno : forall q, is_Some (curr h !! q) -> ~ dot_name (last_segment q)).
    { intros q Hq Hn. apply dot_regex_spec in Hn. by rewrite (Hkeys q Hq) in Hn. }
    intros q [Hq|[Hq|Hq]]; apply Hno; [done | by apply Hadd |].
    apply Hmod in Hq as (v & w & _ & Hw & _). by eexists.
  - intros fs fuel q Hfs. unfold init. rewrite Hfo.
    assert (Hrec : forall (fuel' : nat) f l (m : gmap string N),
              named_target f = true ->
              collect_locate fs fuel' false f = Some (inr l) -> l_path l <> "" ->
              makeFilter (options d) (l_info l) (str_or (l_linkPath l) (l_path l)) = true ->
              isFile (l_info l) = true ->
              (is_Some (m !! q) -> is_Some (files d !! q) \/ ~ dot_name (last_segment q)) ->
              is_Some (assign m (l_path l) (time_of (l_info l)) !! q) ->
              is_Some (files d !! q) \/ ~ dot_name (last_segment q)).
    { intros fuel' f l m Hq Hl _ Hf Hfile Hm Hs.
      destruct (decide (l_path l = q)) as [<-|Hne].
      + right. rewrite collect_locate_off in Hl. injection Hl as Hl.
        rewrite (locate_link fs f l Hl) in Hf.
        destruct (makeFilter_accepts_file _ _ _ Hf Hfile) as (_ & _ & Hd).
        rewrite (locate_named fs f l Hfs Hq Hl) in Hd.
        intros Hn. apply dot_regex_spec in Hn. by rewrite (Hd Hdot) in Hn.
      + rewrite assign_lookup_ne in Hs by done. by apply Hm. }
    assert (Hpaths : forallb named_target (List.map TPath (targets d)) = true)
      by (by induction (targets d)).
    pose proof (collect_guarded named_target
                  (fun m => is_Some (m !! q) ->
                     is_Some (files d !! q) \/ ~ dot_name (last_segment q))
                  fs false (makeFilter (options d))
                  (fun dir l => named_entries fs dir l Hfs) Hrec fuel
                  (List.map TPath (targets d)) (files d) Hpaths
                  (fun H => or_introl H)) as Hc.
    by destruct (collect fs fuel (files d) (List.map TPath (targets d)) false
                   (makeFilter (options d))).
Qed.

(** ** Links that are followed, directories that cannot be listed *)

Lemma statTraverse_not_symlink (fs : FS) (n : nat) (p : string) (i : FileInfo) :
  statTraverse fs n p = Some (inr i) -> isSymlink i = false.
Proof.
  revert p. induction n as [|n IH]; intros p; [discriminate|].
  simpl. destruct (lstat fs p) as [e|info]; [discriminate|].
  destruct (isSymlink info) eqn:Es.
  - destruct (readlink fs p); [discriminate | apply IH].
  - by intros [= <-].
Qed.

(** X11.  With symlink-following on, what the try block of either walker
    yields is never a symlink; so an entry that the filter accepts is either
    a directory, which [walk] lists, or a regular file, which it records:
    no link is passed over. *)
Theorem followed_never_symlink (fs : FS) (depth : nat)
    (filter : FileInfo -> string -> bool) (f : target) (l : located) (h : store) :
  (walk_locate fs depth true f = Some (inr l) -> isSymlink (l_info l) = false) /\
  (collect_locate fs depth true f = Some (inr l) -> isSymlink (l_info l) = false) /\
  (walk_locate fs depth true f = Some (inr l) -> l_path l <> "" ->
   filter (l_info l) (str_or (l_linkPath l) (l_path l)) = true ->
   walk_body fs depth true filter f h =
     if isDirectory (l_info l) then
       match readDir fs (l_path l) with
       | inl e => Raise e
       | inr entries => Fork (List.map TInfo entries)
       end
     else Next (record_file (l_path l) (l_info l) h)).
Proof.
  assert (Hw : walk_locate fs depth true f = Some (inr l) -> isSymlink (l_info l) = false).
  { unfold walk_locate. destruct f as [p|i].
    - destruct (statTraverse fs depth p) as [[e|info]|] eqn:E; try discriminate.
      intros [= <-]. by eapply statTraverse_not_symlink.
    - rewrite andb_true_r. destruct (isSymlink i) eqn:Es.
      + destruct (statTraverse fs depth (path i)) as [[e|info]|] eqn:E; try discriminate.
        intros [= <-]. by eapply statTraverse_not_symlink.
      + by intros [= <-]. }
  split; [exact Hw|]. split.
  - unfold collect_locate. destruct f as [p|i].
    + rewrite statTraverseSync_eq.
      destruct (statTraverse fs depth p) as [[e|info]|] eqn:E; try discriminate.
      intros [= <-]. by eapply statTraverse_not_symlink.
    + rewrite andb_true_r. destruct (isSymlink i) eqn:Es.
      * destruct (readlink fs (path i)) as [e|q]; [discriminate|].
        rewrite statTraverseSync_eq.
        destruct (statTraverse fs depth q) as [[e|info]|] eqn:E; try discriminate.
        intros [= <-]. by eapply statTraverse_not_symlink.
      * by intros [= <-].
  - intros Hl Hp Hf. specialize (Hw Hl). unfold walk_body. rewrite Hl.
    destruct (String.eqb_spec (l_path l) ""); [done|]. rewrite Hf. cbn [negb].
    unfold isSymlink, isDirectory, isFile in *. by destruct (kind (l_info l)).
Qed.

Lemma step_at_task_throws (fs : FS) (depth : nat) (fo : bool)
    (filter : FileInfo -> string -> bool) (pos : list nat) (t u : task) (h : store) :
  subtask pos t = Some u ->
  has_thrown (task_step fs depth fo filter u h).1 = true ->
  has_thrown (step_at fs depth fo filter pos t h).1 = true.
Proof.
  revert t. induction pos as [|i pos IH]; intros t Hsub Hu.
  - by injection Hsub as ->.
  - destruct t as [st qs]. cbn [subtask step_at] in *.
    destruct (qs !! i) as [c|] eqn:Hi; [|discriminate].
    specialize (IH c Hsub Hu).
    destruct (step_at fs depth fo filter pos c h) as [c' h']. simpl in *.
    rewrite existsb_insert_new_thrown; [by rewrite orb_true_r| |done].
    by eapply lookup_lt_Some.
Qed.

(** X12.  A directory that the filter accepts and that cannot be listed
    fails the pass, whatever the error: unlike a stat, a listing that fails
    with not-found is not skipped.  The activation of [walk] throws the
    error, a cycle whose first target is such a directory never resolves,
    and [collect] throws it. *)
Theorem listing_errors (fs : FS) (depth fuel : nat) (fo : bool)
    (filter : FileInfo -> string -> bool) (f : target) (rest : list target)
    (l : located) (e : error) :
  l_path l <> "" ->
  filter (l_info l) (str_or (l_linkPath l) (l_path l)) = true ->
  isDirectory (l_info l) = true -> readDir fs (l_path l) = inl e ->
  (walk_locate fs depth fo f = Some (inr l) ->
   (forall ps h, task_step fs depth fo filter (Task (Loop (f :: rest)) ps) h
                 = (Task (Threw e) ps, h)) /\
   (forall pos t ps h, subtask pos t = Some (Task (Loop (f :: rest)) ps) ->
      has_thrown (step_at fs depth fo filter pos t h).1 = true) /\
   (forall d p sch t0 t1 c d',
      fo = followSymlink (options d) -> filter = makeFilter (options d) ->
      f = TPath p -> List.map TPath (targets d) = f :: rest ->
      detectChanges depth ((fs, []) :: sch) t0 t1 d <> Resolved c d')) /\
  (collect_locate fs fuel fo f = Some (inr l) ->
   forall all, collect fs (S fuel) all (f :: rest) fo filter = (all, Throw e)).
Proof.
  intros Hp Hf Hd Hr. split.
  - intros Hl.
    assert (Hstep : forall ps h,
              task_step fs depth fo filter (Task (Loop (f :: rest)) ps) h
              = (Task (Threw e) ps, h)).
    { intros ps h. cbn [task_step]. unfold walk_body. rewrite Hl.
      destruct (String.eqb_spec (l_path l) ""); [done|].
      by rewrite Hf, Hd, Hr. }
    split; [exact Hstep|]. split.
    + intros pos t ps h Hsub. eapply step_at_task_throws; [exact Hsub|].
      by rewrite Hstep.
    + intros d p sch t0 t1 c d' -> -> -> Ht.
      pose proof (detectChanges_thrown depth [(fs, [])] sch t0 t1 d) as Hthrown.
      cbv zeta in Hthrown. apply Hthrown.
      unfold walk_start. cbn [fst snd run_walk step_at]. rewrite Ht, Hstep. done.
  - intros Hl all. rewrite collect_cons, Hl.
    destruct (String.eqb_spec (l_path l) ""); [done|].
    by rewrite Hf, Hd, Hr.
Qed.

(** X14.  With the default options the filter rejects an entry with a
    non-empty path exactly when its name, or the last segment of the path
    when it carries no name, starts with a dot followed by a non-dot
    character: the default include pattern matches every path and the
    default exclude pattern no non-empty one. *)
Theorem default_filter (f : FileInfo) (p : string) :
  p <> "" ->
  (makeFilter defaultOptions f p = false <->
   dot_name (if String.eqb (name f) "" then last_segment p else name f)).
Proof.
  intros Hp. rewrite <- dot_regex_spec.
  unfold makeFilter, defaultOptions, entry_name, str_or. simpl.
  destruct (dot_regex _); [done|].
  destruct (String.eqb_spec p ""); [done|].
  by destruct (isFile f).
Qed.

(** ** More of the polling loop *)

Ltac step_cases :=
  unfold run_step, loop_head, crash, cancel, settle_handle;
  repeat (match goal with
          | |- context [match ?x with _ => _ end] => destruct x eqn:?
          end; simpl in *; try congruence; try done);
  intros; repeat split; try congruence.

Lemma not_cancelled_step (e : event) (w : watcher) :
  is_cancel e = false ->
  abort w = false /\ ended w = NotCalled /\ where_ w <> Returned ->
  abort (run_step e w) = false /\ ended (run_step e w) = NotCalled /\
  where_ (run_step e w) <> Returned.
Proof.
  intros He (Ha & Hn & Hw). revert He Ha Hn Hw. step_cases.
Qed.

Lemma not_failed_step (e : event) (w : watcher) :
  is_failure e = false -> where_ w <> Crashed -> where_ (run_step e w) <> Crashed.
Proof. step_cases. Qed.

Lemma not_cancelled_run (evs : list event) (w : watcher) :
  forallb (fun e => negb (is_cancel e)) evs = true ->
  abort w = false /\ ended w = NotCalled /\ where_ w <> Returned ->
  abort (run_events evs w) = false /\ ended (run_events evs w) = NotCalled /\
  where_ (run_events evs w) <> Returned.
Proof.
  revert w. induction evs as [|e evs IH]; intros w Hevs Hw; [done|].
  simpl in Hevs. apply andb_prop in Hevs as [He Hevs].
  apply negb_true_iff in He. cbn [run_events].
  by apply IH, not_cancelled_step.
Qed.

Lemma not_failed_run (evs : list event) (w : watcher) :
  forallb (fun e => negb (is_failure e)) evs = true ->
  where_ w <> Crashed -> where_ (run_events evs w) <> Crashed.
Proof.
  revert w. induction evs as [|e evs IH]; intros w Hevs Hw; [done|].
  simpl in Hevs. apply andb_prop in Hevs as [He Hevs].
  apply negb_true_iff in He. cbn [run_events].
  by apply IH, not_failed_step.
Qed.

(** X16.  The loop of [run] ends only through cancellation or a failure.
    As long as the handle is not invoked, [state.abort] stays unset and the
    generator does not return; if moreover no scan and no callback fails,
    the loop is always waiting, scanning or delivering. *)
Theorem loop_runs_until_cancelled (i st now0 : Z) (evs : list event) :
  forallb (fun e => negb (is_cancel e)) evs = true ->
  let w := run_events evs (start i st now0) in
  abort w = false /\ ended w = NotCalled /\ where_ w <> Returned /\
  (forallb (fun e => negb (is_failure e)) evs = true ->
   where_ w = AtTimer \/ where_ w = AtScan \/ where_ w = AtCallback).
Proof.
  intros Hevs w. subst w.
  destruct (not_cancelled_run evs (start i st now0) Hevs) as (Ha & Hn & Hr); [done|].
  repeat split; try done.
  intros Hf. pose proof (not_failed_run evs (start i st now0) Hf) as Hc.
  destruct (where_ (run_events evs (start i st now0))); auto; try done.
  by exfalso; apply Hc.
Qed.

Lemma scans_in_step_start (i st now : Z) : scans_in_step (start i st now).
Proof. done. Qed.

Lemma scans_in_step_step (e : event) (w : watcher) :
  scans_in_step w -> scans_in_step (run_step e w).
Proof.
  unfold scans_in_step. step_cases; rewrite ?length_app; simpl; lia.
Qed.

Lemma scans_in_step_run (evs : list event) (w : watcher) :
  scans_in_step w -> scans_in_step (run_events evs w).
Proof.
  revert w. induction evs as [|e evs IH]; intros w Hw; [done|].
  simpl. by apply IH, scans_in_step_step.
Qed.

Lemma scan_starts_at_timer (e : event) (w : watcher) :
  cycles (run_step e w) <> cycles w ->
  where_ w = AtTimer /\ where_ (run_step e w) = AtScan /\
  cycles (run_step e w) = S (cycles w).
Proof. step_cases. Qed.

(** X17.  Scans never overlap.  At any moment at most one scan that was
    started has not completed, and an event starts a scan only while the
    loop is at its timer, when every scan started before has completed and
    no callback is running. *)
Theorem one_scan_at_a_time (i st now0 : Z) (evs : list event) (e : event) :
  let w := run_events evs (start i st now0) in
  (List.length (scanned w) <= cycles w <= S (List.length (scanned w)))%nat /\
  (where_ w = AtCallback -> cycles w = List.length (scanned w)) /\
  (cycles (run_step e w) <> cycles w ->
   where_ w = AtTimer /\ cycles w = List.length (scanned w) /\
   where_ (run_step e w) = AtScan /\ cycles (run_step e w) = S (cycles w)).
Proof.
  intros w.
  pose proof (scans_in_step_run evs _ (scans_in_step_start i st now0)) as Hs.
  fold w in Hs. unfold scans_in_step in Hs. split; [|split].
  - destruct (where_ w); lia.
  - intros Hp. by rewrite Hp in Hs.
  - intros H. destruct (scan_starts_at_timer e w H) as (Hp & Hq & Hc).
    rewrite Hp in Hs. done.
Qed.

Lemma budget_step (st : Z) (e : event) (w : watcher) :
  watcher_inv st w -> abort w = true ->
  abort (run_step e w) = true /\
  (cycles (run_step e w) + scans_left (run_step e w) <= cycles w + scans_left w)%nat /\
  (List.length (delivered (run_step e w)) + reports_left (run_step e w)
   <= List.length (delivered w) + reports_left w)%nat.
Proof.
  intros [_ _ _ Hs] Ha. revert Hs Ha. unfold scans_left, reports_left.
  step_cases; rewrite ?length_app; simpl; try lia.
  all: try (match goal with H : _ /\ _ |- _ => destruct H as (? & ? & ?) end).
  all: try (match goal with H : ?t = ?t -> _ |- _ => specialize (H eq_refl); congruence end).
  all: try (exfalso; auto; congruence).
  all: try (match goal with H : is_Some None |- _ => destruct H; done end).
Qed.

Lemma grows_step (e : event) (w : watcher) :
  (cycles w <= cycles (run_step e w))%nat /\
  exists l, delivered (run_step e w) = delivered w ++ l.
Proof.
  step_cases; try lia; try (by exists []; rewrite app_nil_r); by eexists.
Qed.

Lemma past_scan_step (e : event) (w : watcher) :
  winding_down w -> where_ w <> AtTimer -> where_ w <> AtScan ->
  winding_down (run_step e w) /\ where_ (run_step e w) <> AtTimer /\
  where_ (run_step e w) <> AtScan /\ delivered (run_step e w) = delivered w.
Proof.
  intros (Ha & Hto & Ht). revert Ha Hto Ht. unfold winding_down. step_cases.
Qed.

Lemma pending_while_delivering (evs : list event) (w : watcher) :
  winding_down w -> where_ w = AtCallback -> ended w = HandlePending ->
  forallb (fun e => negb (callback_ends e)) evs = true ->
  ended (run_events evs w) = HandlePending /\ where_ (run_events evs w) = AtCallback.
Proof.
  revert w. induction evs as [|e evs IH]; intros w Hw Hp He Hevs; [done|].
  simpl in Hevs. apply andb_prop in Hevs as [Hne Hevs]. cbn [run_events].
  apply negb_true_iff in Hne.
  destruct Hw as (Ha & Hto & Ht).
  assert (Hs : winding_down (run_step e w) /\ where_ (run_step e w) = AtCallback /\
               ended (run_step e w) = HandlePending).
  { revert Hne Ha Hto Ht Hp He. unfold winding_down. step_cases. }
  destruct Hs as (H1 & H2 & H3). by apply IH.
Qed.

Lemma past_scan_run (evs : list event) (w : watcher) :
  winding_down w -> where_ w <> AtTimer -> where_ w <> AtScan ->
  delivered (run_events evs w) = delivered w.
Proof.
  revert w. induction evs as [|e evs IH]; intros w Hw H1 H2; [done|].
  cbn [run_events]. destruct (past_scan_step e w Hw H1 H2) as (Hw' & H1' & H2' & Hd).
  by rewrite IH.
Qed.

Lemma budget_run (st : Z) (evs : list event) (w : watcher) :
  watcher_inv st w -> abort w = true ->
  (cycles (run_events evs w) <= cycles w + scans_left w)%nat /\
  (List.length (delivered (run_events evs w))
   <= List.length (delivered w) + reports_left w)%nat.
Proof.
  revert w. induction evs as [|e evs IH]; intros w Hinv Ha; [simpl; lia|].
  cbn [run_events]. destruct (budget_step st e w Hinv Ha) as (Ha' & Hc & Hd).
  destruct (IH _ (run_step_inv st e w Hinv) Ha') as [Hc' Hd']. lia.
Qed.

Lemma grows_run (evs : list event) (w : watcher) :
  (cycles w <= cycles (run_events evs w))%nat /\
  exists l, delivered (run_events evs w) = delivered w ++ l.
Proof.
  revert w. induction evs as [|e evs IH]; intros w.
  - split; [done|]. exists []. by rewrite app_nil_r.
  - cbn [run_events]. destruct (grows_step e w) as [Hc [l Hl]].
    destruct (IH (run_step e w)) as [Hc' [l' Hl']]. split; [lia|].
    exists (l ++ l'). by rewrite Hl', Hl, app_assoc.
Qed.

(** X18.  Invoking the cancellation handle while the callback runs: the
    promise of the handle is pending and stays so until the callback ends;
    it resolves when the callback's promise resolves, and the loop returns;
    it is rejected when the callback fails.  No scan is started and no
    report is delivered after the invocation. *)
Theorem cancel_during_callback (i st now0 : Z) (evs0 : list event) :
  let w := run_events evs0 (start i st now0) in
  where_ w = AtCallback ->
  ended (run_step Cancel w) = HandlePending /\
  (forall evs, forallb (fun e => negb (callback_ends e)) evs = true ->
     ended (run_events evs (run_step Cancel w)) = HandlePending) /\
  (forall now,
     ended (run_step (CallbackDone now) (run_step Cancel w)) = HandleResolved /\
     where_ (run_step (CallbackDone now) (run_step Cancel w)) = Returned) /\
  ended (run_step CallbackFails (run_step Cancel w)) = HandleRejected /\
  forall evs,
    cycles (run_events evs (run_step Cancel w)) = cycles w /\
    delivered (run_events evs (run_step Cancel w)) = delivered w.
Proof.
  intros w Hp.
  pose proof (run_events_inv st evs0 _ (start_inv i st now0)) as Hinv.
  fold w in Hinv. destruct Hinv as [_ _ _ Hs]. rewrite Hp in Hs.
  destruct Hs as [Hto Ht].
  assert (Hcancel : run_step Cancel w = cancel w).
  { unfold run_step. by destruct (where_ w), (the_timer w). }
  rewrite Hcancel.
  assert (Hwd : winding_down (cancel w)).
  { unfold winding_down, cancel. by rewrite Hto. }
  assert (Hwh : where_ (cancel w) = AtCallback).
  { unfold cancel. by rewrite Hto. }
  assert (He : ended (cancel w) = HandlePending).
  { unfold cancel. by rewrite Hto, Hp. }
  assert (Hcd : cycles (cancel w) = cycles w /\ delivered (cancel w) = delivered w).
  { unfold cancel. by rewrite Hto. }
  destruct Hwd as (Ha & Hto' & Ht').
  split; [exact He|]. split; [|split; [|split]].
  - intros evs Hevs. by apply pending_while_delivering.
  - intros now. unfold run_step. rewrite Hwh. unfold loop_head. rewrite Ha.
    simpl. by rewrite He.
  - unfold run_step. rewrite Hwh. unfold crash. simpl. by rewrite He.
  - intros evs. destruct Hcd as [Hc Hd]. split.
    + by rewrite winding_down_run.
    + rewrite past_scan_run; [done|done|congruence|congruence].
Qed.

(** X19.  After the cancellation handle is invoked, whatever happens next,
    at most one further scan is started and at most one further report is
    given to the callback.  A scan is started only if the timer had fired
    before the invocation; a report is delivered only in that case or if
    a scan was in flight. *)
Theorem cancel_bounds (i st now0 : Z) (evs0 evs : list event) :
  let w := run_events evs0 (start i st now0) in
  let w' := run_events evs (run_step Cancel w) in
  (cycles w <= cycles w' <= S (cycles w))%nat /\
  (exists l, delivered w' = delivered w ++ l /\ (List.length l <= 1)%nat) /\
  (the_timer w <> TimerFired -> cycles w' = cycles w) /\
  (the_timer w <> TimerFired -> where_ w <> AtScan -> delivered w' = delivered w).
Proof.
  intros w w'.
  pose proof (run_events_inv st evs0 _ (start_inv i st now0)) as Hinv.
  fold w in Hinv.
  assert (Hcancel : run_step Cancel w = cancel w).
  { unfold run_step. by destruct (where_ w), (the_timer w). }
  unfold w'. rewrite Hcancel.
  assert (Ha : abort (cancel w) = true).
  { unfold cancel. by destruct (timeout w). }
  assert (Hsame : cycles (cancel w) = cycles w /\ delivered (cancel w) = delivered w /\
                  scans_left (cancel w) = scans_left w /\
                  reports_left (cancel w) = reports_left w).
  { unfold cancel, scans_left, reports_left.
    destruct (timeout w); simpl; [|done].
    repeat split; by destruct (where_ w), (the_timer w). }
  destruct Hsame as (Hc & Hd & Hsl & Hrl).
  destruct (budget_run st evs (cancel w) (cancel_inv st w Hinv) Ha) as [Hbc Hbd].
  destruct (grows_run evs (cancel w)) as [Hgc [l Hl]].
  rewrite Hc, Hsl in Hbc. rewrite Hd, Hrl in Hbd. rewrite Hc in Hgc. rewrite Hd in Hl.
  assert (Hlen : (List.length l <= reports_left w)%nat).
  { rewrite Hl, length_app in Hbd. lia. }
  assert (H1 : (scans_left w <= 1)%nat).
  { unfold scans_left. destruct (where_ w), (the_timer w); lia. }
  assert (H2 : (reports_left w <= 1)%nat).
  { unfold reports_left. destruct (where_ w), (the_timer w); lia. }
  split; [lia|]. split; [exists l; split; [done|lia]|]. split.
  - intros Hnf.
    assert (scans_left w = 0%nat).
    { unfold scans_left. destruct (where_ w), (the_timer w); done. }
    lia.
  - intros Hnf Hns.
    assert (reports_left w = 0%nat).
    { unfold reports_left. destruct (where_ w), (the_timer w); done. }
    destruct l; [by rewrite Hl, app_nil_r|simpl in Hlen; lia].
Qed.

(** ** The order of the activations *)

Lemma resolved_lists_once (depth : nat) (sch : schedule) (t0 t1 : Z)
    (d d' : Detector) (c : Changes.t) :
  (forall p v, files d !! p = Some v -> v <> 0%N) ->
  Forall (fun s => timed_fs s.1) sch ->
  detectChanges depth sch t0 t1 d = Resolved c d' ->
  NoDup (Changes.added c) /\ NoDup (Changes.modified c) /\ NoDup (Changes.deleted c) /\
  Changes.fileCount c = size (files d') /\ d' = set_files d (files d').
Proof.
  intros HP Hsch H.
  apply detectChanges_resolved in H as (t & h & Hrun & _ & Hinv & -> & ->).
  pose proof (run_walk_modified_once (files d) depth (followSymlink (options d))
                (makeFilter (options d)) sch (targets d) t0) as [_ Hnm].
  rewrite Hrun in Hnm. simpl in Hnm.
  pose proof (run_walk_timed_store (files d) depth (followSymlink (options d))
                (makeFilter (options d)) sch (targets d) t0 HP Hsch) as (_ & _ & Hna).
  rewrite Hrun in Hna. simpl in Hna.
  destruct Hinv as [_ _ _ _ Hdel _ Hown]. simpl. rewrite Hdel. simpl.
  repeat split; try done. apply NoDup_fst_map_to_list.
Qed.

(** X20.  The order in which the activations of [walk] run does not show
    in the result.  Over a file system at rest, links not followed, from a
    snapshot without falsy times, two cycles that complete under any two
    interleavings leave the same detector and report the same paths, each
    list up to the order of its paths, with the same file count. *)
Theorem interleaving_does_not_matter (fs : FS) (stamp : string -> N) (depth : nat)
    (steps1 steps2 : list (list nat)) (t0 t1 t2 t3 : Z)
    (d d1 d2 : Detector) (c1 c2 : Changes.t) :
  followSymlink (options d) = false -> steady fs stamp ->
  (forall p v, files d !! p = Some v -> v <> 0%N) ->
  detectChanges depth (steady_schedule fs steps1) t0 t1 d = Resolved c1 d1 ->
  detectChanges depth (steady_schedule fs steps2) t2 t3 d = Resolved c2 d2 ->
  d1 = d2 /\
  Changes.added c1 ≡ₚ Changes.added c2 /\
  Changes.modified c1 ≡ₚ Changes.modified c2 /\
  Changes.deleted c1 ≡ₚ Changes.deleted c2 /\
  Changes.fileCount c1 = Changes.fileCount c2 /\
  Changes.length c1 = Changes.length c2.
Proof.
  intros Hfo Hst HP H1 H2.
  pose proof (steady_schedule_timed fs stamp steps1 Hst) as Hs1.
  pose proof (steady_schedule_timed fs stamp steps2 Hst) as Hs2.
  assert (Hfiles : files d1 = files d2).
  { exact (same_lookups _ _ _ (resolved_at_rest fs stamp depth steps1 t0 t1 d d1 c1 Hfo Hst H1)
             (resolved_at_rest fs stamp depth steps2 t2 t3 d d2 c2 Hfo Hst H2)). }
  destruct (resolved_lists_once _ _ _ _ _ _ _ HP Hs1 H1) as (Na1 & Nm1 & Nd1 & Hc1 & Hd1).
  destruct (resolved_lists_once _ _ _ _ _ _ _ HP Hs2 H2) as (Na2 & Nm2 & Nd2 & Hc2 & Hd2).
  pose proof (diff_classification _ _ _ _ _ _ _ HP Hs1 H1) as Hk1.
  pose proof (diff_classification _ _ _ _ _ _ _ HP Hs2 H2) as Hk2.
  assert (Ha : Changes.added c1 ≡ₚ Changes.added c2).
  { apply NoDup_Permutation; [done..|]. intros p.
    destruct (Hk1 p) as (-> & _ & _). destruct (Hk2 p) as (-> & _ & _).
    by rewrite Hfiles. }
  assert (Hm : Changes.modified c1 ≡ₚ Changes.modified c2).
  { apply NoDup_Permutation; [done..|]. intros p.
    destruct (Hk1 p) as (_ & -> & _). destruct (Hk2 p) as (_ & -> & _).
    by rewrite Hfiles. }
  assert (Hd : Changes.deleted c1 ≡ₚ Changes.deleted c2).
  { apply NoDup_Permutation; [done..|]. intros p.
    destruct (Hk1 p) as (_ & _ & ->). destruct (Hk2 p) as (_ & _ & ->).
    by rewrite Hfiles. }
  repeat split; try done.
  - rewrite Hd1, Hd2. by rewrite Hfiles.
  - by rewrite Hc1, Hc2, Hfiles.
  - unfold Changes.length. by rewrite Ha, Hm, Hd.
Qed.

(** ** The guard on the path *)

(** X21.  The guard [if (!path) throw] of both walkers.  A listing entry
    that carries no path (and is not a link to follow) makes the pass throw
    "path not found"; and the empty path never becomes a key: it is not in
    the snapshot a cycle leaves, not listed as added or modified, and [init]
    does not put it into a snapshot that does not hold it. *)
Theorem path_guard (fs : FS) (depth fuel : nat) (fo : bool)
    (filter : FileInfo -> string -> bool) (f : FileInfo) (d : Detector) :
  (path f = "" -> isSymlink f && fo = false ->
   (forall h, walk_body fs depth fo filter (TInfo f) h = Raise (JsError "path not found")) /\
   (forall all rest, collect fs (S fuel) all (TInfo f :: rest) fo filter
                     = (all, Throw (JsError "path not found")))) /\
  (forall sch t0 t1 c d',
     detectChanges depth sch t0 t1 d = Resolved c d' ->
     files d' !! "" = None /\ ("" ∉ Changes.added c) /\ ("" ∉ Changes.modified c)) /\
  (files d !! "" = None -> files (init fs fuel d).1 !! "" = None).
Proof.
  split; [|split].
  - intros Hp Hs. split.
    + intros h. unfold walk_body, walk_locate. rewrite Hs. simpl. by rewrite Hp.
    + intros all rest. cbn [collect]. unfold collect_locate. rewrite Hs. simpl.
      by rewrite Hp.
  - intros sch t0 t1 c d' H.
    apply detectChanges_resolved in H as (t & h & Hrun & _ & Hinv & -> & ->).
    assert (Hkeys : forall q, is_Some (curr h !! q) -> q <> "").
    { replace h with (run_walk depth (followSymlink (options d)) (makeFilter (options d))
                        sch (Task (Loop (List.map TPath (targets d))) [])
                        {| prev := files d; curr := ∅; changes := Changes.fresh t0 |}).2
        by (by rewrite Hrun).
      apply (run_walk_guarded any_target
               (fun h => forall q, is_Some (curr h !! q) -> q <> "") (fun _ => True)).
      - intros fs0 dir l _ _. apply any_target_all.
      - intros fs0 f0 h0 h' _ _ Hb Hk q Hq.
        destruct (walk_body_next _ _ _ _ _ _ _ Hb) as [->|(l & _ & Hne & _ & _ & ->)];
          [by apply Hk|].
        apply record_file_keys in Hq as [Hq| ->]; [by apply Hk|done].
      - apply any_schedule.
      - by apply guarded_paths.
      - intros q [v Hv]. simpl in Hv. by rewrite lookup_empty in Hv. }
    destruct Hinv as [_ Hadd Hmod _ _ _ Hown]. simpl. repeat split.
    + destruct (curr h !! "") as [v|] eqn:E; [|done].
      by destruct (Hkeys "" (ex_intro _ v E)).
    + intros Hin. by apply (Hkeys "" (Hadd _ Hin)).
    + intros Hin. apply Hmod in Hin as (v & w & _ & Hw & _).
      by apply (Hkeys "" (ex_intro _ w Hw)).
  - intros Hd. unfold init.
    pose proof (collect_guarded any_target (fun m => m !! "" = None)
                  fs (followSymlink (options d)) (makeFilter (options d))
                  (fun dir l _ => any_target_all _)) as Hc.
    specialize (Hc (fun fuel' f0 l m _ _ Hne _ _ Hm =>
                      eq_trans (assign_lookup_ne m (l_path l) "" _ Hne) Hm)).
    specialize (Hc fuel (List.map TPath (targets d)) (files d) (any_target_all _) Hd).
    by destruct (collect fs fuel (files d) (List.map TPath (targets d))
                   (followSymlink (options d)) (makeFilter (options d))).
Qed.
(** ** The properties above on concrete inputs *)

Lemma find_node_In (dk : disk) (p : string) (n : node) :
  find_node dk p = Some n -> In (p, n) dk.
Proof.
  induction dk as [|[q m] dk IH]; [discriminate|]. simpl.
  destruct (String.eqb_spec q p) as [->|_].
  - intros [= ->]. by left.
  - intros H. right. by apply IH.
Qed.

Lemma node_info_timed (nm p : string) (n : node) (i : FileInfo) :
  timed_node n = true -> node_info nm p n = inr i -> timed i = true.
Proof. destruct n; simpl; intros Hn [= <-]; done. Qed.

Lemma fs_of_timed (dk : disk) : timed_disk dk = true -> timed_fs (fs_of dk).
Proof.
  intros Hdk.
  assert (Hn : forall p n, find_node dk p = Some n -> timed_node n = true).
  { intros p n H. apply find_node_In in H.
    unfold timed_disk in Hdk. rewrite forallb_forall in Hdk. apply (Hdk _ H). }
  split.
  - intros p i. unfold fs_of, lstat.
    destruct (find_node dk p) as [n|] eqn:E; [|discriminate].
    apply node_info_timed. by eapply Hn.
  - intros p l. unfold fs_of, readDir.
    destruct (find_node dk p) as [[| names | |]|] eqn:E; try discriminate.
    intros [= <-]. apply forallb_forall. intros i Hi.
    apply list_elem_of_In, list_elem_of_omap in Hi as (nm & _ & Hi).
    destruct (find_node dk (p ++ "/" ++ nm)) as [n|] eqn:En; [|discriminate].
    destruct (node_info nm (p ++ "/" ++ nm) n) as [e|j] eqn:Ej.
    + by injection Hi as <-.
    + injection Hi as <-. eapply node_info_timed; [|exact Ej]. by eapply Hn.
Qed.

Lemma steady_schedule_all (P : FS -> Prop) (fs : FS) (steps : list (list nat)) :
  P fs -> Forall (fun s => P s.1) (steady_schedule fs steps).
Proof. intros H. induction steps; by constructor. Qed.

Lemma test_steps_timed (dk : disk) :
  timed_disk dk = true -> Forall (fun s => timed_fs s.1) (test_steps dk).
Proof. intros H. by apply steady_schedule_all, fs_of_timed. Qed.

Lemma created_detector_timed (p : string) (v : N) :
  files created_detector !! p = Some v -> v <> 0%N.
Proof. simpl. intros [_ <-]%lookup_singleton_Some. done. Qed.

Lemma touched_cycle :
  detectChanges 0 (test_steps test_touched) 4 5 created_detector
  = Resolved touched_report touched_detector.
Proof. by vm_compute. Qed.

Lemma swapped_cycle :
  detectChanges 0 (test_steps test_swapped) 4 5 created_detector
  = Resolved swapped_report swapped_detector.
Proof. by vm_compute. Qed.

Lemma plain_first_cycle :
  detectChanges 0 (steady_schedule (fs_of plain_disk) plain_steps) 0 1
    (newDetector ["d"] defaultOptions)
  = Resolved plain_first_report plain_detector.
Proof. by vm_compute. Qed.

Lemma plain_second_cycle :
  detectChanges 0 (steady_schedule (fs_of plain_disk) plain_steps) 0 1 plain_detector
  = Resolved plain_report plain_detector.
Proof. by vm_compute. Qed.

Lemma plain_init :
  init (fs_of plain_disk) 3 (newDetector ["d"] defaultOptions) = (plain_detector, Normal).
Proof. by vm_compute. Qed.

Lemma plain_init_again :
  init (fs_of plain_disk) 3 plain_detector = (plain_detector, Normal).
Proof. by vm_compute. Qed.

Lemma plain_disk_named : named_fs (fs_of plain_disk).
Proof.
  split.
  - intros p i. unfold fs_of, lstat, plain_disk, find_node.
    destruct (String.eqb_spec "d" p) as [<-|_]; [intros [= <-]; by left|].
    destruct (String.eqb_spec "d/f" p) as [<-|_]; [intros [= <-]; by left|].
    discriminate.
  - intros dir l i. unfold fs_of, readDir, plain_disk, find_node.
    destruct (String.eqb_spec "d" dir) as [<-|_].
    + intros [= <-] Hi. simpl in Hi. apply list_elem_of_singleton in Hi as ->.
      by right.
    + destruct (String.eqb_spec "d/f" dir) as [<-|_]; discriminate.
Qed.

Lemma classification_when_timed_witness :
  detectChanges 0 (test_steps test_touched) 4 5 created_detector
    = Resolved touched_report touched_detector /\
  ("tmp/f" ∈ Changes.modified touched_report <->
   exists v w, files created_detector !! "tmp/f" = Some v /\
               files touched_detector !! "tmp/f" = Some w /\ (v < w)%N).
Proof.
  split; [exact touched_cycle|].
  exact (proj1 (proj2 (classification_when_timed 0 (test_steps test_touched) 4 5
           created_detector touched_detector touched_report
           created_detector_timed (test_steps_timed test_touched eq_refl)
           touched_cycle "tmp/f"))).
Defined.


Lemma init_twice_at_rest_witness :
  (followSymlink defaultOptions = false /\
   init (fs_of plain_disk) 3 (newDetector ["d"] defaultOptions) = (plain_detector, Normal) /\
   init (fs_of plain_disk) 3 plain_detector = (plain_detector, Normal)) /\
  plain_detector = plain_detector.
Proof.
  split; [exact (conj eq_refl (conj plain_init plain_init_again))|].
  exact (init_twice_at_rest (fs_of plain_disk) plain_stamp 3 3 ["d"] defaultOptions
           plain_detector plain_detector eq_refl plain_disk_steady
           plain_init plain_init_again).
Defined.

Lemma first_cycle_without_init_witness :
  (files (newDetector ["d"] defaultOptions) = ∅ /\
   detectChanges 0 (steady_schedule (fs_of plain_disk) plain_steps) 0 1
     (newDetector ["d"] defaultOptions) = Resolved plain_first_report plain_detector) /\
  (forall p, p ∈ Changes.added plain_first_report <-> is_Some (files plain_detector !! p)) /\
  Changes.modified plain_first_report = [] /\ Changes.deleted plain_first_report = [].
Proof.
  split; [exact (conj eq_refl plain_first_cycle)|].
  exact (first_cycle_without_init 0 (steady_schedule (fs_of plain_disk) plain_steps) 0 1
           (newDetector ["d"] defaultOptions) plain_detector plain_first_report
           eq_refl plain_first_cycle).
Defined.

Lemma report_and_snapshot_witness :
  detectChanges 0 (test_steps test_swapped) 4 5 created_detector
    = Resolved swapped_report swapped_detector /\
  (forall p, p ∈ Changes.deleted swapped_report <->
             is_Some (files created_detector !! p) /\ files swapped_detector !! p = None) /\
  Changes.fileCount swapped_report = size (files swapped_detector).
Proof.
  split; [exact swapped_cycle|].
  pose proof (report_and_snapshot 0 (test_steps test_swapped) 4 5 created_detector
                swapped_detector swapped_report swapped_cycle) as H.
  exact (conj (proj1 H) (proj1 (proj2 (proj2 (proj2 H))))).
Defined.

Lemma changes_listed_once_witness :
  detectChanges 0 (test_steps test_swapped) 4 5 created_detector
    = Resolved swapped_report swapped_detector /\
  NoDup (Changes.all swapped_report) /\
  List.length (Changes.all swapped_report) = Changes.length swapped_report.
Proof.
  split; [exact swapped_cycle|].
  exact (proj2 (proj2 (changes_listed_once 0 (test_steps test_swapped) 4 5
           created_detector swapped_detector swapped_report swapped_cycle))
           created_detector_timed (test_steps_timed test_swapped eq_refl)).
Defined.

Lemma file_count_balance_witness :
  detectChanges 0 (test_steps test_swapped) 4 5 created_detector
    = Resolved swapped_report swapped_detector /\
  (Changes.fileCount swapped_report + List.length (Changes.deleted swapped_report) =
   size (files created_detector) + List.length (Changes.added swapped_report))%nat.
Proof.
  split; [exact swapped_cycle|].
  exact (file_count_balance 0 (test_steps test_swapped) 4 5 created_detector
           swapped_detector swapped_report created_detector_timed
           (test_steps_timed test_swapped eq_refl) swapped_cycle).
Defined.

Lemma snapshot_matches_patterns_witness :
  (followSymlink (options created_detector) = false /\
   detectChanges 0 (test_steps test_swapped) 4 5 created_detector
     = Resolved swapped_report swapped_detector) /\
  test (options created_detector) "tmp/g" = true /\
  ignore (options created_detector) "tmp/g" = false.
Proof.
  split; [exact (conj eq_refl swapped_cycle)|].
  refine (proj1 (snapshot_matches_patterns created_detector eq_refl)
            0%nat (test_steps test_swapped) 4%Z 5%Z swapped_report swapped_detector
            swapped_cycle "tmp/g" _).
  left. exists 30%N. by vm_compute.
Defined.

Lemma snapshot_has_no_dotfiles_witness :
  (followSymlink (options plain_detector) = false /\
   ignoreDotFiles (options plain_detector) = true /\
   named_fs (fs_of plain_disk) /\
   detectChanges 0 (steady_schedule (fs_of plain_disk) plain_steps) 0 1 plain_detector
     = Resolved plain_report plain_detector) /\
  ~ dot_name (last_segment "d/f").
Proof.
  split; [exact (conj eq_refl (conj eq_refl (conj plain_disk_named plain_second_cycle)))|].
  refine (proj1 (snapshot_has_no_dotfiles plain_detector eq_refl eq_refl)
            0%nat (steady_schedule (fs_of plain_disk) plain_steps) 0%Z 1%Z
            plain_report plain_detector
            (steady_schedule_all named_fs _ _ plain_disk_named)
            plain_second_cycle "d/f" _).
  left. exists 3%N. by vm_compute.
Defined.

Lemma followed_never_symlink_witness :
  walk_locate (fs_of chain_disk) 3 true (TInfo chain_entry) = Some (inr chain_located) /\
  isSymlink (l_info chain_located) = false.
Proof.
  assert (H : walk_locate (fs_of chain_disk) 3 true (TInfo chain_entry)
              = Some (inr chain_located)) by (by vm_compute).
  split; [exact H|].
  exact (proj1 (followed_never_symlink (fs_of chain_disk) 3 (makeFilter chain_options)
                  (TInfo chain_entry) chain_located empty_store) H).
Defined.

Lemma listing_errors_witness :
  (l_path vanished_located <> "" /\
   makeFilter defaultOptions (l_info vanished_located)
     (str_or (l_linkPath vanished_located) (l_path vanished_located)) = true /\
   isDirectory (l_info vanished_located) = true /\
   readDir vanished_fs (l_path vanished_located) = inl NotFound /\
   collect_locate vanished_fs 0 false (TPath "d") = Some (inr vanished_located)) /\
  forall all,
    collect vanished_fs 1 all [TPath "d"] false (makeFilter defaultOptions)
    = (all, Throw NotFound).
Proof.
  assert (H1 : l_path vanished_located <> "") by done.
  split; [exact (conj H1 (conj eq_refl (conj eq_refl (conj eq_refl eq_refl))))|].
  exact (proj2 (listing_errors vanished_fs 0 0 false (makeFilter defaultOptions)
                  (TPath "d") [] vanished_located NotFound H1 eq_refl eq_refl eq_refl)
           eq_refl).
Defined.

Lemma collect_keeps_keys_witness :
  is_Some (({[ "old" := 1%N ]} : gmap string N) !! "old") /\
  is_Some ((collect (fs_of plain_disk) 3 {[ "old" := 1%N ]} [TPath "d"] false
              (makeFilter defaultOptions)).1 !! "old").
Proof.
  assert (H : is_Some (({[ "old" := 1%N ]} : gmap string N) !! "old")) by (by eexists).
  split; [exact H|].
  exact (proj1 (collect_keeps_keys (fs_of plain_disk) 3 {[ "old" := 1%N ]} [TPath "d"]
                  false (makeFilter defaultOptions) plain_detector "old") H).
Defined.

Lemma default_filter_witness :
  "d/.git"%string <> ""%string /\
  (makeFilter defaultOptions (mkFileInfo "" "" File 1 1) "d/.git" = false <->
   dot_name (if String.eqb (name (mkFileInfo "" "" File 1 1)) ""
             then last_segment "d/.git" else name (mkFileInfo "" "" File 1 1))).
Proof.
  assert (H : "d/.git"%string <> ""%string) by done.
  split; [exact H|].
  exact (default_filter (mkFileInfo "" "" File 1 1) "d/.git" H).
Defined.

Lemma loop_runs_until_cancelled_witness :
  forallb (fun e => negb (is_cancel e)) (one_round ++ [CallbackDone 1020]) = true /\
  abort (run_events (one_round ++ [CallbackDone 1020]) (start 1000 0 0)) = false /\
  where_ (run_events (one_round ++ [CallbackDone 1020]) (start 1000 0 0)) <> Returned.
Proof.
  split; [reflexivity|].
  pose proof (loop_runs_until_cancelled 1000 0 0 (one_round ++ [CallbackDone 1020])
                eq_refl) as H.
  exact (conj (proj1 H) (proj1 (proj2 (proj2 H)))).
Defined.

Lemma cancel_during_callback_witness :
  where_ (run_events one_round (start 1000 0 0)) = AtCallback /\
  ended (run_step Cancel (run_events one_round (start 1000 0 0))) = HandlePending /\
  ended (run_step (CallbackDone 1020)
           (run_step Cancel (run_events one_round (start 1000 0 0)))) = HandleResolved.
Proof.
  split; [reflexivity|].
  pose proof (cancel_during_callback 1000 0 0 one_round eq_refl) as H.
  exact (conj (proj1 H) (proj1 (proj1 (proj2 (proj2 H)) 1020%Z))).
Defined.

Lemma fs_of_steady (dk : disk) :
  timed_disk dk = true -> steady (fs_of dk) (disk_stamp dk).
Proof.
  intros Hdk.
  assert (Hn : forall p n, find_node dk p = Some n -> timed_node n = true).
  { intros p n H. apply find_node_In in H.
    unfold timed_disk in Hdk. rewrite forallb_forall in Hdk. apply (Hdk _ H). }
  assert (Hi : forall nm q p n i, find_node dk p = Some n -> node_info nm q n = inr i ->
                 time_of i = disk_stamp dk p /\ disk_stamp dk p <> 0%N).
  { intros nm q p n i Hp Hi. unfold disk_stamp. rewrite Hp.
    specialize (Hn p n Hp). destruct n; simpl in Hi; try discriminate;
      injection Hi as <-; try done.
    simpl in Hn. unfold time_of. simpl.
    split; [done|]. by destruct (N.eqb_spec (num_or mtime ctime) 0). }
  split.
  - intros p i. unfold fs_of, lstat.
    destruct (find_node dk p) as [n|] eqn:E; [|discriminate]. by apply Hi.
  - intros p l i. unfold fs_of, readDir.
    destruct (find_node dk p) as [[| names | |]|] eqn:E; try discriminate.
    intros [= <-] Hin.
    apply list_elem_of_omap in Hin as (nm & _ & Hin).
    destruct (find_node dk (p ++ "/" ++ nm)) as [n|] eqn:En; [|discriminate].
    destruct (node_info nm (p ++ "/" ++ nm) n) as [e|j] eqn:Ej.
    + injection Hin as <-. simpl. unfold disk_stamp. rewrite En.
      by destruct n.
    + injection Hin as <-.
      assert (Hp : path j = (p ++ "/" ++ nm)%string).
      { destruct n; simpl in Ej; try discriminate; by injection Ej as <-. }
      rewrite Hp. by eapply Hi.
Qed.

Lemma new_detector_timed (paths : list string) (o : DetectorOptions)
    (p : string) (v : N) :
  files (newDetector paths o) !! p = Some v -> v <> 0%N.
Proof. simpl. by rewrite lookup_empty. Qed.

Lemma fork_cycle1 :
  detectChanges 0 (steady_schedule (fs_of fork_disk) fork_steps1) 0 1
    (newDetector ["r"] defaultOptions) = Resolved fork_report1 fork_detector.
Proof. by vm_compute. Qed.

Lemma fork_cycle2 :
  detectChanges 0 (steady_schedule (fs_of fork_disk) fork_steps2) 2 3
    (newDetector ["r"] defaultOptions) = Resolved fork_report2 fork_detector.
Proof. by vm_compute. Qed.

Lemma interleaving_does_not_matter_witness :
  (detectChanges 0 (steady_schedule (fs_of fork_disk) fork_steps1) 0 1
     (newDetector ["r"] defaultOptions) = Resolved fork_report1 fork_detector /\
   detectChanges 0 (steady_schedule (fs_of fork_disk) fork_steps2) 2 3
     (newDetector ["r"] defaultOptions) = Resolved fork_report2 fork_detector) /\
  Changes.added fork_report1 ≡ₚ Changes.added fork_report2 /\
  Changes.length fork_report1 = Changes.length fork_report2.
Proof.
  split; [exact (conj fork_cycle1 fork_cycle2)|].
  pose proof (interleaving_does_not_matter (fs_of fork_disk) (disk_stamp fork_disk) 0
                fork_steps1 fork_steps2 0 1 2 3 (newDetector ["r"] defaultOptions)
                fork_detector fork_detector fork_report1 fork_report2
                eq_refl (fs_of_steady fork_disk eq_refl)
                (new_detector_timed ["r"] defaultOptions)
                fork_cycle1 fork_cycle2) as H.
  exact (conj (proj1 (proj2 H)) (proj2 (proj2 (proj2 (proj2 (proj2 H)))))).
Defined.

Lemma path_guard_witness :
  (path pathless_entry = "" /\ (isSymlink pathless_entry && false = false)) /\
  walk_body (fs_of plain_disk) 0 false (makeFilter defaultOptions)
    (TInfo pathless_entry) empty_store = Raise (JsError "path not found").
Proof.
  split; [exact (conj eq_refl eq_refl)|].
  exact (proj1 (proj1 (path_guard (fs_of plain_disk) 0 0 false (makeFilter defaultOptions)
                         pathless_entry plain_detector) eq_refl eq_refl) empty_store).
Defined.

(** ** Paths named like a member of [Object.prototype] *)

(** X22.  A path named like a member of [Object.prototype] ([constructor],
    [toString], ...) is invisible to [detectChanges]: the lookup
    [curr[path]] finds the inherited member, so [walk] passes the file over.
    A cycle that completes never has such a path in the new snapshot nor
    lists it as added or modified; and if the previous snapshot holds it,
    as after [init], the cycle lists it as deleted, whether or not the file
    is still there. *)
Theorem prototype_named_never_recorded (depth : nat) (sch : schedule) (t0 t1 : Z)
    (d d' : Detector) (c : Changes.t) (q : string) :
  prototype_member q = true ->
  detectChanges depth sch t0 t1 d = Resolved c d' ->
  files d' !! q = None /\
  (q ∉ Changes.added c) /\ (q ∉ Changes.modified c) /\
  (is_Some (files d !! q) -> q ∈ Changes.deleted c).
Proof.
  intros Hq H.
  apply detectChanges_resolved in H as (t & h & _ & _ & Hinv & -> & ->).
  destruct Hinv as [Hprev Hadd Hmod _ Hdel _ Hown]. simpl.
  assert (Hnone : curr h !! q = None).
  { destruct (curr h !! q) as [v|] eqn:E; [|done].
    rewrite (Hown q) in Hq by (by eexists). discriminate. }
  repeat split.
  - exact Hnone.
  - intros Hin. apply Hadd in Hin as [v Hv]. congruence.
  - intros Hin. apply Hmod in Hin as (v & w & _ & Hw & _). congruence.
  - intros [v Hv]. rewrite Hdel. simpl. apply elem_of_keys.
    rewrite Hprev, Hnone. by eexists.
Qed.

Lemma constructor_init :
  init (fs_of constructor_disk) 3 (newDetector ["constructor"] defaultOptions)
  = (constructor_detector, Normal).
Proof. by vm_compute. Qed.

Lemma constructor_cycle :
  detectChanges 0 constructor_schedule 0 1 constructor_detector
  = Resolved constructor_report (set_files constructor_detector ∅).
Proof. by vm_compute. Qed.

Lemma prototype_named_never_recorded_witness :
  (prototype_member "constructor" = true /\
   init (fs_of constructor_disk) 3 (newDetector ["constructor"] defaultOptions)
     = (constructor_detector, Normal) /\
   detectChanges 0 constructor_schedule 0 1 constructor_detector
     = Resolved constructor_report (set_files constructor_detector ∅)) /\
  files (set_files constructor_detector ∅) !! "constructor" = None /\
  "constructor" ∈ Changes.deleted constructor_report.
Proof.
  split; [exact (conj eq_refl (conj constructor_init constructor_cycle))|].
  pose proof (prototype_named_never_recorded 0 constructor_schedule 0 1
                constructor_detector (set_files constructor_detector ∅)
                constructor_report "constructor" eq_refl constructor_cycle) as H.
  split; [exact (proj1 H)|].
  apply (proj2 (proj2 (proj2 H))). by eexists.
Defined.
